(** * s3-upload-cleaner: a shallow embedding of [main.go]

    The cleaner walks an S3 bucket that backs a container registry, aborts
    stale multipart uploads and deletes stale [_uploads] folders.  The
    embedding follows [main.go] function by function.  Pointer fields of the
    AWS SDK structures are [option]s, a nil dereference and [panic(err)] end
    the run with [Panic], and the three [for] loops take fuel. *)

From Stdlib Require Import ZArith List String Ascii Bool Lia ZifyBool.
From Stdlib Require Import PrimFloat SpecFloat FloatOps.
From Stdlib Require Uint63.
Import ListNotations.

Open Scope string_scope.
Open Scope list_scope.
Open Scope Z_scope.

(** ** The pieces of Go's [strings] package that [main.go] calls *)

Module strings.

(** [strings.HasPrefix(s, prefix)]:
    [len(s) >= len(prefix) && s[:len(prefix)] == prefix]. *)
Fixpoint HasPrefix (s prefix : string) : bool :=
  match prefix with
  | EmptyString => true
  | String c prefix' =>
      match s with
      | EmptyString => false
      | String d s' => Ascii.eqb d c && HasPrefix s' prefix'
      end
  end.

(** [strings.Contains(s, substr)]: some suffix of [s] starts with [substr]. *)
Fixpoint Contains (s substr : string) : bool :=
  HasPrefix s substr ||
  match s with
  | EmptyString => false
  | String _ s' => Contains s' substr
  end.

(** [strings.HasSuffix(s, suffix)]:
    [len(s) >= len(suffix) && s[len(s)-len(suffix):] == suffix]. *)
Definition HasSuffix (s suffix : string) : bool :=
  (String.length suffix <=? String.length s)%nat &&
  String.eqb
    (String.substring (String.length s - String.length suffix)
                      (String.length suffix) s)
    suffix.

(** [strings.Split(s, sep)] for a separator of one byte, the only kind
    [main.go] passes.  The result is never empty. *)
Fixpoint Split (s : string) (sep : ascii) : list string :=
  match s with
  | EmptyString => [EmptyString]
  | String c s' =>
      if Ascii.eqb c sep then EmptyString :: Split s' sep
      else match Split s' sep with
           | [] => [String c EmptyString]
           | p :: ps => String c p :: ps
           end
  end.

(** [strings.Join(elems, sep)]. *)
Fixpoint Join (elems : list string) (sep : string) : string :=
  match elems with
  | [] => EmptyString
  | [e] => e
  | e :: rest => (e ++ sep ++ Join rest sep)%string
  end.

End strings.

(** ** The pieces of Go's [time] package that [main.go] calls *)

Module time.

(** An instant, as nanoseconds since the Unix epoch (UTC). *)
Definition Time := Z.

(** A [time.Duration]: a signed 64-bit count of nanoseconds. *)
Definition Duration := Z.

Definition minDuration : Duration := - 2 ^ 63.
Definition maxDuration : Duration := 2 ^ 63 - 1.
Definition Second : Duration := 1000000000.
Definition Hour : Duration := 3600 * Second.

(** [t.Sub(u)]: the difference, saturated to the range of [Duration]. *)
Definition Sub (t u : Time) : Duration :=
  let d := t - u in
  if d <? minDuration then minDuration
  else if maxDuration <? d then maxDuration
  else d.

(** [float64(n)] for an integer [n] of magnitude below [2^63]: the
    nearest double, which is [n] itself below [2^53]. *)
Definition float64 (n : Z) : float :=
  if n <? 0 then (- of_uint63 (Uint63.of_Z (- n)))%float
  else of_uint63 (Uint63.of_Z n).

(** [d.Hours()]:
    [hour := d / Hour; nsec := d % Hour;
     return float64(hour) + float64(nsec)/(60*60*1e9)].
    The quotient and the sum are the IEEE 754 binary64 operations of
    Rocq's primitive floats, each rounded to the nearest double; the two
    conversions are exact, [hour] and [nsec] being far below [2^53]. *)
Definition Hours (d : Duration) : float :=
  let hour := Z.quot d Hour in
  let nsec := Z.rem d Hour in
  (float64 hour + float64 nsec / 3.6e12)%float.

(** [int(f)] for a float64 [f]: the fraction is dropped.  [Hours] gives
    no infinity and no NaN, and nothing near [2^63]. *)
Definition truncate (f : float) : Z :=
  match Prim2SF f with
  | S754_finite s m e =>
      let v := if 0 <=? e then Z.pos m * 2 ^ e else Z.pos m / 2 ^ (- e) in
      if s then - v else v
  | _ => 0
  end.

(** [int(d.Hours())]. *)
Definition intHours (d : Duration) : Z := truncate (Hours d).

(** [int(time.Since(t).Hours())] when the clock reads [now]. *)
Definition hoursSince (now t : Time) : Z := intHours (Sub now t).

Definition isLeap (year : Z) : bool :=
  (year mod 4 =? 0) && (negb (year mod 100 =? 0) || (year mod 400 =? 0)).

Definition daysBefore : list Z :=
  [0; 31; 59; 90; 120; 151; 181; 212; 243; 273; 304; 334; 365].

(** [daysIn(month, year)]. *)
Definition daysIn (month year : Z) : Z :=
  if (month =? 2) && isLeap year then 29
  else nth (Z.to_nat month) daysBefore 0 - nth (Z.to_nat (month - 1)) daysBefore 0.

(** Leap years strictly before [year], counted from year 1. *)
Definition leapsBefore (year : Z) : Z :=
  (year - 1) / 4 - (year - 1) / 100 + (year - 1) / 400.

(** Days from 1970-01-01 to January 1st of [year]. *)
Definition daysSinceEpoch (year : Z) : Z :=
  365 * (year - 1970) + (leapsBefore year - leapsBefore 1970).

(** [norm(hi, lo, base)]: carry [lo] into [hi] so that [0 <= lo < base]. *)
Definition norm (hi lo base : Z) : Z * Z := (hi + lo / base, lo mod base).

(** [time.Date(year, month, day, hour, min, sec, nsec, time.UTC)]. *)
Definition Date (year month day hour min sec nsec : Z) : Time :=
  let '(year, m) := norm year (month - 1) 12 in
  let month := m + 1 in
  let '(sec, nsec) := norm sec nsec 1000000000 in
  let '(min, sec) := norm min sec 60 in
  let '(hour, min) := norm hour min 60 in
  let '(day, hour) := norm day hour 24 in
  let d := daysSinceEpoch year + nth (Z.to_nat (month - 1)) daysBefore 0 in
  let d := if isLeap year && (3 <=? month) then d + 1 else d in
  let d := d + (day - 1) in
  (d * 86400 + (hour * 3600 + min * 60 + sec)) * 1000000000 + nsec.

(** The zero [time.Time{}]: January 1, year 1, 00:00:00 UTC. *)
Definition zeroTime : Time := Date 1 1 1 0 0 0 0.

(** *** [time.Parse]

    The layout language is modelled for the chunks that occur in
    [startedadDateFormat]: the year [2006], the zero-padded month [01], day
    [02], minute [04] and second [05], the hour [15], and literal bytes. *)

Inductive chunk :=
| stdLongYear | stdZeroMonth | stdZeroDay | stdHour | stdZeroMinute
| stdZeroSecond
| literal (c : ascii).

Definition isChar (c : ascii) (s : string) : bool :=
  match s with
  | String d EmptyString => Ascii.eqb c d
  | _ => false
  end.

(** [nextStdChunk], run to the end of the layout. *)
Fixpoint chunks (layout : string) : list chunk :=
  match layout with
  | EmptyString => []
  | String c0 r0 =>
      match r0 with
      | String c1 r1 =>
          if isChar c0 "0" && isChar c1 "1" then stdZeroMonth :: chunks r1
          else if isChar c0 "0" && isChar c1 "2" then stdZeroDay :: chunks r1
          else if isChar c0 "0" && isChar c1 "4" then stdZeroMinute :: chunks r1
          else if isChar c0 "0" && isChar c1 "5" then stdZeroSecond :: chunks r1
          else if isChar c0 "1" && isChar c1 "5" then stdHour :: chunks r1
          else
            match r1 with
            | String c2 (String c3 r3) =>
                if isChar c0 "2" && isChar c1 "0" && isChar c2 "0" && isChar c3 "6"
                then stdLongYear :: chunks r3
                else literal c0 :: chunks r0
            | _ => literal c0 :: chunks r0
            end
      | EmptyString => [literal c0]
      end
  end.

Definition isDigit (c : ascii) : bool :=
  let n := Z.of_N (N_of_ascii c) in (48 <=? n) && (n <=? 57).

Definition digit (c : ascii) : Z := Z.of_N (N_of_ascii c) - 48.

(** [getnum(s, fixed)]: one or two digits, two when [fixed]. *)
Definition getnum (s : string) (fixed : bool) : option (Z * string) :=
  match s with
  | String c0 s1 =>
      if isDigit c0 then
        match s1 with
        | String c1 s2 =>
            if isDigit c1 then Some (digit c0 * 10 + digit c1, s2)
            else if fixed then None else Some (digit c0, s1)
        | EmptyString => if fixed then None else Some (digit c0, s1)
        end
      else None
  | EmptyString => None
  end.

(** The leading run of digits of [s] (at most [n] of them), its value when
    read after the digits [acc], and the rest of [s]. *)
Fixpoint leadingDigits (n : nat) (acc : Z) (s : string) : Z * nat * string :=
  match n, s with
  | S n', String c s' =>
      if isDigit c then
        let '(v, k, rest) := leadingDigits n' (acc * 10 + digit c) s' in
        (v, S k, rest)
      else (acc, O, s)
  | _, _ => (acc, O, s)
  end.

(** The four bytes of a [2006] year: [atoi] of [value[0:4]], which has to
    start with a digit. *)
Definition getyear (s : string) : option (Z * string) :=
  match s with
  | String c0 (String c1 (String c2 (String c3 rest))) =>
      if isDigit c0 && isDigit c1 && isDigit c2 && isDigit c3
      then Some (((digit c0 * 10 + digit c1) * 10 + digit c2) * 10 + digit c3, rest)
      else None
  | _ => None
  end.

Definition commaOrPeriod (c : ascii) : bool :=
  isChar c "." || isChar c ",".

(** The fractional second that [Parse] accepts after the seconds field even
    though the layout has none: a period or comma and at least one digit.
    Digits past the ninth are dropped.  Returns the nanoseconds and the
    rest of the input. *)
Definition fraction (s : string) : option (Z * string) :=
  match s with
  | String c0 (String c1 s2) =>
      if commaOrPeriod c0 && isDigit c1 then
        let '(_, k, rest) := leadingDigits (String.length s) 0 (String c1 s2) in
        let '(ns, k9, _) := leadingDigits 9 0 (String c1 s2) in
        Some (ns * 10 ^ (9 - Z.of_nat k9), rest)
      else None
  | _ => None
  end.

Definition error := string.

Record fields := {
  year : Z; month : Z; day : Z; hour : Z; min : Z; sec : Z; nsec : Z
}.

Definition errBad : error := "parsing time: cannot parse value as layout".
Definition errRange : error := "parsing time: field out of range".
Definition errExtra : error := "parsing time: extra text".
Definition errDay : error := "parsing time: day out of range".

(** The loop of [Parse]: one chunk of the layout at a time, each consuming
    a piece of [value]; the first failure ends the parse. *)
Fixpoint parseChunks (cs : list chunk) (value : string) (f : fields)
  : fields + error :=
  match cs with
  | [] =>
      if String.eqb value EmptyString then inl f else inr errExtra
  | literal c :: cs' =>
      match value with
      | String v value' =>
          if Ascii.eqb v c then parseChunks cs' value' f else inr errBad
      | EmptyString => inr errBad
      end
  | stdLongYear :: cs' =>
      match getyear value with
      | Some (y, value') =>
          parseChunks cs' value'
            {| year := y; month := month f; day := day f; hour := hour f;
               min := min f; sec := sec f; nsec := nsec f |}
      | None => inr errBad
      end
  | stdZeroMonth :: cs' =>
      match getnum value true with
      | Some (m, value') =>
          if (m <=? 0) || (12 <? m) then inr errRange
          else parseChunks cs' value'
            {| year := year f; month := m; day := day f; hour := hour f;
               min := min f; sec := sec f; nsec := nsec f |}
      | None => inr errBad
      end
  | stdZeroDay :: cs' =>
      match getnum value true with
      | Some (d, value') =>
          parseChunks cs' value'
            {| year := year f; month := month f; day := d; hour := hour f;
               min := min f; sec := sec f; nsec := nsec f |}
      | None => inr errBad
      end
  | stdHour :: cs' =>
      match getnum value false with
      | Some (h, value') =>
          if (h <? 0) || (24 <=? h) then inr errRange
          else parseChunks cs' value'
            {| year := year f; month := month f; day := day f; hour := h;
               min := min f; sec := sec f; nsec := nsec f |}
      | None => inr errBad
      end
  | stdZeroMinute :: cs' =>
      match getnum value true with
      | Some (m, value') =>
          if (m <? 0) || (60 <=? m) then inr errRange
          else parseChunks cs' value'
            {| year := year f; month := month f; day := day f; hour := hour f;
               min := m; sec := sec f; nsec := nsec f |}
      | None => inr errBad
      end
  | stdZeroSecond :: cs' =>
      match getnum value true with
      | Some (s, value') =>
          if (s <? 0) || (60 <=? s) then inr errRange
          else
            match fraction value' with
            | Some (ns, value'') =>
                parseChunks cs' value''
                  {| year := year f; month := month f; day := day f;
                     hour := hour f; min := min f; sec := s; nsec := ns |}
            | None =>
                parseChunks cs' value'
                  {| year := year f; month := month f; day := day f;
                     hour := hour f; min := min f; sec := s; nsec := nsec f |}
            end
      | None => inr errBad
      end
  end.

(** [time.Parse(layout, value)] for a layout without a zone: the fields are
    read in UTC.  A month or day that the layout does not set counts as 1;
    the day is checked against the month once the whole value is read. *)
Definition Parse (layout value : string) : Time * option error :=
  match parseChunks (chunks layout) value
          {| year := 0; month := -1; day := -1; hour := 0; min := 0;
             sec := 0; nsec := 0 |} with
  | inr e => (zeroTime, Some e)
  | inl f =>
      let month := if month f <? 0 then 1 else month f in
      let day := if day f <? 0 then 1 else day f in
      if (day <? 1) || (daysIn month (year f) <? day)
      then (zeroTime, Some errDay)
      else (Date (year f) month day (hour f) (min f) (sec f) (nsec f), None)
  end.

End time.

Definition startedadDateFormat : string := "2006-01-02T15:04:05Z".


(** ** The AWS SDK structures that [main.go] builds and reads

    A field that is a pointer in Go is an [option] here: [aws.String(x)] and
    [&x] are [Some x], a nil pointer is [None]. *)

Definition error := time.error.

Module ListObjectsInput.
Record t := {
  MaxKeys : option Z; Bucket : option string; Prefix : option string;
  Delimiter : option string; Marker : option string
}.
End ListObjectsInput.

Module CommonPrefix.
Record t := { Prefix : option string }.
End CommonPrefix.

Module Object.
Record t := { Key : option string }.
End Object.

Module ListObjectsOutput.
Record t := {
  IsTruncated : option bool; NextMarker : option string;
  CommonPrefixes : list CommonPrefix.t; Contents : list Object.t;
  Prefix : option string
}.
End ListObjectsOutput.

Module ListMultipartUploadsInput.
Record t := {
  Bucket : option string; Prefix : option string;
  KeyMarker : option string; MaxUploads : option Z
}.
End ListMultipartUploadsInput.

Module MultipartUpload.
Record t := {
  Key : option string; UploadId : option string; Initiated : option time.Time
}.
End MultipartUpload.

Module ListMultipartUploadsOutput.
Record t := {
  IsTruncated : option bool; NextKeyMarker : option string;
  Uploads : list MultipartUpload.t
}.
End ListMultipartUploadsOutput.

Module AbortMultipartUploadInput.
Record t := {
  Bucket : option string; Key : option string; UploadId : option string
}.
End AbortMultipartUploadInput.

Module ListObjectsV2Input.
Record t := {
  Bucket : option string; Prefix : option string; MaxKeys : option Z;
  ContinuationToken : option string
}.
End ListObjectsV2Input.

Module ListObjectsV2Output.
Record t := {
  Contents : list Object.t; NextContinuationToken : option string;
  IsTruncated : option bool
}.
End ListObjectsV2Output.

Module GetObjectInput.
Record t := { Bucket : option string; Key : option string }.
End GetObjectInput.

(** An [io.Reader] as [bytes.Buffer.ReadFrom] sees it: the bytes it yields
    and the error, if any, that ends the reading. *)
Record Reader := { data : string; readErr : option error }.

Module GetObjectOutput.
Record t := { Body : Reader }.
End GetObjectOutput.

Module DeleteObjectInput.
Record t := { Bucket : option string; Key : option string }.
End DeleteObjectInput.

(** The command-line options, line 24. *)
Record Options := {
  Endpoint : string; Region : string; Bucket : string; AccessKey : string;
  SecretKey : string; RootDirectory : string; CleanupHours : Z; DryRun : bool
}.

Definition MaxResultCount : Z := 1000.

(** ** What a run does: lines printed and calls made *)

(** One constructor per [fmt.Printf]/[fmt.Println] of [main.go]. *)
Inductive Msg :=
| RunInDryRunMode                                   (* line 45 *)
| CleanupHoursLine (h : Z)                          (* line 50 *)
| EndpointLine (e : string)                         (* line 51 *)
| BucketLine (b : string)                           (* line 52 *)
| RootDirectoryLine (d : string)                    (* line 53 *)
| PrefixIs (p : string)                             (* line 58 *)
| ResultTruncated                                   (* line 77 *)
| PrefixLine (i : Z) (p : string)                   (* line 82 *)
| RemovingUploadFolders (p : string)                (* line 87 *)
| TotalMPUsRemoved (n : Z)                          (* line 93 *)
| OutputTruncated                                   (* line 116 *)
| MPUsFound (n : Z)                                 (* line 119 *)
| UploadLine (i : Z) (key : string)                 (* line 122 *)
| StartedHoursAgo (h : Z)                           (* line 126 *)
| Candidate (bucket key uploadId : string)          (* line 129 *)
| ErrorLine (e : error)                             (* lines 137, 170 *)
| RemovedBang                                       (* line 139 *)
| RemovedCount (n : Z)                              (* line 146 *)
| ListError (e : error)                             (* line 163 *)
| RemovingFolder (key : string) (h : Z)             (* line 175 *)
| SkippingFolder (key : string) (h : Z)             (* line 180 *)
| RemovingObject (key : string).                    (* line 213 *)

(** The functions of [main.go] that take the client, with their arguments. *)
Inductive Frame :=
| InCleanMPUs (bucket prefix : string)
| InCleanUploadFolders (bucket prefix : string)
| InRemoveUploadFolder (bucket prefix : string)
| InHoursSinceUploadStarted (bucket key : string).

(** A step of a run: a line on standard output, a request to the store
    together with what the store answered, or the entry into one of the
    functions above (a mark in the trace, it does nothing else). *)
Inductive Event :=
| Print (m : Msg)
| Enter (f : Frame)
| ListObjectsCall (i : ListObjectsInput.t) (o : ListObjectsOutput.t)
    (e : option error)
| ListMultipartUploadsCall (i : ListMultipartUploadsInput.t)
    (o : ListMultipartUploadsOutput.t) (e : option error)
| AbortMultipartUploadCall (i : AbortMultipartUploadInput.t)
    (e : option error)
| ListObjectsV2Call (i : ListObjectsV2Input.t) (o : ListObjectsV2Output.t)
    (e : option error)
| GetObjectCall (i : GetObjectInput.t) (o : GetObjectOutput.t)
    (e : option error)
| DeleteObjectCall (i : DeleteObjectInput.t) (e : option error).

(** How a run ends: it returns, it panics, or the model's fuel is spent. *)
Inductive Cause := PanicErr (e : error) | NilDereference.

Inductive Res (A : Type) :=
| Done (a : A)
| Panic (c : Cause)
| OutOfFuel.
Arguments Done {A} a.
Arguments Panic {A} c.
Arguments OutOfFuel {A}.

Record Run (St A : Type) := mkRun {
  result : Res A;
  final : St;
  trace : list Event
}.
Arguments mkRun {St A}.
Arguments result {St A}.
Arguments final {St A}.
Arguments trace {St A}.

(** ** The store and the clock

    The S3 client of the SDK ([*s3.S3]) and [time.Now] are outside the
    repository.  They are an interface here: every call maps the state of
    the outside world to an answer and a new state.  A call answers with
    the output structure and the error, as the Go methods do. *)
Class S3 (St : Type) := {
  ListObjects : ListObjectsInput.t -> St ->
                ListObjectsOutput.t * option error * St;
  ListMultipartUploads : ListMultipartUploadsInput.t -> St ->
                ListMultipartUploadsOutput.t * option error * St;
  AbortMultipartUpload : AbortMultipartUploadInput.t -> St ->
                option error * St;
  ListObjectsV2 : ListObjectsV2Input.t -> St ->
                ListObjectsV2Output.t * option error * St;
  GetObject : GetObjectInput.t -> St ->
                GetObjectOutput.t * option error * St;
  DeleteObject : DeleteObjectInput.t -> St -> option error * St;
  Now : St -> time.Time * St
}.

(** ** The monad of [main.go]'s functions *)

Definition M (St A : Type) : Type := St -> Run St A.

Definition ret {St A} (a : A) : M St A :=
  fun st => mkRun (Done a) st [].

Definition bind {St A B} (m : M St A) (k : A -> M St B) : M St B :=
  fun st =>
    let r := m st in
    match result r with
    | Done a =>
        let r' := k a (final r) in
        mkRun (result r') (final r') (trace r ++ trace r')
    | Panic c => mkRun (Panic c) (final r) (trace r)
    | OutOfFuel => mkRun OutOfFuel (final r) (trace r)
    end.

Declare Scope go_scope.
Delimit Scope go_scope with go.
Notation "x <- m ;; k" := (bind m (fun x => k))
  (at level 61, m at next level, right associativity) : go_scope.
Notation "' p <- m ;; k" := (bind m (fun x => let p := x in k))
  (at level 61, p pattern, m at next level, right associativity) : go_scope.
Notation "m ;; k" := (bind m (fun _ => k))
  (at level 61, right associativity) : go_scope.
Open Scope go_scope.

(** [panic(err)]. *)
Definition panic {St A} (e : error) : M St A :=
  fun st => mkRun (Panic (PanicErr e)) st [].

(** [*p]: a nil pointer ends the run. *)
Definition deref {St A} (p : option A) : M St A :=
  fun st =>
    match p with
    | Some a => mkRun (Done a) st []
    | None => mkRun (Panic NilDereference) st []
    end.

Definition outOfFuel {St A} : M St A :=
  fun st => mkRun OutOfFuel st [].

Definition print {St} (m : Msg) : M St unit :=
  fun st => mkRun (Done tt) st [Print m].

Definition enter {St} (f : Frame) : M St unit :=
  fun st => mkRun (Done tt) st [Enter f].

(** [for i, x := range xs { ... }] with the variables the body updates
    threaded through as [s]. *)
Fixpoint forRange {St A S} (body : Z -> A -> S -> M St S)
  (i : Z) (xs : list A) (s : S) : M St S :=
  match xs with
  | [] => ret s
  | x :: xs' => s' <- body i x s ;; forRange body (i + 1) xs' s'
  end.

Section Cleaner.

Context {St : Type} {s : S3 St}.
Variable opts : Options.

(** The calls to the client; each leaves the request and the answer in
    the trace. *)
Definition callListObjects (i : ListObjectsInput.t)
  : M St (ListObjectsOutput.t * option error) :=
  fun st => let '(o, e, st') := ListObjects i st in
            mkRun (Done (o, e)) st' [ListObjectsCall i o e].

Definition callListMultipartUploads (i : ListMultipartUploadsInput.t)
  : M St (ListMultipartUploadsOutput.t * option error) :=
  fun st => let '(o, e, st') := ListMultipartUploads i st in
            mkRun (Done (o, e)) st' [ListMultipartUploadsCall i o e].

Definition callAbortMultipartUpload (i : AbortMultipartUploadInput.t)
  : M St (option error) :=
  fun st => let '(e, st') := AbortMultipartUpload i st in
            mkRun (Done e) st' [AbortMultipartUploadCall i e].

Definition callListObjectsV2 (i : ListObjectsV2Input.t)
  : M St (ListObjectsV2Output.t * option error) :=
  fun st => let '(o, e, st') := ListObjectsV2 i st in
            mkRun (Done (o, e)) st' [ListObjectsV2Call i o e].

Definition callGetObject (i : GetObjectInput.t)
  : M St (GetObjectOutput.t * option error) :=
  fun st => let '(o, e, st') := GetObject i st in
            mkRun (Done (o, e)) st' [GetObjectCall i o e].

Definition callDeleteObject (i : DeleteObjectInput.t)
  : M St (option error) :=
  fun st => let '(e, st') := DeleteObject i st in
            mkRun (Done e) st' [DeleteObjectCall i e].

(** [int(time.Since(t).Hours())]. *)
Definition hoursSinceNow (t : time.Time) : M St Z :=
  fun st => let '(now, st') := Now st in
            mkRun (Done (time.hoursSince now t)) st' [].

(** [parseTimeFromStream], line 262. *)
Definition parseTimeFromStream (r : Reader) : time.Time * option error :=
  match readErr r with
  | Some err => (time.zeroTime, Some err)
  | None =>
      let dateString := data r in
      time.Parse startedadDateFormat dateString
  end.

(** [hoursSinceUploadStarted], line 243. *)
Definition hoursSinceUploadStarted (bucket key : string)
  : M St (Z * option error) :=
  enter (InHoursSinceUploadStarted bucket key) ;;
  '(obj, err) <- callGetObject
      {| GetObjectInput.Bucket := Some bucket;
         GetObjectInput.Key := Some key |} ;;
  match err with
  | Some e => ret (0, Some e)
  | None =>
      let '(t, err) := parseTimeFromStream (GetObjectOutput.Body obj) in
      match err with
      | Some e => panic e
      | None => h <- hoursSinceNow t ;; ret (h, None)
      end
  end.

(** The body of the loop of [removeUploadFolder], lines 204-213. *)
Definition removeObject (bucket : string) (_ : Z) (o : Object.t) (_ : unit)
  : M St unit :=
  err <- callDeleteObject
      {| DeleteObjectInput.Bucket := Some bucket;
         DeleteObjectInput.Key := Object.Key o |} ;;
  match err with
  | Some e => panic e
  | None => key <- deref (Object.Key o) ;; print (RemovingObject key)
  end.

(** [removeUploadFolder], line 190. *)
Definition removeUploadFolder (bucket prefix : string) : M St unit :=
  enter (InRemoveUploadFolder bucket prefix) ;;
  let keyParts := strings.Split prefix "/" in
  let uploadsFolder := strings.Join (removelast keyParts) "/" in
  '(objs, err) <- callListObjectsV2
      {| ListObjectsV2Input.Bucket := Some bucket;
         ListObjectsV2Input.Prefix := Some uploadsFolder;
         ListObjectsV2Input.MaxKeys := None;
         ListObjectsV2Input.ContinuationToken := None |} ;;
  match err with
  | Some e => panic e
  | None => forRange (removeObject bucket) 0 (ListObjectsV2Output.Contents objs) tt
  end.

(** The body of the inner loop of [cleanUploadFolders], lines 167-182. *)
Definition cleanObject (bucket : string) (_ : Z) (o : Object.t) (_ : unit)
  : M St unit :=
  key <- deref (Object.Key o) ;;
  if strings.Contains key "/_uploads/" && strings.HasSuffix key "/startedat"
  then
    '(hoursSince, err) <- hoursSinceUploadStarted bucket key ;;
    match err with
    | Some e => print (ErrorLine e)
    | None =>
        if CleanupHours opts <=? hoursSince then
          print (RemovingFolder key hoursSince) ;;
          if negb (DryRun opts) then removeUploadFolder bucket key else ret tt
        else print (SkippingFolder key hoursSince)
    end
  else ret tt.

(** The loop of [cleanUploadFolders], lines 153-187. *)
Fixpoint cleanUploadFoldersLoop (fuel : nat) (bucket prefix : string)
  (continuationToken : option string) : M St unit :=
  match fuel with
  | O => outOfFuel
  | S fuel' =>
      '(objs, err) <- callListObjectsV2
          {| ListObjectsV2Input.Bucket := Some bucket;
             ListObjectsV2Input.Prefix := Some prefix;
             ListObjectsV2Input.MaxKeys := Some MaxResultCount;
             ListObjectsV2Input.ContinuationToken := continuationToken |} ;;
      match err with Some e => print (ListError e) | None => ret tt end ;;
      forRange (cleanObject bucket) 0 (ListObjectsV2Output.Contents objs) tt ;;
      let continuationToken := ListObjectsV2Output.NextContinuationToken objs in
      shouldContinue <- deref (ListObjectsV2Output.IsTruncated objs) ;;
      if shouldContinue
      then cleanUploadFoldersLoop fuel' bucket prefix continuationToken
      else ret tt
  end.

(** [cleanUploadFolders], line 150. *)
Definition cleanUploadFolders (fuel : nat) (bucket prefix : string)
  : M St unit :=
  enter (InCleanUploadFolders bucket prefix) ;;
  cleanUploadFoldersLoop fuel bucket prefix None.

(** The body of the inner loop of [cleanMPUs], lines 122-143. *)
Definition cleanUpload (bucket : string) (i : Z) (multi : MultipartUpload.t)
  (totalRemoved : Z) : M St Z :=
  key <- deref (MultipartUpload.Key multi) ;;
  print (UploadLine i key) ;;
  initiated <- deref (MultipartUpload.Initiated multi) ;;
  hoursSince <- hoursSinceNow initiated ;;
  print (StartedHoursAgo hoursSince) ;;
  if CleanupHours opts <=? hoursSince then
    key <- deref (MultipartUpload.Key multi) ;;
    uploadId <- deref (MultipartUpload.UploadId multi) ;;
    print (Candidate bucket key uploadId) ;;
    (if negb (DryRun opts) then
       err <- callAbortMultipartUpload
           {| AbortMultipartUploadInput.Bucket := Some bucket;
              AbortMultipartUploadInput.Key := MultipartUpload.Key multi;
              AbortMultipartUploadInput.UploadId :=
                MultipartUpload.UploadId multi |} ;;
       match err with
       | Some e => print (ErrorLine e)
       | None => print RemovedBang
       end
     else ret tt) ;;
    ret (totalRemoved + 1)
  else ret totalRemoved.

(** The loop of [cleanMPUs], lines 101-145. *)
Fixpoint cleanMPUsLoop (fuel : nat) (bucket prefix : string)
  (keyMarker : string) (totalRemoved : Z) : M St Z :=
  match fuel with
  | O => outOfFuel
  | S fuel' =>
      '(resp, err) <- callListMultipartUploads
          {| ListMultipartUploadsInput.Bucket := Some bucket;
             ListMultipartUploadsInput.Prefix := Some prefix;
             ListMultipartUploadsInput.KeyMarker := Some keyMarker;
             ListMultipartUploadsInput.MaxUploads := Some MaxResultCount |} ;;
      match err with
      | Some e => panic e
      | None =>
          isTruncated <- deref (ListMultipartUploadsOutput.IsTruncated resp) ;;
          keyMarker <- deref (ListMultipartUploadsOutput.NextKeyMarker resp) ;;
          (if isTruncated then print OutputTruncated else ret tt) ;;
          print (MPUsFound
                   (Z.of_nat (List.length (ListMultipartUploadsOutput.Uploads resp)))) ;;
          totalRemoved <- forRange (cleanUpload bucket) 0
                            (ListMultipartUploadsOutput.Uploads resp)
                            totalRemoved ;;
          if isTruncated
          then cleanMPUsLoop fuel' bucket prefix keyMarker totalRemoved
          else ret totalRemoved
      end
  end.

(** [cleanMPUs], line 97. *)
Definition cleanMPUs (fuel : nat) (bucket prefix : string) : M St Z :=
  enter (InCleanMPUs bucket prefix) ;;
  totalRemoved <- cleanMPUsLoop fuel bucket prefix "" 0 ;;
  print (RemovedCount totalRemoved) ;;
  ret totalRemoved.

(** The body of the loop over the common prefixes, lines 82-84. *)
Definition cleanPrefix (fuel : nat) (i : Z) (cp : CommonPrefix.t)
  (totalRemoved : Z) : M St Z :=
  p <- deref (CommonPrefix.Prefix cp) ;;
  print (PrefixLine i p) ;;
  p <- deref (CommonPrefix.Prefix cp) ;;
  n <- cleanMPUs fuel (Bucket opts) p ;;
  ret (totalRemoved + n).

(** The loop of [main], lines 63-91.  [fuel] bounds each of the loops
    that run inside one iteration, [n] the iterations of this one. *)
Fixpoint mainLoop (fuel n : nat) (prefix marker : string) (totalRemoved : Z)
  : M St Z :=
  match n with
  | O => outOfFuel
  | S n' =>
      '(objs, err) <- callListObjects
          {| ListObjectsInput.MaxKeys := Some MaxResultCount;
             ListObjectsInput.Bucket := Some (Bucket opts);
             ListObjectsInput.Prefix := Some prefix;
             ListObjectsInput.Delimiter := Some "/";
             ListObjectsInput.Marker := Some marker |} ;;
      match err with
      | Some e => panic e
      | None =>
          isTruncated <- deref (ListObjectsOutput.IsTruncated objs) ;;
          marker <- (if isTruncated
                     then print ResultTruncated ;;
                          deref (ListObjectsOutput.NextMarker objs)
                     else ret marker) ;;
          totalRemoved <- forRange (cleanPrefix fuel) 0
                            (ListObjectsOutput.CommonPrefixes objs)
                            totalRemoved ;;
          p <- deref (ListObjectsOutput.Prefix objs) ;;
          print (RemovingUploadFolders p) ;;
          (if negb (DryRun opts)
           then p <- deref (ListObjectsOutput.Prefix objs) ;;
                cleanUploadFolders fuel (Bucket opts) p
           else ret tt) ;;
          if isTruncated
          then mainLoop fuel n' prefix marker totalRemoved
          else ret totalRemoved
      end
  end.

(** [main], from line 44 on: the options are parsed. *)
Definition main (fuel : nat) : M St unit :=
  (if DryRun opts then print RunInDryRunMode else ret tt) ;;
  let totalRemoved := 0 in
  print (CleanupHoursLine (CleanupHours opts)) ;;
  print (EndpointLine (Endpoint opts)) ;;
  print (BucketLine (Bucket opts)) ;;
  print (RootDirectoryLine (RootDirectory opts)) ;;
  let prefix :=
    if (0 <? String.length (RootDirectory opts))%nat
    then (RootDirectory opts ++ "/docker/registry/v2/repositories/")%string
    else "docker/registry/v2/repositories/" in
  print (PrefixIs prefix) ;;
  totalRemoved <- mainLoop fuel fuel prefix "" totalRemoved ;;
  print (TotalMPUsRemoved totalRemoved).

End Cleaner.

(** ** An S3-compatible store

    A bucket as the S3 API describes it, to run the cleaner against: the
    objects and the multipart uploads in progress, both in key order, and
    the listings cut into pages.  A store may put fewer entries in a page
    than the request allows ([pageSize]), may refuse to abort some uploads
    ([abortDenied]), and may leave [NextKeyMarker] out of the last page of
    a multipart listing ([lastKeyMarker = false]). *)

Module Store.

Record Upload := { key : string; uploadId : string; initiated : time.Time }.

Record t := {
  objects : list (string * string);
  uploads : list Upload;
  clock : time.Time;
  pageSize : nat;
  abortDenied : list string;
  lastKeyMarker : bool
}.

Definition orEmpty (o : option string) : string :=
  match o with Some x => x | None => EmptyString end.

(** The entries a page may hold: what the request allows (1000 when it
    does not say), capped by the store. *)
Definition limit (st : t) (requested : option Z) : nat :=
  Nat.min (pageSize st)
          (Z.to_nat (match requested with Some n => n | None => 1000 end)).

Definition after (marker : option string) (k : string) : bool :=
  match marker with
  | Some m => String.ltb m k
  | None => true
  end.

Definition lastOf (l : list string) : string := List.last l EmptyString.

Definition truncated {A} (n : nat) (l : list A) : bool :=
  (n <? List.length l)%nat.

Definition keysUnder (st : t) (prefix : string) : list string :=
  filter (fun k => strings.HasPrefix k prefix) (map fst (objects st)).

(** [ListObjectsV2]: the keys under the prefix that follow the
    continuation token, a page of them. *)
Definition listObjectsV2 (i : ListObjectsV2Input.t) (st : t)
  : ListObjectsV2Output.t * option error * t :=
  let all := filter (after (ListObjectsV2Input.ContinuationToken i))
                    (keysUnder st (orEmpty (ListObjectsV2Input.Prefix i))) in
  let n := limit st (ListObjectsV2Input.MaxKeys i) in
  let page := firstn n all in
  let more := truncated n all in
  ({| ListObjectsV2Output.Contents :=
        map (fun k => {| Object.Key := Some k |}) page;
      ListObjectsV2Output.NextContinuationToken :=
        if more then Some (lastOf page) else None;
      ListObjectsV2Output.IsTruncated := Some more |}, None, st).

(** The part of [rest] up to and including its first [/], if it has one. *)
Fixpoint firstSegment (rest : string) : option string :=
  match rest with
  | EmptyString => None
  | String c rest' =>
      if Ascii.eqb c "/" then Some (String c EmptyString)
      else match firstSegment rest' with
           | Some seg => Some (String c seg)
           | None => None
           end
  end.

(** The entry that stands for key [k] in a listing grouped by [/]: the
    common prefix it rolls up into ([inl]) or the key itself ([inr]). *)
Definition entryOf (prefix k : string) : string + string :=
  let rest := String.substring (String.length prefix)
                (String.length k - String.length prefix) k in
  match firstSegment rest with
  | Some seg => inl (prefix ++ seg)%string
  | None => inr k
  end.

Definition entryName (e : string + string) : string :=
  match e with inl p => p | inr k => k end.

Definition sameEntry (a b : string + string) : bool :=
  match a, b with
  | inl x, inl y | inr x, inr y => String.eqb x y
  | _, _ => false
  end.

(** Consecutive keys of one common prefix give one entry. *)
Fixpoint rollUp (es : list (string + string)) : list (string + string) :=
  match es with
  | [] => []
  | e :: es' =>
      match es' with
      | e' :: _ => if sameEntry e e' then rollUp es' else e :: rollUp es'
      | [] => [e]
      end
  end.

(** [ListObjects] with the delimiter [/]: the entries (keys and common
    prefixes) under the prefix that follow the marker, a page of them. *)
Definition listObjects (i : ListObjectsInput.t) (st : t)
  : ListObjectsOutput.t * option error * t :=
  let prefix := orEmpty (ListObjectsInput.Prefix i) in
  let keys := keysUnder st prefix in
  let entries :=
    match ListObjectsInput.Delimiter i with
    | Some _ => rollUp (map (entryOf prefix) keys)
    | None => map inr keys
    end in
  let all := filter (fun e => after (ListObjectsInput.Marker i) (entryName e))
                    entries in
  let n := limit st (ListObjectsInput.MaxKeys i) in
  let page := firstn n all in
  let more := truncated n all in
  ({| ListObjectsOutput.IsTruncated := Some more;
      ListObjectsOutput.NextMarker :=
        if more then Some (lastOf (map entryName page)) else None;
      ListObjectsOutput.CommonPrefixes :=
        flat_map (fun e => match e with
                           | inl p => [{| CommonPrefix.Prefix := Some p |}]
                           | inr _ => []
                           end) page;
      ListObjectsOutput.Contents :=
        flat_map (fun e => match e with
                           | inl _ => []
                           | inr k => [{| Object.Key := Some k |}]
                           end) page;
      ListObjectsOutput.Prefix := Some prefix |}, None, st).

(** [ListMultipartUploads]: the uploads in progress under the prefix whose
    key follows the key marker, a page of them. *)
Definition listMultipartUploads (i : ListMultipartUploadsInput.t) (st : t)
  : ListMultipartUploadsOutput.t * option error * t :=
  let prefix := orEmpty (ListMultipartUploadsInput.Prefix i) in
  let all :=
    filter (fun u => strings.HasPrefix (key u) prefix &&
                     after (ListMultipartUploadsInput.KeyMarker i) (key u))
           (uploads st) in
  let n := limit st (ListMultipartUploadsInput.MaxUploads i) in
  let page := firstn n all in
  let more := truncated n all in
  ({| ListMultipartUploadsOutput.IsTruncated := Some more;
      ListMultipartUploadsOutput.NextKeyMarker :=
        if more || lastKeyMarker st
        then Some (lastOf (map key page)) else None;
      ListMultipartUploadsOutput.Uploads :=
        map (fun u => {| MultipartUpload.Key := Some (key u);
                         MultipartUpload.UploadId := Some (uploadId u);
                         MultipartUpload.Initiated := Some (initiated u) |})
            page |}, None, st).

Definition isUpload (k id : string) (u : Upload) : bool :=
  String.eqb (key u) k && String.eqb (uploadId u) id.

Definition mem (x : string) (l : list string) : bool :=
  existsb (String.eqb x) l.

(** [AbortMultipartUpload]: the upload leaves the store, unless the store
    refuses or has no such upload. *)
Definition abortMultipartUpload (i : AbortMultipartUploadInput.t) (st : t)
  : option error * t :=
  match AbortMultipartUploadInput.Key i, AbortMultipartUploadInput.UploadId i with
  | Some k, Some id =>
      if mem id (abortDenied st) then (Some "AccessDenied", st)
      else if existsb (isUpload k id) (uploads st) then
        (None,
         {| objects := objects st;
            uploads := filter (fun u => negb (isUpload k id u)) (uploads st);
            clock := clock st; pageSize := pageSize st;
            abortDenied := abortDenied st;
            lastKeyMarker := lastKeyMarker st |})
      else (Some "NoSuchUpload", st)
  | _, _ => (Some "InvalidParameter", st)
  end.

Definition lookup (st : t) (k : string) : option string :=
  match find (fun kv => String.eqb (fst kv) k) (objects st) with
  | Some kv => Some (snd kv)
  | None => None
  end.

(** [GetObject]: the content of the object, if there is one. *)
Definition getObject (i : GetObjectInput.t) (st : t)
  : GetObjectOutput.t * option error * t :=
  match GetObjectInput.Key i with
  | Some k =>
      match lookup st k with
      | Some content =>
          ({| GetObjectOutput.Body := {| data := content; readErr := None |} |},
           None, st)
      | None =>
          ({| GetObjectOutput.Body := {| data := EmptyString; readErr := None |} |},
           Some "NoSuchKey", st)
      end
  | None =>
      ({| GetObjectOutput.Body := {| data := EmptyString; readErr := None |} |},
       Some "InvalidParameter", st)
  end.

(** [DeleteObject]: the object leaves the store; deleting a key that is
    not there succeeds too. *)
Definition deleteObject (i : DeleteObjectInput.t) (st : t) : option error * t :=
  match DeleteObjectInput.Key i with
  | Some k =>
      (None,
       {| objects := filter (fun kv => negb (String.eqb (fst kv) k)) (objects st);
          uploads := uploads st; clock := clock st; pageSize := pageSize st;
          abortDenied := abortDenied st; lastKeyMarker := lastKeyMarker st |})
  | None => (Some "InvalidParameter", st)
  end.

Definition now (st : t) : time.Time * t := (clock st, st).

End Store.

#[export] Instance StoreS3 : S3 Store.t := {
  ListObjects := Store.listObjects;
  ListMultipartUploads := Store.listMultipartUploads;
  AbortMultipartUpload := Store.abortMultipartUpload;
  ListObjectsV2 := Store.listObjectsV2;
  GetObject := Store.getObject;
  DeleteObject := Store.deleteObject;
  Now := Store.now
}.

(** ** Reading a run *)

Definition printed (tr : list Event) : list Msg :=
  flat_map (fun e => match e with Print m => [m] | _ => [] end) tr.

Definition isDone {A} (r : Res A) : bool :=
  match r with Done _ => true | _ => false end.

(** *** Example runs *)

Definition exampleOpts (threshold : Z) (dry : bool) : Options :=
  {| Endpoint := "http://s3.local"; Region := "us-west-1"; Bucket := "registry";
     AccessKey := "ak"; SecretKey := "sk"; RootDirectory := EmptyString;
     CleanupHours := threshold; DryRun := dry |}.

Definition repos : string := "docker/registry/v2/repositories/".

(** 2024-01-01T10:00:00Z. *)
Definition exampleNow : time.Time := time.Date 2024 1 1 10 0 0 0.

Definition exampleStore : Store.t :=
  {| Store.objects :=
       [ ((repos ++ "repoA/_uploads/abc123/data")%string, "blob");
         ((repos ++ "repoA/_uploads/abc123/startedat")%string, "2024-01-01T00:00:00Z") ];
     Store.uploads :=
       [ {| Store.key := (repos ++ "repoA/_uploads/abc123/data")%string;
            Store.uploadId := "u1";
            Store.initiated := time.Date 2024 1 1 5 0 0 0 |} ];
     Store.clock := exampleNow;
     Store.pageSize := 1000;
     Store.abortDenied := [];
     Store.lastKeyMarker := true |}.

(** The parts of a trace. *)

Definition entered (tr : list Event) : list Frame :=
  flat_map (fun e => match e with Enter f => [f] | _ => [] end) tr.

(** The responses to the grouped root listing. *)
Definition rootPages (tr : list Event) : list ListObjectsOutput.t :=
  flat_map (fun e => match e with ListObjectsCall _ o _ => [o] | _ => [] end) tr.

(** The responses to the multipart-upload listing. *)
Definition mpuPages (tr : list Event) : list ListMultipartUploadsOutput.t :=
  flat_map (fun e => match e with
                     | ListMultipartUploadsCall _ o _ => [o]
                     | _ => []
                     end) tr.

(** The flat listing of [cleanUploadFolders] asks for pages of
    [MaxResultCount] keys; the listing of [removeUploadFolder] names no
    page size. *)
Definition isScan (i : ListObjectsV2Input.t) : bool :=
  match ListObjectsV2Input.MaxKeys i with Some _ => true | None => false end.

(** The responses to the flat listing of [cleanUploadFolders]. *)
Definition scanPages (tr : list Event) : list ListObjectsV2Output.t :=
  flat_map (fun e => match e with
                     | ListObjectsV2Call i o _ => if isScan i then [o] else []
                     | _ => []
                     end) tr.

(** An event of the driver or of [cleanMPUs] that changes nothing in the
    store and reads no object: a printed line other than those about an
    upload folder, the entry into [cleanMPUs], one of the two listings. *)
Definition listingOnly (e : Event) : Prop :=
  match e with
  | Print (RemovingFolder _ _) | Print (SkippingFolder _ _)
  | Print (RemovingObject _) => False
  | Print _ | Enter (InCleanMPUs _ _) | ListObjectsCall _ _ _
  | ListMultipartUploadsCall _ _ _ => True
  | _ => False
  end.

(** The uploads a run selects for removal: line 129 prints each. *)
Definition selectedUploads (tr : list Event) : list (string * string) :=
  flat_map (fun e => match e with
                     | Print (Candidate _ key uploadId) => [(key, uploadId)]
                     | _ => []
                     end) tr.

(** The markers a run selects for removal: line 175 prints each. *)
Definition selectedMarkers (tr : list Event) : list string :=
  flat_map (fun e => match e with
                     | Print (RemovingFolder key _) => [key]
                     | _ => []
                     end) tr.

(** * Properties *)

(** ** The monad *)

Section MonadFacts.

Context {St : Type}.

Lemma result_bind {A B} (m : M St A) (k : A -> M St B) st :
  result (bind m k st) =
  match result (m st) with
  | Done a => result (k a (final (m st)))
  | Panic c => Panic c
  | OutOfFuel => OutOfFuel
  end.
Proof. unfold bind. destruct (result (m st)); reflexivity. Qed.

Lemma final_bind {A B} (m : M St A) (k : A -> M St B) st :
  final (bind m k st) =
  match result (m st) with
  | Done a => final (k a (final (m st)))
  | _ => final (m st)
  end.
Proof. unfold bind. destruct (result (m st)); reflexivity. Qed.

Lemma trace_bind {A B} (m : M St A) (k : A -> M St B) st :
  trace (bind m k st) =
  trace (m st) ++
  match result (m st) with
  | Done a => trace (k a (final (m st)))
  | _ => []
  end.
Proof.
  unfold bind. destruct (result (m st)); simpl; auto using app_nil_r.
Qed.

Lemma bind_Done {A B} (m : M St A) (k : A -> M St B) st a st' tr :
  m st = mkRun (Done a) st' tr ->
  bind m k st =
  mkRun (result (k a st')) (final (k a st')) (tr ++ trace (k a st')).
Proof. intros H. unfold bind. rewrite H. reflexivity. Qed.

Lemma run_eta {A} (r : Run St A) : r = mkRun (result r) (final r) (trace r).
Proof. now destruct r. Qed.

(** Every event of every run of [m] satisfies [P]. *)
Definition always {A} (P : Event -> Prop) (m : M St A) : Prop :=
  forall st, Forall P (trace (m st)).

Lemma always_bind {A B} P (m : M St A) (k : A -> M St B) :
  always P m -> (forall a, always P (k a)) -> always P (bind m k).
Proof.
  intros Hm Hk st. rewrite trace_bind. apply Forall_app. split; auto.
  destruct (result (m st)); auto. apply Hk.
Qed.

Lemma always_ret {A} P (a : A) : always P (@ret St A a).
Proof. intro st. constructor. Qed.

Lemma always_panic {A} P e : always P (@panic St A e).
Proof. intro st. constructor. Qed.

Lemma always_deref {A} P (p : option A) : always P (@deref St A p).
Proof. intro st. destruct p; constructor. Qed.

Lemma always_outOfFuel {A} P : always P (@outOfFuel St A).
Proof. intro st. constructor. Qed.

Lemma always_print P m : P (Print m) -> always P (@print St m).
Proof. intros H st. repeat constructor. exact H. Qed.

Lemma always_enter P f : P (Enter f) -> always P (@enter St f).
Proof. intros H st. repeat constructor. exact H. Qed.

Lemma always_forRange {A S} P (body : Z -> A -> S -> M St S) xs :
  (forall i x s, In x xs -> always P (body i x s)) ->
  forall i s, always P (forRange body i xs s).
Proof.
  induction xs as [|x xs IH]; intros Hb i s; simpl.
  - apply always_ret.
  - apply always_bind.
    + apply Hb. now left.
    + intro s'. apply IH. intros. apply Hb. now right.
Qed.

(** Every run of [m] ends in a state related to the one it starts in. *)
Definition keeps {A} (R : St -> St -> Prop) (m : M St A) : Prop :=
  forall st, R st (final (m st)).

Section Keeps.

Variable R : St -> St -> Prop.
Hypothesis R_refl : forall st, R st st.
Hypothesis R_trans : forall a b c, R a b -> R b c -> R a c.

Lemma keeps_bind {A B} (m : M St A) (k : A -> M St B) :
  keeps R m -> (forall a, keeps R (k a)) -> keeps R (bind m k).
Proof.
  intros Hm Hk st. rewrite final_bind.
  destruct (result (m st)); auto.
  eapply R_trans; [apply Hm | apply Hk].
Qed.

Lemma keeps_ret {A} (a : A) : keeps R (@ret St A a).
Proof. intro st. apply R_refl. Qed.

Lemma keeps_panic {A} e : keeps R (@panic St A e).
Proof. intro st. apply R_refl. Qed.

Lemma keeps_deref {A} (p : option A) : keeps R (@deref St A p).
Proof. intro st. destruct p; apply R_refl. Qed.

Lemma keeps_outOfFuel {A} : keeps R (@outOfFuel St A).
Proof. intro st. apply R_refl. Qed.

Lemma keeps_print m : keeps R (@print St m).
Proof. intro st. apply R_refl. Qed.

Lemma keeps_enter f : keeps R (@enter St f).
Proof. intro st. apply R_refl. Qed.

Lemma keeps_forRange {A S} (body : Z -> A -> S -> M St S) xs :
  (forall i x s, In x xs -> keeps R (body i x s)) ->
  forall i s, keeps R (forRange body i xs s).
Proof.
  induction xs as [|x xs IH]; intros Hb i s; simpl.
  - apply keeps_ret.
  - apply keeps_bind.
    + apply Hb. now left.
    + intro s'. apply IH. intros. apply Hb. now right.
Qed.

End Keeps.

End MonadFacts.

(** ** Calls to the client *)

Section CallFacts.

Context {St : Type} {s : S3 St}.

Lemma always_callListObjects P i :
  (forall o e, P (ListObjectsCall i o e)) -> always P (callListObjects i).
Proof.
  intros H st. unfold callListObjects.
  destruct (ListObjects i st) as [[o e] st']. repeat constructor. apply H.
Qed.

Lemma always_callListMultipartUploads P i :
  (forall o e, P (ListMultipartUploadsCall i o e)) ->
  always P (callListMultipartUploads i).
Proof.
  intros H st. unfold callListMultipartUploads.
  destruct (ListMultipartUploads i st) as [[o e] st'].
  repeat constructor. apply H.
Qed.

Lemma always_callAbortMultipartUpload P i :
  (forall e, P (AbortMultipartUploadCall i e)) ->
  always P (callAbortMultipartUpload i).
Proof.
  intros H st. unfold callAbortMultipartUpload.
  destruct (AbortMultipartUpload i st) as [e st']. repeat constructor. apply H.
Qed.

Lemma always_callListObjectsV2 P i :
  (forall o e, P (ListObjectsV2Call i o e)) -> always P (callListObjectsV2 i).
Proof.
  intros H st. unfold callListObjectsV2.
  destruct (ListObjectsV2 i st) as [[o e] st']. repeat constructor. apply H.
Qed.

Lemma always_callGetObject P i :
  (forall o e, P (GetObjectCall i o e)) -> always P (callGetObject i).
Proof.
  intros H st. unfold callGetObject.
  destruct (GetObject i st) as [[o e] st']. repeat constructor. apply H.
Qed.

Lemma always_callDeleteObject P i :
  (forall e, P (DeleteObjectCall i e)) -> always P (callDeleteObject i).
Proof.
  intros H st. unfold callDeleteObject.
  destruct (DeleteObject i st) as [e st']. repeat constructor. apply H.
Qed.

Lemma always_hoursSinceNow P t : always P (hoursSinceNow t).
Proof.
  intro st. unfold hoursSinceNow. destruct (Now st). constructor.
Qed.

End CallFacts.

(** Splits a goal [always P m] along the structure of [m]. *)
Ltac always_step :=
  match goal with
  | |- always _ (bind _ _) => apply always_bind; [ | intros ]
  | |- always _ (ret _) => apply always_ret
  | |- always _ (panic _) => apply always_panic
  | |- always _ (deref _) => apply always_deref
  | |- always _ outOfFuel => apply always_outOfFuel
  | |- always _ (print _) => apply always_print; try exact I
  | |- always _ (enter _) => apply always_enter; try exact I
  | |- always _ (hoursSinceNow _) => apply always_hoursSinceNow
  | |- always _ (callListObjects _) =>
      apply always_callListObjects; intros; try exact I
  | |- always _ (callListMultipartUploads _) =>
      apply always_callListMultipartUploads; intros; try exact I
  | |- always _ (callAbortMultipartUpload _) =>
      apply always_callAbortMultipartUpload; intros; try exact I
  | |- always _ (callListObjectsV2 _) =>
      apply always_callListObjectsV2; intros; try exact I
  | |- always _ (callGetObject _) =>
      apply always_callGetObject; intros; try exact I
  | |- always _ (callDeleteObject _) =>
      apply always_callDeleteObject; intros; try exact I
  | |- always _ (forRange _ _ _ _) => apply always_forRange; intros
  | |- always _ (match ?x with _ => _ end) => destruct x
  | |- always _ (let '(_, _) := ?x in _) => destruct x
  end.

(** ** Dry run *)

Section DryRun.

Context {St : Type} {s : S3 St}.
Variable opts : Options.
Hypothesis dry : DryRun opts = true.

Lemma cleanUpload_dry bucket i multi total :
  always listingOnly (cleanUpload opts bucket i multi total).
Proof.
  unfold cleanUpload. rewrite dry. simpl. repeat always_step.
Qed.

Lemma cleanMPUsLoop_dry fuel bucket prefix keyMarker total :
  always listingOnly (cleanMPUsLoop opts fuel bucket prefix keyMarker total).
Proof.
  revert keyMarker total.
  induction fuel as [|fuel IH]; intros; simpl; repeat always_step;
    auto using cleanUpload_dry.
Qed.

Lemma cleanMPUs_dry fuel bucket prefix :
  always listingOnly (cleanMPUs opts fuel bucket prefix).
Proof.
  unfold cleanMPUs. repeat always_step. apply cleanMPUsLoop_dry.
Qed.

Lemma mainLoop_dry fuel n prefix marker total :
  always listingOnly (mainLoop opts fuel n prefix marker total).
Proof.
  revert marker total.
  induction n as [|n IH]; intros; simpl; rewrite ?dry; simpl;
    repeat always_step; auto.
  all: unfold cleanPrefix; repeat always_step; apply cleanMPUs_dry.
Qed.

Lemma main_dry fuel : always listingOnly (main opts fuel).
Proof.
  unfold main. repeat always_step. apply mainLoop_dry.
Qed.

End DryRun.

Section CallKeeps.

Context {St : Type} {s : S3 St}.
Variable R : St -> St -> Prop.

Lemma keeps_callListObjects i :
  (forall st, R st (snd (ListObjects i st))) -> keeps R (callListObjects i).
Proof.
  intros H st. unfold callListObjects. specialize (H st).
  destruct (ListObjects i st) as [[o e] st']. exact H.
Qed.

Lemma keeps_callListMultipartUploads i :
  (forall st, R st (snd (ListMultipartUploads i st))) ->
  keeps R (callListMultipartUploads i).
Proof.
  intros H st. unfold callListMultipartUploads. specialize (H st).
  destruct (ListMultipartUploads i st) as [[o e] st']. exact H.
Qed.

Lemma keeps_callAbortMultipartUpload i :
  (forall st, R st (snd (AbortMultipartUpload i st))) ->
  keeps R (callAbortMultipartUpload i).
Proof.
  intros H st. unfold callAbortMultipartUpload. specialize (H st).
  destruct (AbortMultipartUpload i st) as [e st']. exact H.
Qed.

Lemma keeps_callListObjectsV2 i :
  (forall st, R st (snd (ListObjectsV2 i st))) -> keeps R (callListObjectsV2 i).
Proof.
  intros H st. unfold callListObjectsV2. specialize (H st).
  destruct (ListObjectsV2 i st) as [[o e] st']. exact H.
Qed.

Lemma keeps_callGetObject i :
  (forall st, R st (snd (GetObject i st))) -> keeps R (callGetObject i).
Proof.
  intros H st. unfold callGetObject. specialize (H st).
  destruct (GetObject i st) as [[o e] st']. exact H.
Qed.

Lemma keeps_callDeleteObject i :
  (forall st, R st (snd (DeleteObject i st))) -> keeps R (callDeleteObject i).
Proof.
  intros H st. unfold callDeleteObject. specialize (H st).
  destruct (DeleteObject i st) as [e st']. exact H.
Qed.

Lemma keeps_hoursSinceNow t :
  (forall st, R st (snd (Now st))) -> keeps R (hoursSinceNow t).
Proof.
  intros H st. unfold hoursSinceNow. specialize (H st).
  destruct (Now st). exact H.
Qed.

End CallKeeps.

(** Splits a goal [keeps R m] along the structure of [m]; [refl] and
    [trans] prove that [R] is a preorder. *)
Ltac keeps_step refl trans :=
  match goal with
  | |- keeps _ (bind _ _) => apply (keeps_bind _ trans); [ | intros ]
  | |- keeps _ (ret _) => apply (keeps_ret _ refl)
  | |- keeps _ (panic _) => apply (keeps_panic _ refl)
  | |- keeps _ (deref _) => apply (keeps_deref _ refl)
  | |- keeps _ outOfFuel => apply (keeps_outOfFuel _ refl)
  | |- keeps _ (print _) => apply (keeps_print _ refl)
  | |- keeps _ (enter _) => apply (keeps_enter _ refl)
  | |- keeps _ (forRange _ _ _ _) =>
      apply (keeps_forRange _ refl trans); intros
  | |- keeps _ (match ?x with _ => _ end) => destruct x
  | |- keeps _ (let '(_, _) := ?x in _) => destruct x
  end.

(** A store whose listings and whose clock can be read without changing
    anything. *)
Definition readOnlyListings {St} (s : S3 St) : Prop :=
  (forall i st, snd (ListObjects i st) = st) /\
  (forall i st, snd (ListMultipartUploads i st) = st) /\
  (forall st, snd (Now st) = st).

Section DryRunStore.

Context {St : Type} {s : S3 St}.
Variable opts : Options.
Hypothesis dry : DryRun opts = true.
Hypothesis reads : readOnlyListings s.

Let eq_refl' : forall st : St, st = st := @eq_refl St.
Let eq_trans' : forall a b c : St, a = b -> b = c -> a = c := @eq_trans St.

Lemma cleanUpload_dry_keeps bucket i multi total :
  keeps eq (cleanUpload opts bucket i multi total).
Proof.
  destruct reads as (_ & _ & Hnow).
  unfold cleanUpload. rewrite dry. simpl.
  repeat first [ keeps_step eq_refl' eq_trans'
               | apply keeps_hoursSinceNow; intro; symmetry; apply Hnow ].
Qed.

Lemma cleanMPUsLoop_dry_keeps fuel bucket prefix keyMarker total :
  keeps eq (cleanMPUsLoop opts fuel bucket prefix keyMarker total).
Proof.
  destruct reads as (_ & Hmpu & _).
  revert keyMarker total.
  induction fuel as [|fuel IH]; intros; simpl;
    repeat first [ keeps_step eq_refl' eq_trans'
                 | apply keeps_callListMultipartUploads; intro; symmetry;
                   apply Hmpu
                 | apply cleanUpload_dry_keeps
                 | apply IH ].
Qed.

Lemma mainLoop_dry_keeps fuel n prefix marker total :
  keeps eq (mainLoop opts fuel n prefix marker total).
Proof.
  destruct reads as (Hlist & _ & _).
  revert marker total.
  induction n as [|n IH]; intros; simpl; rewrite ?dry; simpl;
    unfold cleanPrefix, cleanMPUs;
    repeat first [ keeps_step eq_refl' eq_trans'
                 | apply keeps_callListObjects; intro; symmetry; apply Hlist
                 | apply cleanMPUsLoop_dry_keeps
                 | apply IH ].
Qed.

Lemma main_dry_keeps fuel : keeps eq (main opts fuel).
Proof.
  unfold main.
  repeat first [ keeps_step eq_refl' eq_trans' | apply mainLoop_dry_keeps ].
Qed.

End DryRunStore.

Lemma Store_readOnlyListings : readOnlyListings StoreS3.
Proof. repeat split. Qed.

Definition withDryRun (b : bool) (o : Options) : Options :=
  {| Endpoint := Endpoint o; Region := Region o; Bucket := Bucket o;
     AccessKey := AccessKey o; SecretKey := SecretKey o;
     RootDirectory := RootDirectory o; CleanupHours := CleanupHours o;
     DryRun := b |}.

Lemma abort_clock i st :
  Store.clock (snd (Store.abortMultipartUpload i st)) = Store.clock st.
Proof.
  unfold Store.abortMultipartUpload.
  destruct (AbortMultipartUploadInput.Key i); [|reflexivity].
  destruct (AbortMultipartUploadInput.UploadId i); [|reflexivity].
  destruct (Store.mem _ _); [reflexivity|].
  destruct (existsb _ _); reflexivity.
Qed.

Lemma cleanUpload_same_selection o bucket i multi total (st st' : Store.t) :
  Store.clock st = Store.clock st' ->
  let d := cleanUpload (withDryRun true o) bucket i multi total st in
  let l := cleanUpload (withDryRun false o) bucket i multi total st' in
  selectedUploads (trace d) = selectedUploads (trace l) /\
  result d = result l /\
  Store.clock (final d) = Store.clock (final l).
Proof.
  intros Hc. unfold cleanUpload.
  destruct multi as [[key|] [id|] [t|]]; cbn; rewrite <- ?Hc; auto.
  - destruct (CleanupHours o <=? _); cbn; auto.
    pose proof (abort_clock
      {| AbortMultipartUploadInput.Bucket := Some bucket;
         AbortMultipartUploadInput.Key := Some key;
         AbortMultipartUploadInput.UploadId := Some id |} st') as Ha.
    unfold bind, callAbortMultipartUpload, AbortMultipartUpload, StoreS3.
    destruct (Store.abortMultipartUpload _ st') as [[e|] st''];
      cbn in *; rewrite Ha; auto.
  - destruct (CleanupHours o <=? _); cbn; auto.
Qed.

Lemma selectedUploads_app tr tr' :
  selectedUploads (tr ++ tr') = selectedUploads tr ++ selectedUploads tr'.
Proof. apply flat_map_app. Qed.

Lemma page_same_selection o bucket ups :
  forall i total (st st' : Store.t),
  Store.clock st = Store.clock st' ->
  let d := forRange (cleanUpload (withDryRun true o) bucket) i ups total st in
  let l := forRange (cleanUpload (withDryRun false o) bucket) i ups total st' in
  selectedUploads (trace d) = selectedUploads (trace l) /\
  result d = result l /\
  Store.clock (final d) = Store.clock (final l).
Proof.
  induction ups as [|u ups IH]; intros i total st st' Hc; simpl.
  - auto.
  - destruct (cleanUpload_same_selection o bucket i u total st st' Hc)
      as (Hs & Hr & Hf).
    rewrite !trace_bind, !result_bind, !final_bind, !selectedUploads_app.
    rewrite <- Hr, Hs.
    destruct (result (cleanUpload (withDryRun true o) bucket i u total st))
      as [total'| |]; auto.
    destruct (IH (i + 1) total' _ _ Hf) as (Hs' & Hr' & Hf').
    rewrite Hs'. auto.
Qed.

Lemma listingOnly_no_marker tr :
  Forall listingOnly tr -> selectedMarkers tr = [].
Proof.
  induction 1 as [|e tr He _ IH]; [reflexivity|].
  simpl. rewrite IH.
  destruct e as [m| | | | | | |]; try reflexivity.
  destruct m; try reflexivity; destruct He.
Qed.

(** C1, as the code has it.  A dry run makes no call but the two listings
    of the driver and of [cleanMPUs]: no abort, no delete, and no read of
    an upload folder either, because [main] skips [cleanUploadFolders]
    altogether in a dry run; so a dry run selects no marker.  Against the
    store it leaves the state as it found it.  On every page of uploads,
    [cleanMPUs] selects the same uploads, with the same outcome, whether
    the run is dry or live. *)
Theorem dry_run_reads_only_and_selects_same_uploads :
  (forall St (s : S3 St) (o : Options) (fuel : nat) (st : St),
      Forall listingOnly (trace (main (withDryRun true o) fuel st)) /\
      selectedMarkers (trace (main (withDryRun true o) fuel st)) = []) /\
  (forall (o : Options) (fuel : nat) (st : Store.t),
      final (main (withDryRun true o) fuel st) = st) /\
  (forall (o : Options) (bucket : string) (ups : list MultipartUpload.t)
          (i total : Z) (st : Store.t),
      selectedUploads
        (trace (forRange (cleanUpload (withDryRun true o) bucket) i ups total st)) =
      selectedUploads
        (trace (forRange (cleanUpload (withDryRun false o) bucket) i ups total st)) /\
      result (forRange (cleanUpload (withDryRun true o) bucket) i ups total st) =
      result (forRange (cleanUpload (withDryRun false o) bucket) i ups total st)).
Proof.
  split; [|split].
  - intros. assert (H : Forall listingOnly (trace (main (withDryRun true o) fuel st)))
      by (apply main_dry; reflexivity).
    split; [exact H | apply listingOnly_no_marker, H].
  - intros. symmetry.
    apply (main_dry_keeps (withDryRun true o) eq_refl Store_readOnlyListings).
  - intros.
    destruct (page_same_selection o bucket ups i total st st eq_refl)
      as (Hs & Hr & _).
    auto.
Qed.

(** C1 fails as stated: with a threshold of 3 hours, a live run over the
    example store selects the ten-hour-old marker of [abc123], a dry run
    over the same store selects none. *)
Lemma dry_run_selects_no_marker :
  selectedMarkers (trace (main (exampleOpts 3 false) 5 exampleStore)) =
    [(repos ++ "repoA/_uploads/abc123/startedat")%string] /\
  selectedMarkers (trace (main (exampleOpts 3 true) 5 exampleStore)) = [] /\
  result (main (exampleOpts 3 true) 5 exampleStore) = Done tt /\
  result (main (exampleOpts 3 false) 5 exampleStore) = Done tt.
Proof. vm_compute. repeat split. Qed.

(** ** Properties of a run that compose along [bind] *)

Definition Outcome := Res unit.

Definition outcome {A} (r : Res A) : Outcome :=
  match r with
  | Done _ => Done tt
  | Panic c => Panic c
  | OutOfFuel => OutOfFuel
  end.

(** [I] relates the trace of a run to how the run ends.  It composes when
    it holds of the empty run and of a run followed by another. *)
Definition sequential (I : list Event -> Outcome -> Prop) : Prop :=
  I [] (Done tt) /\
  forall t1 t2 o, I t1 (Done tt) -> I t2 o -> I (t1 ++ t2) o.

Definition ensures {St A} (I : list Event -> Outcome -> Prop) (m : M St A)
  : Prop :=
  forall st, I (trace (m st)) (outcome (result (m st))).

Section Ensures.

Context {St : Type}.
Variable I : list Event -> Outcome -> Prop.
Hypothesis I_seq : sequential I.

Lemma ensures_bind {A B} (m : M St A) (k : A -> M St B) :
  ensures I m -> (forall a, ensures I (k a)) -> ensures I (bind m k).
Proof.
  intros Hm Hk st. rewrite trace_bind, result_bind.
  specialize (Hm st).
  destruct (result (m st)) as [a| |]; simpl in *.
  - apply I_seq; [exact Hm | apply Hk].
  - now rewrite app_nil_r.
  - now rewrite app_nil_r.
Qed.

Lemma ensures_ret {A} (a : A) : ensures I (@ret St A a).
Proof. intro st. apply I_seq. Qed.

Lemma ensures_forRange {A S} (body : Z -> A -> S -> M St S) xs :
  (forall i x s, In x xs -> ensures I (body i x s)) ->
  forall i s, ensures I (forRange body i xs s).
Proof.
  induction xs as [|x xs IH]; intros Hb i s; simpl.
  - apply ensures_ret.
  - apply ensures_bind.
    + apply Hb. now left.
    + intro s'. apply IH. intros. apply Hb. now right.
Qed.

(** A run whose events all satisfy [P] ensures [I] when [I] holds of
    every trace of such events, however the run ends. *)
Lemma always_ensures {A} (P : Event -> Prop) (m : M St A) :
  (forall tr o, Forall P tr -> I tr o) -> always P m -> ensures I m.
Proof. intros H Hm st. apply H, Hm. Qed.

End Ensures.

(** ** Events that end the run *)

(** The answers of the store after which [main.go] panics at once: a
    failed listing of the driver, of [cleanMPUs] or of
    [removeUploadFolder], a failed delete, a listing without the fields
    that are dereferenced right after it, a marker that does not parse. *)
Definition fatal (ev : Event) : option Cause :=
  match ev with
  | ListObjectsCall _ o err =>
      match err with
      | Some e => Some (PanicErr e)
      | None =>
          match ListObjectsOutput.IsTruncated o with
          | None => Some NilDereference
          | Some _ => None
          end
      end
  | ListMultipartUploadsCall _ o err =>
      match err with
      | Some e => Some (PanicErr e)
      | None =>
          match ListMultipartUploadsOutput.IsTruncated o,
                ListMultipartUploadsOutput.NextKeyMarker o with
          | Some _, Some _ => None
          | _, _ => Some NilDereference
          end
      end
  | ListObjectsV2Call i _ err =>
      match err with
      | Some e => if isScan i then None else Some (PanicErr e)
      | None => None
      end
  | GetObjectCall _ obj err =>
      match err with
      | Some _ => None
      | None =>
          match snd (parseTimeFromStream (GetObjectOutput.Body obj)) with
          | Some e => Some (PanicErr e)
          | None => None
          end
      end
  | DeleteObjectCall _ err =>
      match err with
      | Some e => Some (PanicErr e)
      | None => None
      end
  | _ => None
  end.

(** The first event of a trace on which [f] answers, with the cause and
    the events after it. *)
Fixpoint firstOf (f : Event -> option Cause) (tr : list Event)
  : option (Cause * list Event) :=
  match tr with
  | [] => None
  | ev :: tr' =>
      match f ev with
      | Some c => Some (c, tr')
      | None => firstOf f tr'
      end
  end.

(** The run ends, panicking with the cause, at the first event on which
    [f] answers. *)
Definition stopsAt (f : Event -> option Cause) (tr : list Event) (o : Outcome)
  : Prop :=
  match firstOf f tr with
  | None => True
  | Some (c, rest) => rest = [] /\ o = Panic c
  end.

Lemma firstOf_app_none f t1 t2 :
  firstOf f t1 = None -> firstOf f (t1 ++ t2) = firstOf f t2.
Proof.
  induction t1 as [|ev t1 IH]; simpl; [reflexivity|].
  destruct (f ev); [discriminate | exact IH].
Qed.

Lemma stopsAt_sequential f : sequential (stopsAt f).
Proof.
  split; [exact I|].
  intros t1 t2 o H1 H2. unfold stopsAt in *.
  destruct (firstOf f t1) as [[c rest]|] eqn:E.
  - destruct H1 as [_ H1]. discriminate.
  - now rewrite (firstOf_app_none _ _ _ E).
Qed.

Lemma stopsAt_cons f ev tr o :
  f ev = None -> stopsAt f tr o -> stopsAt f (ev :: tr) o.
Proof. unfold stopsAt. simpl. now intros ->. Qed.

Lemma stopsAt_last f ev c :
  f ev = Some c -> stopsAt f [ev] (Panic c).
Proof. unfold stopsAt. simpl. now intros ->. Qed.

Lemma stopsAt_none f tr o :
  Forall (fun ev => f ev = None) tr -> stopsAt f tr o.
Proof.
  unfold stopsAt. induction 1 as [|ev tr He _ IH]; simpl; [exact I|].
  now rewrite He.
Qed.

(** Read along a trace: an event on which [f] answers is the last one,
    and the run panics with its cause. *)
Lemma stopsAt_split f tr o tr1 ev tr2 c :
  stopsAt f tr o -> tr = tr1 ++ ev :: tr2 -> f ev = Some c ->
  tr2 = [] /\ o = Panic c.
Proof.
  intros H -> Hev. revert H. unfold stopsAt.
  induction tr1 as [|a tr1 IH]; simpl.
  - now rewrite Hev.
  - destruct (f a) as [c'|]; [|exact IH].
    intros [H _]. now destruct tr1.
Qed.

(** The same for a function that answers on fewer events. *)
Lemma stopsAt_weaken f g tr o :
  (forall ev c, g ev = Some c -> f ev = Some c) ->
  stopsAt f tr o -> stopsAt g tr o.
Proof.
  intros Hgf H. unfold stopsAt.
  destruct (firstOf g tr) as [[c rest]|] eqn:E; [|exact I].
  assert (exists tr1 ev, tr = tr1 ++ ev :: rest /\ g ev = Some c)
    as (tr1 & ev & Htr & Hev).
  { clear H. revert E. induction tr as [|a tr IH]; simpl; [discriminate|].
    destruct (g a) as [c'|] eqn:Ea.
    - intros [= <- <-]. now exists [], a.
    - intros E. destruct (IH E) as (tr1 & ev & -> & Hev).
      now exists (a :: tr1), ev. }
  eapply stopsAt_split; eauto.
Qed.

Section Stops.

Context {St : Type} {s : S3 St}.
Variable opts : Options.

Abbreviation stops := (ensures (stopsAt fatal)).

Lemma stops_bind {A B} (m : M St A) (k : A -> M St B) :
  stops m -> (forall a, stops (k a)) -> stops (bind m k).
Proof. apply ensures_bind, stopsAt_sequential. Qed.

Lemma stops_quiet {A} (m : M St A) :
  always (fun ev => fatal ev = None) m -> stops m.
Proof. apply always_ensures. intros. now apply stopsAt_none. Qed.

(** A call: one event, after which the run goes on, unless the event is
    fatal and the continuation panics at once. *)
Lemma stops_call {A B} (m : M St A) (k : A -> M St B) :
  (forall st, exists ev a,
      trace (m st) = [ev] /\ result (m st) = Done a /\
      match fatal ev with
      | None => stops (k a)
      | Some c => forall st', trace (k a st') = [] /\ result (k a st') = Panic c
      end) ->
  stops (bind m k).
Proof.
  intros H st. rewrite trace_bind, result_bind.
  destruct (H st) as (ev & a & -> & -> & Hk). simpl.
  destruct (fatal ev) as [c|] eqn:E.
  - destruct (Hk (final (m st))) as [-> ->]. now apply stopsAt_last.
  - apply stopsAt_cons; [exact E | apply Hk].
Qed.

End Stops.

Ltac stops_call_tac :=
  apply stops_call; intro;
  match goal with
  | |- context [callListObjects ?i ?st] =>
      unfold callListObjects; destruct (ListObjects i st) as [[? ?] ?]
  | |- context [callListMultipartUploads ?i ?st] =>
      unfold callListMultipartUploads;
      destruct (ListMultipartUploads i st) as [[? ?] ?]
  | |- context [callAbortMultipartUpload ?i ?st] =>
      unfold callAbortMultipartUpload;
      destruct (AbortMultipartUpload i st) as [? ?]
  | |- context [callListObjectsV2 ?i ?st] =>
      unfold callListObjectsV2; destruct (ListObjectsV2 i st) as [[? ?] ?]
  | |- context [callGetObject ?i ?st] =>
      unfold callGetObject; destruct (GetObject i st) as [[? ?] ?]
  | |- context [callDeleteObject ?i ?st] =>
      unfold callDeleteObject; destruct (DeleteObject i st) as [? ?]
  end;
  do 2 eexists; split; [reflexivity|]; split; [reflexivity|]; simpl.

Ltac stops_step :=
  match goal with
  | |- ensures _ (bind (callListObjects _) _) => stops_call_tac
  | |- ensures _ (bind (callListMultipartUploads _) _) => stops_call_tac
  | |- ensures _ (bind (callAbortMultipartUpload _) _) => stops_call_tac
  | |- ensures _ (bind (callListObjectsV2 _) _) => stops_call_tac
  | |- ensures _ (bind (callGetObject _) _) => stops_call_tac
  | |- ensures _ (bind (callDeleteObject _) _) => stops_call_tac
  | |- ensures _ (bind _ _) => apply stops_bind; [ | intros ]
  | |- ensures _ (forRange _ _ _ _) =>
      apply (ensures_forRange _ (stopsAt_sequential _)); intros
  | |- ensures _ (ret _) => apply stops_quiet, always_ret
  | |- ensures _ (panic _) => apply stops_quiet, always_panic
  | |- ensures _ (deref _) => apply stops_quiet, always_deref
  | |- ensures _ outOfFuel => apply stops_quiet, always_outOfFuel
  | |- ensures _ (print _) => apply stops_quiet, always_print; reflexivity
  | |- ensures _ (enter _) => apply stops_quiet, always_enter; reflexivity
  | |- ensures _ (hoursSinceNow _) => apply stops_quiet, always_hoursSinceNow
  | |- ensures _ (match ?x with _ => _ end) => destruct x eqn:?
  | |- ensures _ (let '(_, _) := ?x in _) => destruct x eqn:?
  | |- match match ?x with _ => _ end with _ => _ end => destruct x eqn:?
  | |- match (if ?x then _ else _) with _ => _ end => destruct x eqn:?
  | |- forall _, _ = [] /\ _ = Panic _ => intro; split; reflexivity
  end.

Section StopsProgram.

Context {St : Type} {s : S3 St}.
Variable opts : Options.

Abbreviation stops := (ensures (stopsAt fatal)).

Lemma hoursSinceUploadStarted_stops bucket key :
  stops (hoursSinceUploadStarted bucket key).
Proof.
  unfold hoursSinceUploadStarted. repeat stops_step.
  all: simpl in *; try congruence.
  all: destruct (parseTimeFromStream _) as [t0 [e0|]]; simpl in *;
    try discriminate.
  intro. split; congruence.
Qed.

Lemma removeUploadFolder_stops bucket prefix :
  stops (removeUploadFolder bucket prefix).
Proof.
  unfold removeUploadFolder, removeObject. repeat stops_step.
Qed.

Lemma cleanObject_stops bucket i o u :
  stops (cleanObject opts bucket i o u).
Proof.
  unfold cleanObject. repeat stops_step.
  all: auto using hoursSinceUploadStarted_stops, removeUploadFolder_stops.
Qed.

Lemma cleanUploadFoldersLoop_stops fuel bucket prefix token :
  stops (cleanUploadFoldersLoop opts fuel bucket prefix token).
Proof.
  revert token. induction fuel as [|fuel IH]; intros; simpl;
    repeat stops_step; auto using cleanObject_stops.
Qed.

Lemma cleanUploadFolders_stops fuel bucket prefix :
  stops (cleanUploadFolders opts fuel bucket prefix).
Proof.
  unfold cleanUploadFolders. repeat stops_step.
  apply cleanUploadFoldersLoop_stops.
Qed.

Lemma cleanUpload_stops bucket i multi total :
  stops (cleanUpload opts bucket i multi total).
Proof.
  unfold cleanUpload. repeat stops_step.
Qed.

Lemma cleanMPUsLoop_stops fuel bucket prefix keyMarker total :
  stops (cleanMPUsLoop opts fuel bucket prefix keyMarker total).
Proof.
  revert keyMarker total. induction fuel as [|fuel IH]; intros; simpl;
    repeat stops_step; auto using cleanUpload_stops.
Qed.

Lemma cleanMPUs_stops fuel bucket prefix :
  stops (cleanMPUs opts fuel bucket prefix).
Proof.
  unfold cleanMPUs. repeat stops_step. apply cleanMPUsLoop_stops.
Qed.

Lemma mainLoop_stops fuel n prefix marker total :
  stops (mainLoop opts fuel n prefix marker total).
Proof.
  revert marker total. induction n as [|n IH]; intros; simpl;
    repeat stops_step; auto using cleanUploadFolders_stops.
  all: unfold cleanPrefix; repeat stops_step; apply cleanMPUs_stops.
Qed.

Lemma main_stops fuel : stops (main opts fuel).
Proof.
  unfold main. repeat stops_step. apply mainLoop_stops.
Qed.

End StopsProgram.

(** ** A marker that does not parse (C3) *)

(** Two upload folders: the marker of the first is not a timestamp, the
    marker of the second is ten hours old. *)
Definition garbledStore : Store.t :=
  {| Store.objects :=
       [ ((repos ++ "repoA/_uploads/a1/startedat")%string, "yesterday");
         ((repos ++ "repoA/_uploads/b2/startedat")%string, "2024-01-01T00:00:00Z") ];
     Store.uploads := [];
     Store.clock := exampleNow;
     Store.pageSize := 1000;
     Store.abortDenied := [];
     Store.lastKeyMarker := true |}.

(** The keys a run reads with [GetObject]. *)
Definition fetched (tr : list Event) : list (option string) :=
  flat_map (fun e => match e with
                     | GetObjectCall i _ _ => [GetObjectInput.Key i]
                     | _ => []
                     end) tr.

(** The keys a run asks the store to delete. *)
Definition deleted (tr : list Event) : list (option string) :=
  flat_map (fun e => match e with
                     | DeleteObjectCall i _ => [DeleteObjectInput.Key i]
                     | _ => []
                     end) tr.

(** C3, as the code has it.  When the bytes of a marker are fetched and do
    not parse, [hoursSinceUploadStarted] panics with the parse error: the
    fetch is the last thing the Upload-Folder Reaper does.  Nothing is
    logged, nothing is deleted and no later candidate is scanned. *)
Theorem marker_parse_failure_panics :
  forall St (s : S3 St) (opts : Options) (fuel : nat) (bucket prefix : string)
         (st : St) tr1 i obj tr2 e,
    trace (cleanUploadFolders opts fuel bucket prefix st) =
      tr1 ++ GetObjectCall i obj None :: tr2 ->
    snd (parseTimeFromStream (GetObjectOutput.Body obj)) = Some e ->
    tr2 = [] /\
    result (cleanUploadFolders opts fuel bucket prefix st) = Panic (PanicErr e).
Proof.
  intros St s opts fuel bucket prefix st tr1 i obj tr2 e Htr Hparse.
  pose proof (cleanUploadFolders_stops opts fuel bucket prefix st) as H.
  destruct (stopsAt_split _ _ _ tr1 (GetObjectCall i obj None) tr2 (PanicErr e) H Htr)
    as [H2 Ho].
  - simpl. now rewrite Hparse.
  - split; [exact H2|].
    destruct (result (cleanUploadFolders opts fuel bucket prefix st));
      simpl in Ho; congruence.
Qed.

Lemma marker_parse_failure_panics_witness :
  result (cleanUploadFolders (exampleOpts 3 false) 5 "registry" repos garbledStore)
  = Panic (PanicErr time.errBad).
Proof.
  pose (tr := trace (cleanUploadFolders (exampleOpts 3 false) 5 "registry"
                       repos garbledStore)).
  eapply (marker_parse_failure_panics _ _ _ _ _ _ _ (firstn 3 tr) _ _ (skipn 4 tr)).
  - vm_compute. reflexivity.
  - vm_compute. reflexivity.
Defined.

(** C3 fails as stated: the run over [garbledStore] does not log the
    parse failure of the first marker and go on to the second; it panics,
    having printed nothing and fetched the first marker only. *)
Lemma marker_parse_failure_is_not_skipped :
  let r := cleanUploadFolders (exampleOpts 3 false) 5 "registry" repos
             garbledStore in
  result r = Panic (PanicErr time.errBad) /\
  printed (trace r) = [] /\
  fetched (trace r) = [Some (repos ++ "repoA/_uploads/a1/startedat")%string] /\
  Store.lookup garbledStore (repos ++ "repoA/_uploads/a1/startedat") = Some "yesterday" /\
  snd (parseTimeFromStream {| data := "yesterday"; readErr := None |}) = Some time.errBad.
Proof. vm_compute. repeat split. Qed.

(** ** The counter of [cleanMPUs] (C2) *)

(** The example store, refusing to abort upload [u1]. *)
Definition deniedStore : Store.t :=
  {| Store.objects := Store.objects exampleStore;
     Store.uploads := Store.uploads exampleStore;
     Store.clock := exampleNow;
     Store.pageSize := 1000;
     Store.abortDenied := ["u1"];
     Store.lastKeyMarker := true |}.

(** The abort calls of a run, each with the store's answer. *)
Definition aborts (tr : list Event) : list (option string * option error) :=
  flat_map (fun e => match e with
                     | AbortMultipartUploadCall i err =>
                         [(AbortMultipartUploadInput.UploadId i, err)]
                     | _ => []
                     end) tr.

Section Counter.

Context {St : Type} {s : S3 St}.
Variable opts : Options.

(** Line 142 stands after the [if !opts.DryRun] block, not in its
    success branch: in a live run an upload old enough is counted whatever
    the abort call answers. *)
Lemma cleanUpload_counts_whatever_abort_answers
  bucket i key id t total st now st1 err st2 :
  DryRun opts = false ->
  Now st = (now, st1) ->
  CleanupHours opts <= time.hoursSince now t ->
  AbortMultipartUpload
    {| AbortMultipartUploadInput.Bucket := Some bucket;
       AbortMultipartUploadInput.Key := Some key;
       AbortMultipartUploadInput.UploadId := Some id |} st1 = (err, st2) ->
  let multi := {| MultipartUpload.Key := Some key;
                  MultipartUpload.UploadId := Some id;
                  MultipartUpload.Initiated := Some t |} in
  result (cleanUpload opts bucket i multi total st) = Done (total + 1) /\
  final (cleanUpload opts bucket i multi total st) = st2 /\
  aborts (trace (cleanUpload opts bucket i multi total st)) = [(Some id, err)].
Proof.
  intros Hlive Hnow Hold Habort. unfold cleanUpload. cbn.
  unfold hoursSinceNow, bind. rewrite Hnow. cbn.
  apply Z.leb_le in Hold. rewrite Hold, Hlive. cbn.
  unfold callAbortMultipartUpload. rewrite Habort.
  destruct err; cbn; auto.
Qed.

End Counter.

(** C2 on the code: the store refuses the abort of the one upload that is
    old enough; [cleanMPUs] prints the error, leaves the upload where it
    is, and still counts it as removed. *)
Lemma cleanMPUs_counts_failed_abort :
  let r := cleanMPUs (exampleOpts 3 false) 5 "registry"
             (repos ++ "repoA/")%string deniedStore in
  result r = Done 1 /\
  aborts (trace r) = [(Some "u1", Some "AccessDenied")] /\
  In (ErrorLine "AccessDenied") (printed (trace r)) /\
  ~ In RemovedBang (printed (trace r)) /\
  Store.uploads (final r) = Store.uploads deniedStore.
Proof.
  cbv zeta. repeat apply conj; try (vm_compute; reflexivity).
  - vm_compute. tauto.
  - vm_compute. intuition discriminate.
Qed.

(** ** The threshold (C5) *)

(** The test of [cleanUploadFolders], line 167. *)
Definition isMarker (key : string) : bool :=
  strings.Contains key "/_uploads/" && strings.HasSuffix key "/startedat".

Section Threshold.

Context {St : Type} {s : S3 St}.
Variable opts : Options.

Lemma cleanUpload_threshold bucket i key id t total st now st1 :
  Now st = (now, st1) ->
  let multi := {| MultipartUpload.Key := Some key;
                  MultipartUpload.UploadId := Some id;
                  MultipartUpload.Initiated := Some t |} in
  let h := time.hoursSince now t in
  let r := cleanUpload opts bucket i multi total st in
  (CleanupHours opts <= h ->
     selectedUploads (trace r) = [(key, id)] /\ result r = Done (total + 1) /\
     (DryRun opts = false -> aborts (trace r) <> [])) /\
  (h < CleanupHours opts ->
     selectedUploads (trace r) = [] /\ result r = Done total /\
     aborts (trace r) = []).
Proof.
  intros Hnow. cbv zeta. unfold cleanUpload. cbn.
  unfold hoursSinceNow, bind. rewrite Hnow. cbn.
  destruct (CleanupHours opts <=? time.hoursSince now t) eqn:E; cbn.
  - apply Z.leb_le in E. split; [|lia]. intros _.
    destruct (DryRun opts); cbn.
    + repeat split. discriminate.
    + unfold callAbortMultipartUpload.
      destruct (AbortMultipartUpload _ st1) as [[e|] st2]; cbn;
        repeat split; discriminate.
  - apply Z.leb_gt in E. split; [lia|]. auto.
Qed.

(** What [removeUploadFolder] does: it lists, deletes and prints what it
    deleted. *)
Definition removal (e : Event) : Prop :=
  match e with
  | Enter (InRemoveUploadFolder _ _) | ListObjectsV2Call _ _ _
  | DeleteObjectCall _ _ | Print (RemovingObject _) => True
  | _ => False
  end.

Lemma removeUploadFolder_removal bucket prefix :
  always removal (removeUploadFolder bucket prefix).
Proof.
  unfold removeUploadFolder, removeObject. repeat always_step.
Qed.

Lemma removal_selects_nothing tr :
  Forall removal tr ->
  selectedMarkers tr = [] /\ fetched tr = [] /\
  forall key h, ~ In (SkippingFolder key h) (printed tr).
Proof.
  induction 1 as [|e tr He _ (IH1 & IH2 & IH3)]; [now repeat split|].
  destruct e as [m|f| | | | | |]; try destruct m; try destruct f;
    try destruct He; simpl; repeat split; auto.
  intros key0 h [H|H]; [discriminate | now apply IH3 in H].
Qed.

(** One candidate marker whose bytes are fetched and parse. *)
Lemma cleanObject_run bucket i key obj t st st1 now st2 :
  isMarker key = true ->
  GetObject {| GetObjectInput.Bucket := Some bucket;
               GetObjectInput.Key := Some key |} st = (obj, None, st1) ->
  parseTimeFromStream (GetObjectOutput.Body obj) = (t, None) ->
  Now st1 = (now, st2) ->
  let h := time.hoursSince now t in
  let get := GetObjectCall {| GetObjectInput.Bucket := Some bucket;
                              GetObjectInput.Key := Some key |} obj None in
  cleanObject opts bucket i {| Object.Key := Some key |} tt st =
  if CleanupHours opts <=? h then
    if DryRun opts then
      mkRun (Done tt) st2
        [Enter (InHoursSinceUploadStarted bucket key); get;
         Print (RemovingFolder key h)]
    else
      let r := removeUploadFolder bucket key st2 in
      mkRun (result r) (final r)
        ([Enter (InHoursSinceUploadStarted bucket key); get;
          Print (RemovingFolder key h)] ++ trace r)
  else
    mkRun (Done tt) st2
      [Enter (InHoursSinceUploadStarted bucket key); get;
       Print (SkippingFolder key h)].
Proof.
  intros Hm Hget Hparse Hnow. cbv zeta.
  assert (H1 : hoursSinceUploadStarted bucket key st =
               mkRun (Done (time.hoursSince now t, None)) st2
                 [Enter (InHoursSinceUploadStarted bucket key);
                  GetObjectCall {| GetObjectInput.Bucket := Some bucket;
                                   GetObjectInput.Key := Some key |} obj None]).
  { unfold hoursSinceUploadStarted.
    rewrite (bind_Done _ _ st tt st [Enter (InHoursSinceUploadStarted bucket key)])
      by reflexivity.
    erewrite (bind_Done (callGetObject _) _ st (obj, None) st1)
      by (unfold callGetObject; rewrite Hget; reflexivity).
    cbn [result final trace]. rewrite Hparse.
    erewrite (bind_Done (hoursSinceNow t) _ st1 _ st2 [])
      by (unfold hoursSinceNow; rewrite Hnow; reflexivity).
    reflexivity. }
  unfold cleanObject.
  rewrite (bind_Done _ _ st key st []) by reflexivity.
  fold (isMarker key). rewrite Hm.
  rewrite (bind_Done _ _ st _ _ _ H1).
  cbn [result final trace app].
  destruct (CleanupHours opts <=? time.hoursSince now t);
    [destruct (DryRun opts)|]; reflexivity.
Qed.

End Threshold.

Lemma selectedMarkers_app tr tr' :
  selectedMarkers (tr ++ tr') = selectedMarkers tr ++ selectedMarkers tr'.
Proof. apply flat_map_app. Qed.

Lemma printed_app tr tr' : printed (tr ++ tr') = printed tr ++ printed tr'.
Proof. apply flat_map_app. Qed.

Lemma entered_app tr tr' : entered (tr ++ tr') = entered tr ++ entered tr'.
Proof. apply flat_map_app. Qed.

Lemma removeUploadFolder_entered {St} {s : S3 St} bucket key (st : St) :
  In (InRemoveUploadFolder bucket key)
     (entered (trace (removeUploadFolder bucket key st))).
Proof.
  unfold removeUploadFolder. rewrite trace_bind. simpl. now left.
Qed.

(** C5, as the code has it.  The age [h] of an upload, or of a marker
    whose bytes are fetched and parse, is the number the code computes,
    [int(time.Since(t).Hours())]: the float64 sum of the whole hours and
    of the fraction of an hour that have elapsed, without its fraction.
    The item is selected for removal exactly when [h >= threshold]: the
    run prints the line that announces the removal, [cleanMPUs] counts the
    upload, and a live run goes on to the abort call or into
    [removeUploadFolder].  An item with [h] equal to the threshold is
    selected. *)
Theorem selected_iff_age_reaches_threshold :
  forall St (s : S3 St) (opts : Options),
  (forall bucket i key id t total (st : St),
     let multi := {| MultipartUpload.Key := Some key;
                     MultipartUpload.UploadId := Some id;
                     MultipartUpload.Initiated := Some t |} in
     let h := time.hoursSince (fst (Now st)) t in
     let r := cleanUpload opts bucket i multi total st in
     (selectedUploads (trace r) = [(key, id)] <-> CleanupHours opts <= h) /\
     (selectedUploads (trace r) = [] <-> h < CleanupHours opts) /\
     (result r = Done (total + 1) <-> CleanupHours opts <= h) /\
     (result r = Done total <-> h < CleanupHours opts) /\
     (DryRun opts = false ->
        (aborts (trace r) <> [] <-> CleanupHours opts <= h))) /\
  (forall bucket i key obj t (st st1 : St),
     isMarker key = true ->
     GetObject {| GetObjectInput.Bucket := Some bucket;
                  GetObjectInput.Key := Some key |} st = (obj, None, st1) ->
     parseTimeFromStream (GetObjectOutput.Body obj) = (t, None) ->
     let h := time.hoursSince (fst (Now st1)) t in
     let r := cleanObject opts bucket i {| Object.Key := Some key |} tt st in
     (selectedMarkers (trace r) = [key] <-> CleanupHours opts <= h) /\
     (selectedMarkers (trace r) = [] <-> h < CleanupHours opts) /\
     (In (SkippingFolder key h) (printed (trace r)) <-> h < CleanupHours opts) /\
     (DryRun opts = false ->
        (In (InRemoveUploadFolder bucket key) (entered (trace r))
         <-> CleanupHours opts <= h))).
Proof.
  intros St s opts. split.
  - intros bucket i key id t total st. cbv zeta.
    destruct (Now st) as [now st1] eqn:Hnow. cbn [fst].
    destruct (cleanUpload_threshold opts bucket i key id t total st now st1 Hnow)
      as [Hold Hyoung].
    destruct (Z_le_gt_dec (CleanupHours opts) (time.hoursSince now t)) as [H|H].
    + destruct (Hold H) as (-> & -> & Ha).
      repeat split; intros; auto; try lia; try discriminate.
      injection H0. lia.
    + assert (H' : time.hoursSince now t < CleanupHours opts) by lia.
      destruct (Hyoung H') as (-> & -> & ->).
      repeat split; intros; auto; try lia; try discriminate.
      * injection H0. lia.
      * now elim H1.
  - intros bucket i key obj t st st1 Hm Hget Hparse. cbv zeta.
    destruct (Now st1) as [now st2] eqn:Hnow. cbn [fst].
    rewrite (cleanObject_run opts bucket i key obj t st st1 now st2
               Hm Hget Hparse Hnow).
    cbv zeta.
    destruct (CleanupHours opts <=? time.hoursSince now t) eqn:E.
    + apply Z.leb_le in E. destruct (DryRun opts).
      * cbn. repeat split; intros; auto; try lia; try discriminate.
        intuition discriminate.
      * cbn [trace].
        destruct (removal_selects_nothing _
                    (removeUploadFolder_removal bucket key st2))
          as (Hs & _ & Hk).
        pose proof (removeUploadFolder_entered bucket key st2) as He.
        rewrite selectedMarkers_app, printed_app, entered_app, Hs.
        revert He Hk.
        generalize (trace (removeUploadFolder bucket key st2)) as tr.
        intros tr He Hk.
        cbn. repeat split; intros; auto; try lia; try discriminate.
        destruct H as [H|H]; [discriminate | now apply Hk in H].
    + apply Z.leb_gt in E. cbn.
      repeat split; intros; auto; try lia; try discriminate.
      destruct H0 as [H0|[]]. discriminate.
Qed.

(** The boundary on the example store: the marker of [abc123] is exactly
    ten hours old, and a threshold of ten hours selects it. *)
Lemma selected_iff_age_reaches_threshold_witness :
  let key := (repos ++ "repoA/_uploads/abc123/startedat")%string in
  time.hoursSince exampleNow (time.Date 2024 1 1 0 0 0 0) = 10 /\
  selectedMarkers
    (trace (cleanObject (exampleOpts 10 false) "registry" 0
              {| Object.Key := Some key |} tt exampleStore)) = [key].
Proof.
  cbv zeta. split; [reflexivity|].
  pose proof (proj2 (selected_iff_age_reaches_threshold Store.t _
                       (exampleOpts 10 false))
                "registry" 0
                (repos ++ "repoA/_uploads/abc123/startedat")%string
                {| GetObjectOutput.Body :=
                     {| data := "2024-01-01T00:00:00Z"; readErr := None |} |}
                (time.Date 2024 1 1 0 0 0 0) exampleStore exampleStore
                eq_refl eq_refl eq_refl) as H.
  cbv zeta in H. destruct H as [[_ H] _]. apply H.
  apply Z.leb_le. vm_compute. reflexivity.
Defined.

(** One upload, initiated 4097 hours less one nanosecond before the clock
    of the store reads. *)
Definition boundaryStore : Store.t :=
  {| Store.objects := [];
     Store.uploads :=
       [ {| Store.key := (repos ++ "repoA/_uploads/abc123/data")%string;
            Store.uploadId := "u1";
            Store.initiated := time.Date 2023 1 1 0 0 0 0 |} ];
     Store.clock := time.Date 2023 1 1 0 0 0 0 + (4097 * time.Hour - 1);
     Store.pageSize := 1000;
     Store.abortDenied := [];
     Store.lastKeyMarker := true |}.

(** C5 fails as stated, for the age in whole hours truncated toward zero.
    The upload of [boundaryStore] has been there for 4096 whole hours and
    a fraction.  [Hours] gives 4097: the fraction, one nanosecond short of
    an hour, added to 4096 rounds to the next double, which is 4097.  With
    a threshold of 4097 hours the run prints an age of 4097 hours, selects
    the upload and aborts it. *)
Lemma selected_below_threshold_in_whole_hours :
  let t := time.Date 2023 1 1 0 0 0 0 in
  let elapsed := time.Sub (Store.clock boundaryStore) t in
  let r := cleanMPUs (exampleOpts 4097 false) 5 "registry" repos
             boundaryStore in
  elapsed = 4097 * time.Hour - 1 /\
  Z.quot elapsed time.Hour = 4096 /\
  time.hoursSince (Store.clock boundaryStore) t = 4097 /\
  In (StartedHoursAgo 4097) (printed (trace r)) /\
  selectedUploads (trace r) =
    [((repos ++ "repoA/_uploads/abc123/data")%string, "u1")] /\
  result r = Done 1 /\
  Store.uploads (final r) = [].
Proof.
  cbv zeta. repeat apply conj; try (vm_compute; reflexivity).
  vm_compute. tauto.
Qed.

(** ** Cursors that are read, cursors that are not (C10) *)

(** A page of the root listing, with [NextMarker] left out unless the
    page is truncated. *)
Definition stripNextMarker (o : ListObjectsOutput.t) : ListObjectsOutput.t :=
  match ListObjectsOutput.IsTruncated o with
  | Some true => o
  | _ =>
      {| ListObjectsOutput.IsTruncated := ListObjectsOutput.IsTruncated o;
         ListObjectsOutput.NextMarker := None;
         ListObjectsOutput.CommonPrefixes := ListObjectsOutput.CommonPrefixes o;
         ListObjectsOutput.Contents := ListObjectsOutput.Contents o;
         ListObjectsOutput.Prefix := ListObjectsOutput.Prefix o |}
  end.

(** The store [s], answering the root listing with such pages. *)
Definition withoutNextMarker {St} (s : S3 St) : S3 St :=
  {| ListObjects := fun i st =>
       let '(o, e, st') := ListObjects i st in (stripNextMarker o, e, st');
     ListMultipartUploads := ListMultipartUploads;
     AbortMultipartUpload := AbortMultipartUpload;
     ListObjectsV2 := ListObjectsV2;
     GetObject := GetObject;
     DeleteObject := DeleteObject;
     Now := Now |}.

Definition stripEvent (e : Event) : Event :=
  match e with
  | ListObjectsCall i o err => ListObjectsCall i (stripNextMarker o) err
  | _ => e
  end.

Definition notRootListing (e : Event) : Prop :=
  match e with ListObjectsCall _ _ _ => False | _ => True end.

(** Two runs that agree but for the [NextMarker] of the pages in their
    traces. *)
Definition sameButNextMarker {St A} (r' r : Run St A) : Prop :=
  result r' = result r /\ final r' = final r /\
  trace r' = map stripEvent (trace r).

Definition simulates {St A} (m' m : M St A) : Prop :=
  forall st, sameButNextMarker (m' st) (m st).

Section NextMarker.

Context {St : Type} {s : S3 St}.
Variable opts : Options.

Lemma simulates_bind {A B} (m' m : M St A) (k' k : A -> M St B) :
  simulates m' m -> (forall a, simulates (k' a) (k a)) ->
  simulates (bind m' k') (bind m k).
Proof.
  intros Hm Hk st. destruct (Hm st) as (Hr & Hf & Ht).
  unfold sameButNextMarker.
  rewrite !result_bind, !final_bind, !trace_bind, Hr, Hf, Ht, map_app.
  destruct (result (m st)) as [a| |]; auto.
  destruct (Hk a (final (m st))) as (Hr' & Hf' & Ht').
  now rewrite Hr', Hf', Ht'.
Qed.

Lemma simulates_deref_bind {A B} (a : A) (k' k : A -> M St B) :
  simulates (k' a) (k a) ->
  simulates (bind (deref (Some a)) k') (bind (deref (Some a)) k).
Proof.
  intros Hk st. destruct (Hk st) as (Hr & Hf & Ht).
  repeat split; cbn; auto.
Qed.

Lemma simulates_nil_bind {A B} (k' k : A -> M St B) :
  simulates (bind (deref None) k') (bind (deref None) k).
Proof. intro st. now repeat split. Qed.

Lemma simulates_quiet {A} (m : M St A) :
  always notRootListing m -> simulates m m.
Proof.
  intros H st. repeat split. specialize (H st).
  induction H as [|e tr He _ IH]; [reflexivity|].
  simpl. rewrite <- IH. now destruct e.
Qed.

Lemma cleanMPUs_notRootListing fuel bucket prefix :
  always notRootListing (cleanMPUs opts fuel bucket prefix).
Proof.
  unfold cleanMPUs. repeat always_step.
  generalize "" at 1, 0. induction fuel as [|fuel IH]; intros; simpl;
    repeat always_step; auto.
  unfold cleanUpload. repeat always_step.
Qed.

Lemma cleanUploadFolders_notRootListing fuel bucket prefix :
  always notRootListing (cleanUploadFolders opts fuel bucket prefix).
Proof.
  unfold cleanUploadFolders. repeat always_step.
  generalize (@None string). induction fuel as [|fuel IH]; intros; simpl;
    repeat always_step; auto.
  unfold cleanObject, hoursSinceUploadStarted, removeUploadFolder, removeObject.
  repeat always_step.
Qed.

Lemma mainLoop_withoutNextMarker fuel n prefix :
  forall marker total,
  simulates (mainLoop (s := withoutNextMarker s) opts fuel n prefix marker total)
            (mainLoop opts fuel n prefix marker total).
Proof.
  induction n as [|n IH]; intros marker total st; [now repeat split|].
  cbn [mainLoop].
  set (i := {| ListObjectsInput.MaxKeys := Some MaxResultCount;
               ListObjectsInput.Bucket := Some (Bucket opts);
               ListObjectsInput.Prefix := Some prefix;
               ListObjectsInput.Delimiter := Some "/";
               ListObjectsInput.Marker := Some marker |}).
  destruct (ListObjects i st) as [[o e] st1] eqn:E.
  erewrite (bind_Done (callListObjects (s := withoutNextMarker s) i) _ st
              (stripNextMarker o, e) st1)
    by (unfold callListObjects; cbn; rewrite E; reflexivity).
  erewrite (bind_Done (callListObjects i) _ st (o, e) st1)
    by (unfold callListObjects; rewrite E; reflexivity).
  assert (Hgo : forall (k' k : M St Z),
             simulates k' k ->
             sameButNextMarker
               (mkRun (result (k' st1)) (final (k' st1))
                  ([ListObjectsCall i (stripNextMarker o) e] ++ trace (k' st1)))
               (mkRun (result (k st1)) (final (k st1))
                  ([ListObjectsCall i o e] ++ trace (k st1)))).
  { intros k' k Hk. destruct (Hk st1) as (Hr & Hf & Ht).
    repeat split; cbn; auto. now rewrite Ht. }
  apply Hgo. clear Hgo E st st1.
  destruct e as [e|]; [now repeat split|].
  unfold stripNextMarker.
  destruct (ListObjectsOutput.IsTruncated o) as [[|]|] eqn:Et; cbn;
    rewrite ?Et.
  all: first [ apply simulates_deref_bind | apply simulates_nil_bind ].
  all: cbn iota.
  all: repeat first
         [ apply simulates_bind; [ | intros ]
         | apply IH
         | apply simulates_quiet;
           repeat always_step;
           first [ exact I
                 | apply cleanUploadFolders_notRootListing
                 | unfold cleanPrefix; repeat always_step;
                   apply cleanMPUs_notRootListing ] ].
Qed.

Lemma main_withoutNextMarker fuel :
  simulates (main (s := withoutNextMarker s) opts fuel) (main opts fuel).
Proof.
  unfold main.
  repeat first
    [ apply simulates_bind; [ | intros ]
    | apply mainLoop_withoutNextMarker
    | apply simulates_quiet; repeat always_step; exact I ].
Qed.

End NextMarker.

Lemma mpuPages_In o tr :
  In o (mpuPages tr) -> exists i e, In (ListMultipartUploadsCall i o e) tr.
Proof.
  unfold mpuPages. rewrite in_flat_map. intros (ev & Hin & Ho).
  destruct ev; try now destruct Ho.
  destruct Ho as [<-|[]]. eauto.
Qed.

(** The example store, on a backend that leaves [NextKeyMarker] out of the
    last page of a multipart listing. *)
Definition noKeyMarkerStore : Store.t :=
  {| Store.objects := Store.objects exampleStore;
     Store.uploads := Store.uploads exampleStore;
     Store.clock := exampleNow;
     Store.pageSize := 1000;
     Store.abortDenied := [];
     Store.lastKeyMarker := false |}.

(** C10.  [cleanMPUs] dereferences [NextKeyMarker] on every page, the last
    one included: a page without it ends the run with a nil dereference
    right after the listing call, before any upload of the page is looked
    at, so a run that completes has seen [NextKeyMarker] on every page.
    The driver reads [NextMarker] on truncated pages only: [main] runs the
    same against a store that leaves [NextMarker] out of every page that
    is not truncated. *)
Theorem nextKeyMarker_is_read_on_every_page :
  (forall St (s : S3 St) (opts : Options) fuel bucket prefix (st : St),
     let r := cleanMPUs opts fuel bucket prefix st in
     (forall tr1 i o tr2 b,
        trace r = tr1 ++ ListMultipartUploadsCall i o None :: tr2 ->
        ListMultipartUploadsOutput.IsTruncated o = Some b ->
        ListMultipartUploadsOutput.NextKeyMarker o = None ->
        tr2 = [] /\ result r = Panic NilDereference) /\
     (forall n, result r = Done n ->
        Forall (fun o => ListMultipartUploadsOutput.NextKeyMarker o <> None)
               (mpuPages (trace r)))) /\
  (forall St (s : S3 St) (opts : Options) fuel (st : St),
     sameButNextMarker (main (s := withoutNextMarker s) opts fuel st)
                       (main opts fuel st)).
Proof.
  split.
  - intros St s opts fuel bucket prefix st r.
    pose proof (cleanMPUs_stops opts fuel bucket prefix st) as H. fold r in H.
    split.
    + intros tr1 i o tr2 b Htr Ht Hk.
      destruct (stopsAt_split _ _ _ _ _ _ NilDereference H Htr) as [H2 Ho].
      { simpl. now rewrite Ht, Hk. }
      split; [exact H2|]. destruct (result r); simpl in Ho; congruence.
    + intros n Hn. apply Forall_forall. intros o Hin Hk.
      apply mpuPages_In in Hin. destruct Hin as (i & e & Hin).
      apply in_split in Hin. destruct Hin as (tr1 & tr2 & Htr).
      assert (exists c, fatal (ListMultipartUploadsCall i o e) = Some c)
        as [c Hc].
      { simpl. rewrite Hk. destruct e; [eauto|].
        destruct (ListMultipartUploadsOutput.IsTruncated o); eauto. }
      destruct (stopsAt_split _ _ _ _ _ _ c H Htr Hc) as [_ Ho].
      rewrite Hn in Ho. discriminate.
  - intros. apply main_withoutNextMarker.
Qed.

Lemma nextKeyMarker_is_read_on_every_page_witness :
  result (cleanMPUs (exampleOpts 3 false) 5 "registry" (repos ++ "repoA/")%string
            noKeyMarkerStore) = Panic NilDereference /\
  selectedUploads
    (trace (cleanMPUs (exampleOpts 3 false) 5 "registry" (repos ++ "repoA/")%string
              noKeyMarkerStore)) = [] /\
  result (main (exampleOpts 3 true) 5 exampleStore) = Done tt /\
  map ListObjectsOutput.NextMarker
    (rootPages (trace (main (exampleOpts 3 true) 5 exampleStore))) = [None].
Proof.
  split; [|repeat split; vm_compute; reflexivity].
  pose (tr := trace (cleanMPUs (exampleOpts 3 false) 5 "registry"
                       (repos ++ "repoA/")%string noKeyMarkerStore)).
  eapply (proj1 (proj1 nextKeyMarker_is_read_on_every_page Store.t _ _ _ _ _ _)
            (firstn 1 tr) _ _ (skipn 2 tr) false).
  - vm_compute. reflexivity.
  - reflexivity.
  - reflexivity.
Defined.

(** ** Pagination (C7) *)

(** The keys of the uploads a run of [cleanMPUs] looks at: line 122
    prints each. *)
Definition visitedUploads (tr : list Event) : list (option string) :=
  flat_map (fun e => match e with
                     | Print (UploadLine _ key) => [Some key]
                     | _ => []
                     end) tr.

(** The repository prefixes the driver looks at: line 82 prints each. *)
Definition visitedPrefixes (tr : list Event) : list (option string) :=
  flat_map (fun e => match e with
                     | Print (PrefixLine _ p) => [Some p]
                     | _ => []
                     end) tr.

Definition isMarkerKey (k : option string) : bool :=
  match k with Some key => isMarker key | None => false end.

(** The items of the pages of each listing. *)
Definition uploadsOf (pages : list ListMultipartUploadsOutput.t)
  : list (option string) :=
  flat_map (fun o => map MultipartUpload.Key (ListMultipartUploadsOutput.Uploads o))
           pages.

Definition prefixesOf (pages : list ListObjectsOutput.t) : list (option string) :=
  flat_map (fun o => map CommonPrefix.Prefix (ListObjectsOutput.CommonPrefixes o))
           pages.

Definition markersOf (pages : list ListObjectsV2Output.t) : list (option string) :=
  flat_map (fun o => filter isMarkerKey
                       (map Object.Key (ListObjectsV2Output.Contents o)))
           pages.

(** Truncation is reported on every page but the last. *)
Definition truncatedButLast (flags : list (option bool)) : Prop :=
  exists k, flags = repeat (Some true) k ++ [Some false].

Section MonadInversion.

Context {St : Type}.

Lemma bind_Done_inv {A B} (m : M St A) (k : A -> M St B) st b :
  result (bind m k st) = Done b ->
  exists a, result (m st) = Done a /\ result (k a (final (m st))) = Done b /\
            trace (bind m k st) = trace (m st) ++ trace (k a (final (m st))).
Proof.
  rewrite result_bind, trace_bind.
  destruct (result (m st)) as [a| |]; try discriminate. eauto.
Qed.

Lemma bind_OutOfFuel_inv {A B} (m : M St A) (k : A -> M St B) st :
  result (bind m k st) = OutOfFuel ->
  (result (m st) = OutOfFuel /\ trace (bind m k st) = trace (m st)) \/
  exists a, result (m st) = Done a /\
            result (k a (final (m st))) = OutOfFuel /\
            trace (bind m k st) = trace (m st) ++ trace (k a (final (m st))).
Proof.
  rewrite result_bind, trace_bind.
  destruct (result (m st)) as [a| |]; try discriminate; eauto.
  intros _. left. now rewrite app_nil_r.
Qed.

(** A run that never stops for lack of fuel. *)
Definition terminates (_ : list Event) (o : Outcome) : Prop := o <> OutOfFuel.

Lemma terminates_sequential : sequential terminates.
Proof. split; [discriminate | now intros]. Qed.

Lemma terminates_result {A} (m : M St A) st :
  ensures terminates m -> result (m st) <> OutOfFuel.
Proof.
  intros H E. specialize (H st). rewrite E in H. now apply H.
Qed.

End MonadInversion.

Ltac terminates_step :=
  match goal with
  | |- ensures _ (bind _ _) =>
      apply (ensures_bind _ terminates_sequential); [ | intros ]
  | |- ensures _ (forRange _ _ _ _) =>
      apply (ensures_forRange _ terminates_sequential); intros
  | |- ensures _ (match ?x with _ => _ end) => destruct x
  | |- ensures _ (let '(_, _) := ?x in _) => destruct x
  | |- ensures terminates (callListObjects ?i) =>
      let st := fresh "st" in intro st; unfold callListObjects;
      destruct (ListObjects i st) as [[? ?] ?]; discriminate
  | |- ensures terminates (callListMultipartUploads ?i) =>
      let st := fresh "st" in intro st; unfold callListMultipartUploads;
      destruct (ListMultipartUploads i st) as [[? ?] ?]; discriminate
  | |- ensures terminates (callAbortMultipartUpload ?i) =>
      let st := fresh "st" in intro st; unfold callAbortMultipartUpload;
      destruct (AbortMultipartUpload i st) as [? ?]; discriminate
  | |- ensures terminates (callListObjectsV2 ?i) =>
      let st := fresh "st" in intro st; unfold callListObjectsV2;
      destruct (ListObjectsV2 i st) as [[? ?] ?]; discriminate
  | |- ensures terminates (callGetObject ?i) =>
      let st := fresh "st" in intro st; unfold callGetObject;
      destruct (GetObject i st) as [[? ?] ?]; discriminate
  | |- ensures terminates (callDeleteObject ?i) =>
      let st := fresh "st" in intro st; unfold callDeleteObject;
      destruct (DeleteObject i st) as [? ?]; discriminate
  | |- ensures terminates (hoursSinceNow ?t) =>
      let st := fresh "st" in intro st; unfold hoursSinceNow; destruct (Now st); discriminate
  | |- ensures terminates (deref ?p) => intro; destruct p; discriminate
  | |- ensures terminates _ => intro; discriminate
  end.

Section Terminates.

Context {St : Type} {s : S3 St}.
Variable opts : Options.

Lemma cleanUpload_terminates bucket i multi total :
  ensures terminates (cleanUpload opts bucket i multi total).
Proof. unfold cleanUpload. repeat terminates_step. Qed.

Lemma cleanObject_terminates bucket i o u :
  ensures terminates (cleanObject opts bucket i o u).
Proof.
  unfold cleanObject, hoursSinceUploadStarted, removeUploadFolder, removeObject.
  repeat terminates_step.
Qed.

End Terminates.

Lemma flat_map_nil_always {B} (f : Event -> list B) (P : Event -> Prop) tr :
  (forall e, P e -> f e = []) -> Forall P tr -> flat_map f tr = [].
Proof.
  intros H. induction 1 as [|e tr He _ IH]; [reflexivity|].
  simpl. now rewrite (H e He), IH.
Qed.

Lemma visitedUploads_app tr tr' :
  visitedUploads (tr ++ tr') = visitedUploads tr ++ visitedUploads tr'.
Proof. apply flat_map_app. Qed.

Lemma mpuPages_app tr tr' : mpuPages (tr ++ tr') = mpuPages tr ++ mpuPages tr'.
Proof. apply flat_map_app. Qed.

(** What the body of the loop over the uploads of a page leaves in the
    trace after line 122. *)
Definition afterUploadLine (e : Event) : Prop :=
  match e with
  | Print (StartedHoursAgo _) | Print (Candidate _ _ _) | Print (ErrorLine _)
  | Print RemovedBang | AbortMultipartUploadCall _ _ => True
  | _ => False
  end.

Section PagesMPU.

Context {St : Type} {s : S3 St}.
Variable opts : Options.

Lemma cleanUpload_visits bucket i multi total st :
  mpuPages (trace (cleanUpload opts bucket i multi total st)) = [] /\
  forall n, result (cleanUpload opts bucket i multi total st) = Done n ->
    visitedUploads (trace (cleanUpload opts bucket i multi total st)) =
    [MultipartUpload.Key multi].
Proof.
  unfold cleanUpload.
  destruct (MultipartUpload.Key multi) as [key|]; [|split; [reflexivity|discriminate]].
  rewrite (bind_Done _ _ st key st []) by reflexivity.
  rewrite (bind_Done _ _ st tt st [Print (UploadLine i key)]) by reflexivity.
  cbn [result trace app].
  match goal with |- context [trace (?m st)] =>
    assert (H : always afterUploadLine m) by (repeat always_step);
    specialize (H st); revert H; generalize (trace (m st)) as tr
  end.
  intros tr H. split.
  - simpl. eapply flat_map_nil_always; [|exact H]. now intros [[]| | | | | | |].
  - intros n _. simpl. f_equal.
    eapply flat_map_nil_always; [|exact H]. now intros [[]| | | | | | |].
Qed.

Lemma forRange_cleanUpload_visits bucket ups :
  forall i total st,
  mpuPages (trace (forRange (cleanUpload opts bucket) i ups total st)) = [] /\
  forall n,
    result (forRange (cleanUpload opts bucket) i ups total st) = Done n ->
    visitedUploads (trace (forRange (cleanUpload opts bucket) i ups total st)) =
    map MultipartUpload.Key ups.
Proof.
  induction ups as [|u ups IH]; intros i total st; [now split|].
  cbn [forRange]. rewrite trace_bind, mpuPages_app.
  destruct (cleanUpload_visits bucket i u total st) as [Hp Hv]. rewrite Hp.
  split.
  - destruct (result (cleanUpload opts bucket i u total st)); auto.
    apply IH.
  - intros n Hn. apply bind_Done_inv in Hn.
    destruct Hn as (total' & Hr & Hk & _). rewrite Hr.
    rewrite visitedUploads_app, (Hv _ Hr).
    destruct (IH (i + 1) total' (final (cleanUpload opts bucket i u total st)))
      as [_ IHv].
    now rewrite (IHv _ Hk).
Qed.

Lemma cleanMPUsLoop_pages fuel bucket prefix :
  forall keyMarker total st,
  let r := cleanMPUsLoop opts fuel bucket prefix keyMarker total st in
  (forall n, result r = Done n ->
     visitedUploads (trace r) = uploadsOf (mpuPages (trace r)) /\
     truncatedButLast
       (map ListMultipartUploadsOutput.IsTruncated (mpuPages (trace r)))) /\
  (result r = OutOfFuel ->
     map ListMultipartUploadsOutput.IsTruncated (mpuPages (trace r)) =
     repeat (Some true) fuel).
Proof.
  induction fuel as [|fuel IH]; intros keyMarker total st;
    [split; [discriminate | reflexivity]|].
  cbn [cleanMPUsLoop].
  match goal with |- context [callListMultipartUploads ?x] => set (i := x) end.
  destruct (ListMultipartUploads i st) as [[o e] st1] eqn:E.
  erewrite (bind_Done (callListMultipartUploads i) _ st (o, e) st1)
    by (unfold callListMultipartUploads; rewrite E; reflexivity).
  cbn [result final trace].
  destruct e as [e|]; [split; discriminate|].
  destruct (ListMultipartUploadsOutput.IsTruncated o) as [b|] eqn:Eb;
    [|split; discriminate].
  rewrite (bind_Done _ _ st1 b st1 []) by reflexivity.
  destruct (ListMultipartUploadsOutput.NextKeyMarker o) as [km|];
    [|split; discriminate].
  rewrite (bind_Done _ _ st1 km st1 []) by reflexivity.
  assert (Hflag : exists tr0, (if b then print OutputTruncated else ret tt) st1
                   = mkRun (Done tt) st1 tr0 /\ mpuPages tr0 = [] /\
                     visitedUploads tr0 = [])
    by (destruct b; eexists; repeat split).
  destruct Hflag as (tr0 & Hflag & Hp0 & Hv0).
  rewrite (bind_Done _ _ st1 tt st1 tr0 Hflag).
  rewrite (bind_Done _ _ st1 tt st1 [Print (MPUsFound _)]) by reflexivity.
  cbn [result final trace].
  set (ups := ListMultipartUploadsOutput.Uploads o).
  set (body := forRange (cleanUpload opts bucket) 0 ups total st1).
  destruct (forRange_cleanUpload_visits bucket ups 0 total st1) as [Hbp Hbv].
  fold body in Hbp, Hbv.
  rewrite !result_bind, !trace_bind. fold body.
  rewrite !mpuPages_app, !visitedUploads_app, Hp0, Hv0, Hbp.
  cbn [mpuPages visitedUploads flat_map app map].
  destruct (result body) as [total'| |] eqn:Erb;
    [|split; discriminate|
     exfalso; eapply (terminates_result (forRange _ _ _ _)); [|exact Erb];
     apply (ensures_forRange _ terminates_sequential); intros;
     apply cleanUpload_terminates].
  rewrite (Hbv _ eq_refl).
  destruct b.
  - specialize (IH km total' (final body)). cbv zeta in IH.
    destruct IH as [IHd IHf].
    split.
    + intros n Hn. destruct (IHd n Hn) as [Hv [k Hk]]. split.
      * unfold uploadsOf at 1. cbn [flat_map]. fold ups. now rewrite Hv.
      * exists (S k). cbn [map app]. rewrite Eb, Hk. reflexivity.
    + intros Hn. cbn [map app repeat]. now rewrite Eb, (IHf Hn).
  - cbn. rewrite Eb, !app_nil_r. split; [|discriminate].
    intros n _. split; [reflexivity | now exists O].
Qed.

End PagesMPU.

(** The events of [cleanMPUs] and of [cleanUploadFolders]. *)
Definition mpuEvent (e : Event) : Prop :=
  match e with
  | Enter (InCleanMPUs _ _) | ListMultipartUploadsCall _ _ _
  | AbortMultipartUploadCall _ _
  | Print OutputTruncated | Print (MPUsFound _) | Print (UploadLine _ _)
  | Print (StartedHoursAgo _) | Print (Candidate _ _ _) | Print (ErrorLine _)
  | Print RemovedBang | Print (RemovedCount _) => True
  | _ => False
  end.

Definition folderEvent (e : Event) : Prop :=
  match e with
  | Enter (InCleanUploadFolders _ _) | Enter (InRemoveUploadFolder _ _)
  | Enter (InHoursSinceUploadStarted _ _)
  | ListObjectsV2Call _ _ _ | GetObjectCall _ _ _ | DeleteObjectCall _ _
  | Print (ListError _) | Print (ErrorLine _) | Print (RemovingFolder _ _)
  | Print (SkippingFolder _ _) | Print (RemovingObject _) => True
  | _ => False
  end.

(** What [cleanObject] leaves in the trace after it has fetched a marker. *)
Definition afterFetch (e : Event) : Prop :=
  match e with
  | Print _ | Enter _ | DeleteObjectCall _ _ => True
  | ListObjectsV2Call i _ _ => isScan i = false
  | _ => False
  end.

Lemma always_impl {St A} (P Q : Event -> Prop) (m : M St A) :
  (forall e, P e -> Q e) -> always P m -> always Q m.
Proof. intros H Hm st. eapply Forall_impl; [exact H | apply Hm]. Qed.

Lemma fetched_app tr tr' : fetched (tr ++ tr') = fetched tr ++ fetched tr'.
Proof. apply flat_map_app. Qed.

Lemma scanPages_app tr tr' :
  scanPages (tr ++ tr') = scanPages tr ++ scanPages tr'.
Proof. apply flat_map_app. Qed.

Lemma afterFetch_quiet tr :
  Forall afterFetch tr -> fetched tr = [] /\ scanPages tr = [].
Proof.
  intros H. split; (eapply flat_map_nil_always; [|exact H]).
  - now intros [ | | | | | | |].
  - intros [ | | | | |i o e| |]; simpl; try easy. now intros ->.
Qed.

Section Events.

Context {St : Type} {s : S3 St}.
Variable opts : Options.

Lemma cleanMPUs_events fuel bucket prefix :
  always mpuEvent (cleanMPUs opts fuel bucket prefix).
Proof.
  unfold cleanMPUs. repeat always_step.
  generalize "" at 1, 0. induction fuel as [|fuel IH]; intros; simpl;
    repeat always_step; auto.
  unfold cleanUpload. repeat always_step.
Qed.

Lemma cleanObject_events bucket i o u :
  always folderEvent (cleanObject opts bucket i o u).
Proof.
  unfold cleanObject, hoursSinceUploadStarted, removeUploadFolder, removeObject.
  repeat always_step.
Qed.

Lemma cleanUploadFolders_events fuel bucket prefix :
  always folderEvent (cleanUploadFolders opts fuel bucket prefix).
Proof.
  unfold cleanUploadFolders. repeat always_step.
  generalize (@None string). induction fuel as [|fuel IH]; intros; simpl;
    repeat always_step; auto using cleanObject_events.
Qed.

End Events.

Section PagesFolders.

Context {St : Type} {s : S3 St}.
Variable opts : Options.

Lemma hoursSinceUploadStarted_trace bucket key st :
  let g := {| GetObjectInput.Bucket := Some bucket;
              GetObjectInput.Key := Some key |} in
  trace (hoursSinceUploadStarted bucket key st) =
  [Enter (InHoursSinceUploadStarted bucket key);
   GetObjectCall g (fst (fst (GetObject g st))) (snd (fst (GetObject g st)))].
Proof.
  cbv zeta. unfold hoursSinceUploadStarted.
  rewrite (bind_Done _ _ st tt st [Enter (InHoursSinceUploadStarted bucket key)])
    by reflexivity.
  match goal with |- context [callGetObject ?x] => set (g := x) end.
  destruct (GetObject g st) as [[obj e] st1] eqn:E.
  erewrite (bind_Done (callGetObject g) _ st (obj, e) st1)
    by (unfold callGetObject; rewrite E; reflexivity).
  cbn [result final trace app fst snd]. do 2 f_equal.
  destruct e; [reflexivity|].
  destruct (parseTimeFromStream _) as [t [e|]]; [reflexivity|].
  unfold bind, hoursSinceNow. destruct (Now st1). reflexivity.
Qed.

Lemma cleanObject_visits bucket i o u st :
  scanPages (trace (cleanObject opts bucket i o u st)) = [] /\
  forall v, result (cleanObject opts bucket i o u st) = Done v ->
    fetched (trace (cleanObject opts bucket i o u st)) =
    filter isMarkerKey [Object.Key o].
Proof.
  unfold cleanObject.
  destruct (Object.Key o) as [key|]; [|split; [reflexivity|discriminate]].
  rewrite (bind_Done _ _ st key st []) by reflexivity.
  cbn [result trace app filter isMarkerKey]. fold (isMarker key).
  destruct (isMarker key); [|now split].
  rewrite trace_bind, hoursSinceUploadStarted_trace.
  match goal with
  | |- context [match ?r with Done a => trace (@?k a) | _ => _ end] =>
      assert (H : Forall afterFetch
                    (match r with Done a => trace (k a) | _ => [] end))
  end.
  { destruct (result _) as [[h err]| |]; try constructor.
    cbn beta iota.
    match goal with
    | |- Forall _ (trace (?m ?x)) =>
        assert (H : always afterFetch m);
        [ unfold removeUploadFolder, removeObject; repeat always_step;
          reflexivity
        | apply H ]
    end. }
  apply afterFetch_quiet in H. destruct H as [Hf Hs].
  rewrite scanPages_app, fetched_app, Hf, Hs. now split.
Qed.

Lemma forRange_cleanObject_visits bucket os :
  forall i u st,
  scanPages (trace (forRange (cleanObject opts bucket) i os u st)) = [] /\
  forall v,
    result (forRange (cleanObject opts bucket) i os u st) = Done v ->
    fetched (trace (forRange (cleanObject opts bucket) i os u st)) =
    filter isMarkerKey (map Object.Key os).
Proof.
  induction os as [|o os IH]; intros i u st; [now split|].
  cbn [forRange]. rewrite trace_bind, scanPages_app.
  destruct (cleanObject_visits bucket i o u st) as [Hp Hv]. rewrite Hp.
  split.
  - destruct (result (cleanObject opts bucket i o u st)); auto.
    apply IH.
  - intros v Hn. apply bind_Done_inv in Hn.
    destruct Hn as (u' & Hr & Hk & _). rewrite Hr.
    rewrite fetched_app, (Hv _ Hr).
    destruct (IH (i + 1) u' (final (cleanObject opts bucket i o u st)))
      as [_ IHv].
    rewrite (IHv _ Hk). cbn [map filter].
    now destruct (isMarkerKey (Object.Key o)).
Qed.

Lemma cleanUploadFoldersLoop_pages fuel bucket prefix :
  forall token st,
  let r := cleanUploadFoldersLoop opts fuel bucket prefix token st in
  (forall v, result r = Done v ->
     fetched (trace r) = markersOf (scanPages (trace r)) /\
     truncatedButLast
       (map ListObjectsV2Output.IsTruncated (scanPages (trace r)))) /\
  (result r = OutOfFuel ->
     map ListObjectsV2Output.IsTruncated (scanPages (trace r)) =
     repeat (Some true) fuel).
Proof.
  induction fuel as [|fuel IH]; intros token st;
    [split; [discriminate | reflexivity]|].
  cbn [cleanUploadFoldersLoop].
  match goal with |- context [callListObjectsV2 ?x] => set (i := x) end.
  destruct (ListObjectsV2 i st) as [[o e] st1] eqn:E.
  erewrite (bind_Done (callListObjectsV2 i) _ st (o, e) st1)
    by (unfold callListObjectsV2; rewrite E; reflexivity).
  cbn [result final trace].
  assert (Herr : exists tr0,
             match e with Some e0 => print (ListError e0) | None => ret tt end st1
             = mkRun (Done tt) st1 tr0 /\ scanPages tr0 = [] /\ fetched tr0 = [])
    by (destruct e; eexists; repeat split).
  destruct Herr as (tr0 & Herr & Hp0 & Hv0).
  rewrite (bind_Done _ _ st1 tt st1 tr0 Herr).
  cbn [result final trace].
  set (os := ListObjectsV2Output.Contents o).
  set (body := forRange (cleanObject opts bucket) 0 os tt st1).
  destruct (forRange_cleanObject_visits bucket os 0 tt st1) as [Hbp Hbv].
  fold body in Hbp, Hbv.
  rewrite result_bind, trace_bind. fold body.
  rewrite !scanPages_app, !fetched_app, Hp0, Hv0, Hbp.
  cbn [scanPages fetched flat_map app map isScan i ListObjectsV2Input.MaxKeys].
  destruct (result body) as [u| |] eqn:Erb;
    [|split; discriminate|
     exfalso; eapply (terminates_result (forRange _ _ _ _)); [|exact Erb];
     apply (ensures_forRange _ terminates_sequential); intros;
     apply cleanObject_terminates].
  rewrite (Hbv _ eq_refl).
  destruct (ListObjectsV2Output.IsTruncated o) as [b|] eqn:Eb;
    [|split; discriminate].
  rewrite (bind_Done _ _ (final body) b (final body) []) by reflexivity.
  cbn [result final trace app].
  destruct b.
  - specialize (IH (ListObjectsV2Output.NextContinuationToken o) (final body)).
    cbv zeta in IH. destruct IH as [IHd IHf].
    split.
    + intros v Hn. destruct (IHd v Hn) as [Hv [k Hk]]. split.
      * unfold markersOf at 1. cbn [flat_map]. fold os. now rewrite Hv.
      * exists (S k). cbn [map app]. rewrite ?Eb, Hk. reflexivity.
    + intros Hn. cbn [map app repeat]. now rewrite ?Eb, (IHf Hn).
  - cbn. rewrite ?Eb, !app_nil_r. split; [|discriminate].
    intros v _. split; [reflexivity | now exists O].
Qed.

End PagesFolders.

(** ** The driver (C4, C7) *)

(** The runs of the two reapers that a run of the driver starts. *)
Definition reaperCalls (tr : list Event) : list Frame :=
  flat_map (fun e => match e with
                     | Enter (InCleanMPUs b p) => [InCleanMPUs b p]
                     | Enter (InCleanUploadFolders b p) =>
                         [InCleanUploadFolders b p]
                     | _ => []
                     end) tr.

Definition stringOf (o : option string) : string :=
  match o with Some x => x | None => EmptyString end.

(** What the driver starts for one page of the root listing: [cleanMPUs]
    on each common prefix, then, unless the run is dry, one
    [cleanUploadFolders] on the prefix of the page itself. *)
Definition reapersFor (opts : Options) (o : ListObjectsOutput.t) : list Frame :=
  map (fun cp => InCleanMPUs (Bucket opts) (stringOf (CommonPrefix.Prefix cp)))
      (ListObjectsOutput.CommonPrefixes o) ++
  (if DryRun opts then []
   else [InCleanUploadFolders (Bucket opts)
           (stringOf (ListObjectsOutput.Prefix o))]).

(** What C4 says the driver starts for one page: both reapers on each
    common prefix. *)
Definition reapersPerPrefix (opts : Options) (o : ListObjectsOutput.t)
  : list Frame :=
  flat_map (fun cp =>
              [InCleanMPUs (Bucket opts) (stringOf (CommonPrefix.Prefix cp));
               InCleanUploadFolders (Bucket opts)
                 (stringOf (CommonPrefix.Prefix cp))])
           (ListObjectsOutput.CommonPrefixes o).

(** An event of a reaper other than its entry. *)
Definition innerEvent (e : Event) : Prop :=
  match e with
  | Enter (InCleanMPUs _ _) | Enter (InCleanUploadFolders _ _)
  | ListObjectsCall _ _ _ | Print (PrefixLine _ _) => False
  | _ => True
  end.

Lemma innerEvent_quiet tr :
  Forall innerEvent tr ->
  reaperCalls tr = [] /\ rootPages tr = [] /\ visitedPrefixes tr = [].
Proof.
  intros H. repeat split; (eapply flat_map_nil_always; [|exact H]).
  - now intros [|[]| | | | | |].
  - now intros [ | | | | | | |].
  - now intros [[]| | | | | | |].
Qed.

Lemma reaperCalls_app tr tr' :
  reaperCalls (tr ++ tr') = reaperCalls tr ++ reaperCalls tr'.
Proof. apply flat_map_app. Qed.

Lemma rootPages_app tr tr' : rootPages (tr ++ tr') = rootPages tr ++ rootPages tr'.
Proof. apply flat_map_app. Qed.

Lemma visitedPrefixes_app tr tr' :
  visitedPrefixes (tr ++ tr') = visitedPrefixes tr ++ visitedPrefixes tr'.
Proof. apply flat_map_app. Qed.

Section Driver.

Context {St : Type} {s : S3 St}.
Variable opts : Options.

(** A reaper started by the driver runs out of fuel. *)
Definition reaperOutOfFuel (fuel : nat) : Prop :=
  exists bucket prefix (st : St),
    result (cleanMPUs opts fuel bucket prefix st) = OutOfFuel \/
    result (cleanUploadFolders opts fuel bucket prefix st) = OutOfFuel.

Lemma cleanMPUs_calls fuel bucket prefix st :
  let tr := trace (cleanMPUs opts fuel bucket prefix st) in
  reaperCalls tr = [InCleanMPUs bucket prefix] /\
  rootPages tr = [] /\ visitedPrefixes tr = [].
Proof.
  cbv zeta. unfold cleanMPUs.
  rewrite (bind_Done _ _ st tt st [Enter (InCleanMPUs bucket prefix)])
    by reflexivity.
  cbn [trace].
  match goal with
  | |- context [trace (?m st)] =>
      assert (H : always innerEvent m);
      [ | specialize (H st); apply innerEvent_quiet in H;
          destruct H as (H1 & H2 & H3) ]
  end.
  { repeat always_step.
    generalize "" at 1, 0. induction fuel as [|fuel IH]; intros; simpl;
      repeat always_step; auto.
    unfold cleanUpload. repeat always_step. }
  rewrite reaperCalls_app, rootPages_app, visitedPrefixes_app, H1, H2, H3.
  now repeat split.
Qed.

Lemma cleanUploadFolders_calls fuel bucket prefix st :
  let tr := trace (cleanUploadFolders opts fuel bucket prefix st) in
  reaperCalls tr = [InCleanUploadFolders bucket prefix] /\
  rootPages tr = [] /\ visitedPrefixes tr = [].
Proof.
  cbv zeta. unfold cleanUploadFolders.
  rewrite (bind_Done _ _ st tt st [Enter (InCleanUploadFolders bucket prefix)])
    by reflexivity.
  cbn [trace].
  match goal with
  | |- context [trace (?m st)] =>
      assert (H : always innerEvent m);
      [ | specialize (H st); apply innerEvent_quiet in H;
          destruct H as (H1 & H2 & H3) ]
  end.
  { generalize (@None string). induction fuel as [|fuel IH]; intros; simpl;
      repeat always_step; auto.
    unfold cleanObject, hoursSinceUploadStarted, removeUploadFolder, removeObject.
    repeat always_step. }
  rewrite reaperCalls_app, rootPages_app, visitedPrefixes_app, H1, H2, H3.
  now repeat split.
Qed.

Lemma cleanPrefix_visits fuel i cp total st :
  let r := cleanPrefix opts fuel i cp total st in
  rootPages (trace r) = [] /\
  (forall n, result r = Done n ->
     visitedPrefixes (trace r) = [CommonPrefix.Prefix cp] /\
     reaperCalls (trace r) =
       [InCleanMPUs (Bucket opts) (stringOf (CommonPrefix.Prefix cp))]) /\
  (result r = OutOfFuel -> reaperOutOfFuel fuel).
Proof.
  cbv zeta. unfold cleanPrefix.
  destruct (CommonPrefix.Prefix cp) as [p|];
    [|repeat split; discriminate].
  rewrite (bind_Done _ _ st p st []) by reflexivity.
  rewrite (bind_Done _ _ st tt st [Print (PrefixLine i p)]) by reflexivity.
  rewrite (bind_Done _ _ st p st []) by reflexivity.
  cbn [result final trace app stringOf].
  rewrite result_bind, trace_bind.
  destruct (cleanMPUs_calls fuel (Bucket opts) p st) as (H1 & H2 & H3).
  destruct (result (cleanMPUs opts fuel (Bucket opts) p st)) as [n| |] eqn:E;
    cbn [rootPages visitedPrefixes reaperCalls flat_map];
    rewrite ?rootPages_app, ?visitedPrefixes_app, ?reaperCalls_app, ?app_nil_r,
      H1, H2, H3; cbn.
  - now repeat split.
  - repeat split; discriminate.
  - repeat split; try discriminate. intros _.
    exists (Bucket opts), p, st. now left.
Qed.

Lemma forRange_cleanPrefix_visits fuel cps :
  forall i total st,
  let r := forRange (cleanPrefix opts fuel) i cps total st in
  rootPages (trace r) = [] /\
  (forall n, result r = Done n ->
     visitedPrefixes (trace r) = map CommonPrefix.Prefix cps /\
     reaperCalls (trace r) =
       map (fun cp => InCleanMPUs (Bucket opts)
                        (stringOf (CommonPrefix.Prefix cp))) cps) /\
  (result r = OutOfFuel -> reaperOutOfFuel fuel).
Proof.
  induction cps as [|cp cps IH]; intros i total st;
    [repeat split; discriminate|].
  cbv zeta. cbn [forRange].
  destruct (cleanPrefix_visits fuel i cp total st) as (Hp & Hd & Hf).
  rewrite trace_bind, rootPages_app, Hp.
  repeat split.
  - destruct (result (cleanPrefix opts fuel i cp total st)); auto.
    apply IH.
  - apply bind_Done_inv in H. destruct H as (t' & Hr & Hk & _).
    rewrite Hr, visitedPrefixes_app. destruct (Hd _ Hr) as [-> _].
    destruct (IH (i + 1) t' (final (cleanPrefix opts fuel i cp total st)))
      as (_ & IHd & _).
    destruct (IHd _ Hk) as [-> _]. reflexivity.
  - apply bind_Done_inv in H. destruct H as (t' & Hr & Hk & _).
    rewrite Hr, reaperCalls_app. destruct (Hd _ Hr) as [_ ->].
    destruct (IH (i + 1) t' (final (cleanPrefix opts fuel i cp total st)))
      as (_ & IHd & _).
    destruct (IHd _ Hk) as [_ ->]. reflexivity.
  - intros H. apply bind_OutOfFuel_inv in H.
    destruct H as [[H _]|(t' & Hr & Hk & _)]; [auto|].
    eapply IH. exact Hk.
Qed.

Lemma bind_Panic {A B} (m : M St A) (k : A -> M St B) st c st' tr :
  m st = mkRun (Panic c) st' tr -> bind m k st = mkRun (Panic c) st' tr.
Proof. intros H. unfold bind. now rewrite H. Qed.

Lemma mainLoop_pages fuel n prefix :
  forall marker total st,
  let r := mainLoop opts fuel n prefix marker total st in
  (forall v, result r = Done v ->
     visitedPrefixes (trace r) = prefixesOf (rootPages (trace r)) /\
     truncatedButLast (map ListObjectsOutput.IsTruncated (rootPages (trace r))) /\
     reaperCalls (trace r) = flat_map (reapersFor opts) (rootPages (trace r))) /\
  (result r = OutOfFuel ->
     map ListObjectsOutput.IsTruncated (rootPages (trace r)) =
       repeat (Some true) n \/
     reaperOutOfFuel fuel).
Proof.
  induction n as [|n IH]; intros marker total st;
    [split; [discriminate | now left]|].
  cbn [mainLoop].
  match goal with |- context [callListObjects ?x] => set (i := x) end.
  destruct (ListObjects i st) as [[o e] st1] eqn:E.
  erewrite (bind_Done (callListObjects i) _ st (o, e) st1)
    by (unfold callListObjects; rewrite E; reflexivity).
  cbn [result final trace].
  destruct e as [e|]; [split; discriminate|].
  destruct (ListObjectsOutput.IsTruncated o) as [b|] eqn:Eb;
    [|split; discriminate].
  rewrite (bind_Done _ _ st1 b st1 []) by reflexivity.
  match goal with |- context [bind (if b then ?x else ?y)] =>
    set (mk := if b then x else y) end.
  assert (Hmk : (exists m' tr0, mk st1 = mkRun (Done m') st1 tr0 /\
                                Forall innerEvent tr0) \/
                (exists c tr0, mk st1 = mkRun (Panic c) st1 tr0)).
  { subst mk. destruct b; [|left; now exists marker, []].
    destruct (ListObjectsOutput.NextMarker o) as [m'|].
    - left. exists m', [Print ResultTruncated]. split; [reflexivity|].
      now repeat constructor.
    - right. now exists NilDereference, [Print ResultTruncated]. }
  destruct Hmk as [(m' & tr0 & Hmk & Hq)|(c & tr0 & Hmk)];
    [|rewrite (bind_Panic _ _ _ _ _ _ Hmk); split; discriminate].
  rewrite (bind_Done _ _ st1 m' st1 tr0 Hmk). clear Hmk mk.
  apply innerEvent_quiet in Hq. destruct Hq as (Hq1 & Hq2 & Hq3).
  cbn [result final trace].
  set (cps := ListObjectsOutput.CommonPrefixes o).
  set (body := forRange (cleanPrefix opts fuel) 0 cps total st1).
  destruct (forRange_cleanPrefix_visits fuel cps 0 total st1) as (Hbp & Hbd & Hbf).
  fold body in Hbp, Hbd, Hbf.
  rewrite result_bind, trace_bind. fold body.
  cbn [app rootPages visitedPrefixes reaperCalls flat_map].
  rewrite !rootPages_app, !visitedPrefixes_app, !reaperCalls_app,
    Hq1, Hq2, Hq3, Hbp.
  cbn [app].
  destruct (result body) as [total'| |] eqn:Erb;
    [|split; discriminate|split; [discriminate | intros _; right; auto]].
  destruct (Hbd _ eq_refl) as [Hv Hc]. rewrite Hv, Hc. clear Hbd Hbf.
  destruct (ListObjectsOutput.Prefix o) as [p|] eqn:Ep;
    [|split; discriminate].
  rewrite (bind_Done _ _ (final body) p (final body) []) by reflexivity.
  rewrite (bind_Done _ _ (final body) tt (final body)
             [Print (RemovingUploadFolders p)]) by reflexivity.
  cbn [result final trace app rootPages visitedPrefixes reaperCalls flat_map].
  match goal with |- context [bind (if negb (DryRun opts) then ?x else ?y)] =>
    set (fold' := if negb (DryRun opts) then x else y) end.
  assert (Hfold : rootPages (trace (fold' (final body))) = [] /\
                  visitedPrefixes (trace (fold' (final body))) = [] /\
                  reaperCalls (trace (fold' (final body))) =
                    (if DryRun opts then []
                     else [InCleanUploadFolders (Bucket opts) p]) /\
                  (result (fold' (final body)) = OutOfFuel ->
                   reaperOutOfFuel fuel)).
  { subst fold'. destruct (DryRun opts); cbn [negb];
      [repeat split; discriminate|].
    rewrite (bind_Done _ _ (final body) p (final body) []) by reflexivity.
    cbn [result final trace app].
    destruct (cleanUploadFolders_calls fuel (Bucket opts) p (final body))
      as (H1 & H2 & H3).
    repeat split; auto. intros H.
    exists (Bucket opts), p, (final body). now right. }
  destruct Hfold as (Hf1 & Hf2 & Hf3 & Hf4).
  rewrite result_bind, trace_bind.
  rewrite !rootPages_app, !visitedPrefixes_app, !reaperCalls_app,
    Hf1, Hf2, Hf3.
  cbn [app].
  destruct (result (fold' (final body))) as [u| |] eqn:Erf;
    [|split; discriminate|split; [discriminate | intros _; right; auto]].
  assert (Hpage : reapersFor opts o =
            map (fun cp => InCleanMPUs (Bucket opts)
                             (stringOf (CommonPrefix.Prefix cp))) cps ++
            (if DryRun opts then []
             else [InCleanUploadFolders (Bucket opts) p]))
    by (unfold reapersFor; now rewrite Ep).
  destruct b.
  - specialize (IH m' total' (final (fold' (final body)))). cbv zeta in IH.
    destruct IH as [IHd IHf].
    split.
    + intros v Hn. destruct (IHd v Hn) as (Hv' & [k Hk] & Hc').
      repeat split.
      * unfold prefixesOf at 1. cbn [flat_map]. fold cps. now rewrite Hv'.
      * exists (S k). cbn [map app]. rewrite ?Eb, Hk. reflexivity.
      * cbn [flat_map]. now rewrite Hpage, Hc', app_assoc.
    + intros Hn. destruct (IHf Hn) as [H|H]; [left|now right].
      cbn [map app repeat]. now rewrite ?Eb, H.
  - cbn. rewrite ?Eb, !app_nil_r. split; [|discriminate].
    intros v _. repeat split; [now exists O|].
    now rewrite Hpage.
Qed.

End Driver.

(** What [main] prints around its loop. *)
Definition bannerEvent (e : Event) : Prop :=
  match e with
  | Print RunInDryRunMode | Print (CleanupHoursLine _) | Print (EndpointLine _)
  | Print (BucketLine _) | Print (RootDirectoryLine _) | Print (PrefixIs _)
  | Print (TotalMPUsRemoved _) | Print (RemovedCount _) => True
  | _ => False
  end.

Lemma bannerEvent_quiet tr :
  Forall bannerEvent tr ->
  reaperCalls tr = [] /\ rootPages tr = [] /\ visitedPrefixes tr = [] /\
  mpuPages tr = [] /\ visitedUploads tr = [].
Proof.
  intros H. repeat split; (eapply flat_map_nil_always; [|exact H]).
  all: now intros [[]| | | | | | |].
Qed.

Section Wrappers.

Context {St : Type} {s : S3 St}.
Variable opts : Options.

(** [main] is its loop between two runs of prints. *)
Lemma main_loop fuel st :
  exists pre prefix st0 post,
    Forall bannerEvent pre /\ Forall bannerEvent post /\
    let l := mainLoop opts fuel fuel prefix "" 0 st0 in
    trace (main opts fuel st) = pre ++ trace l ++ post /\
    (result (main opts fuel st) = Done tt <-> exists v, result l = Done v) /\
    (result (main opts fuel st) = OutOfFuel <-> result l = OutOfFuel).
Proof.
  unfold main.
  assert (H0 : exists tr0,
             (if DryRun opts then print RunInDryRunMode else ret tt) st
             = mkRun (Done tt) st tr0 /\ Forall bannerEvent tr0)
    by (destruct (DryRun opts); eexists; split; try reflexivity;
        repeat constructor).
  destruct H0 as (tr0 & H0 & Hb0).
  rewrite (bind_Done _ _ st tt st tr0 H0).
  repeat (erewrite (bind_Done (print _) _ st tt st) by reflexivity).
  cbn [result final trace].
  match goal with |- context [mainLoop opts fuel fuel ?p "" 0] =>
    set (prefix := p) end.
  set (l := mainLoop opts fuel fuel prefix "" 0 st).
  rewrite result_bind, trace_bind. fold l.
  destruct (result l) as [v| |] eqn:El.
  - exists (tr0 ++ [Print (CleanupHoursLine (CleanupHours opts));
                    Print (EndpointLine (Endpoint opts));
                    Print (BucketLine (Bucket opts));
                    Print (RootDirectoryLine (RootDirectory opts));
                    Print (PrefixIs prefix)]),
      prefix, st, [Print (TotalMPUsRemoved v)].
    fold l. rewrite El. repeat split; eauto; try discriminate.
    + apply Forall_app. split; [exact Hb0 | now repeat constructor].
    + now repeat constructor.
    + cbn. now rewrite <- !app_assoc.
  - exists (tr0 ++ [Print (CleanupHoursLine (CleanupHours opts));
                    Print (EndpointLine (Endpoint opts));
                    Print (BucketLine (Bucket opts));
                    Print (RootDirectoryLine (RootDirectory opts));
                    Print (PrefixIs prefix)]),
      prefix, st, [].
    fold l. rewrite El. repeat split; eauto; try discriminate.
    + apply Forall_app. split; [exact Hb0 | now repeat constructor].
    + cbn. now rewrite <- !app_assoc.
    + now intros [v Hv].
  - exists (tr0 ++ [Print (CleanupHoursLine (CleanupHours opts));
                    Print (EndpointLine (Endpoint opts));
                    Print (BucketLine (Bucket opts));
                    Print (RootDirectoryLine (RootDirectory opts));
                    Print (PrefixIs prefix)]),
      prefix, st, [].
    fold l. rewrite El. repeat split; eauto; try discriminate.
    + apply Forall_app. split; [exact Hb0 | now repeat constructor].
    + cbn. now rewrite <- !app_assoc.
    + now intros [v Hv].
Qed.

Lemma cleanMPUs_loop fuel bucket prefix st :
  let l := cleanMPUsLoop opts fuel bucket prefix "" 0 st in
  let r := cleanMPUs opts fuel bucket prefix st in
  mpuPages (trace r) = mpuPages (trace l) /\
  visitedUploads (trace r) = visitedUploads (trace l) /\
  (forall n, result r = Done n <-> result l = Done n) /\
  (result r = OutOfFuel <-> result l = OutOfFuel).
Proof.
  cbv zeta. unfold cleanMPUs.
  rewrite (bind_Done _ _ st tt st [Enter (InCleanMPUs bucket prefix)])
    by reflexivity.
  cbn [result final trace].
  rewrite result_bind, trace_bind.
  destruct (result (cleanMPUsLoop opts fuel bucket prefix "" 0 st)) as [v| |];
    cbn; rewrite ?mpuPages_app, ?visitedUploads_app, ?app_nil_r; cbn;
    rewrite ?app_nil_r; repeat split; try discriminate; auto.
Qed.

Lemma cleanUploadFolders_loop fuel bucket prefix st :
  let l := cleanUploadFoldersLoop opts fuel bucket prefix None st in
  let r := cleanUploadFolders opts fuel bucket prefix st in
  scanPages (trace r) = scanPages (trace l) /\
  fetched (trace r) = fetched (trace l) /\
  result r = result l.
Proof.
  cbv zeta. unfold cleanUploadFolders.
  rewrite (bind_Done _ _ st tt st [Enter (InCleanUploadFolders bucket prefix)])
    by reflexivity.
  now repeat split.
Qed.

End Wrappers.

(** A store that serves one entry per page: two repositories, three
    uploads, two upload folders. *)
Definition pagedStore : Store.t :=
  {| Store.objects :=
       [ ((repos ++ "repoA/_uploads/a1/data")%string, "blob");
         ((repos ++ "repoA/_uploads/a1/startedat")%string, "2024-01-01T00:00:00Z");
         ((repos ++ "repoB/_uploads/b1/startedat")%string, "2024-01-01T09:00:00Z") ];
     Store.uploads :=
       [ {| Store.key := (repos ++ "repoA/_uploads/a1/data")%string;
            Store.uploadId := "u1";
            Store.initiated := time.Date 2024 1 1 5 0 0 0 |};
         {| Store.key := (repos ++ "repoA/_uploads/a2/data")%string;
            Store.uploadId := "u2";
            Store.initiated := time.Date 2024 1 1 9 0 0 0 |};
         {| Store.key := (repos ++ "repoB/_uploads/b1/data")%string;
            Store.uploadId := "u3";
            Store.initiated := time.Date 2024 1 1 3 0 0 0 |} ];
     Store.clock := exampleNow;
     Store.pageSize := 1;
     Store.abortDenied := [];
     Store.lastKeyMarker := true |}.

(** C7.  Each of the three scans works through the pages the store serves
    it.  When a scan returns, the store has reported truncation on every
    page but the last, and the scan has looked at every item of those
    pages once, in order (for the flat listing: it has fetched every
    candidate marker once; the other keys take no step).  A scan runs out
    of fuel only after as many truncated pages as it had fuel, or, for the
    driver, when a reaper it called ran out of fuel: it never stops asking
    while the store reports truncation, and never asks again after a page
    that is not truncated. *)
Theorem scans_visit_each_item_of_each_page_once :
  forall St (s : S3 St) (opts : Options) (fuel : nat),
  (forall st : St,
     let r := main opts fuel st in
     let pages := rootPages (trace r) in
     (result r = Done tt ->
        visitedPrefixes (trace r) = prefixesOf pages /\
        truncatedButLast (map ListObjectsOutput.IsTruncated pages)) /\
     (result r = OutOfFuel ->
        map ListObjectsOutput.IsTruncated pages = repeat (Some true) fuel \/
        reaperOutOfFuel opts fuel)) /\
  (forall bucket prefix (st : St),
     let r := cleanMPUs opts fuel bucket prefix st in
     let pages := mpuPages (trace r) in
     (forall n, result r = Done n ->
        visitedUploads (trace r) = uploadsOf pages /\
        truncatedButLast (map ListMultipartUploadsOutput.IsTruncated pages)) /\
     (result r = OutOfFuel ->
        map ListMultipartUploadsOutput.IsTruncated pages =
        repeat (Some true) fuel)) /\
  (forall bucket prefix (st : St),
     let r := cleanUploadFolders opts fuel bucket prefix st in
     let pages := scanPages (trace r) in
     (result r = Done tt ->
        fetched (trace r) = markersOf pages /\
        truncatedButLast (map ListObjectsV2Output.IsTruncated pages)) /\
     (result r = OutOfFuel ->
        map ListObjectsV2Output.IsTruncated pages = repeat (Some true) fuel)).
Proof.
  intros St s opts fuel. repeat apply conj.
  - intros st. cbv zeta.
    destruct (main_loop opts fuel st)
      as (pre & prefix & st0 & post & Hpre & Hpost & Htr & Hd & Hf).
    cbv zeta in Htr, Hd, Hf. rewrite Htr.
    apply bannerEvent_quiet in Hpre, Hpost.
    destruct Hpre as (_ & Hp1 & Hp2 & _), Hpost as (_ & Hq1 & Hq2 & _).
    rewrite !rootPages_app, !visitedPrefixes_app, Hp1, Hp2, Hq1, Hq2, !app_nil_r.
    cbn [app].
    destruct (mainLoop_pages opts fuel fuel prefix "" 0 st0) as [Hld Hlf].
    split.
    + intros H. apply Hd in H. destruct H as [v Hv].
      destruct (Hld v Hv) as (H1 & H2 & _). now split.
    + intros H. apply Hf in H. now apply Hlf.
  - intros bucket prefix st. cbv zeta.
    destruct (cleanMPUs_loop opts fuel bucket prefix st) as (Hp & Hv & Hd & Hf).
    cbv zeta in Hp, Hv, Hd, Hf. rewrite Hp, Hv.
    destruct (cleanMPUsLoop_pages opts fuel bucket prefix "" 0 st) as [Hld Hlf].
    split.
    + intros n H. apply Hd in H. now apply Hld in H.
    + intros H. apply Hf in H. now apply Hlf.
  - intros bucket prefix st. cbv zeta.
    destruct (cleanUploadFolders_loop opts fuel bucket prefix st)
      as (Hp & Hv & Hr).
    cbv zeta in Hp, Hv, Hr. rewrite Hp, Hv, Hr.
    destruct (cleanUploadFoldersLoop_pages opts fuel bucket prefix None st)
      as [Hld Hlf].
    split; [apply Hld | apply Hlf].
Qed.

(** Three pages of one upload each: [cleanMPUs] returns, having asked
    three times and looked at the three uploads. *)
Lemma scans_visit_each_item_of_each_page_once_witness :
  let r := cleanMPUs (exampleOpts 3 false) 10 "registry" repos pagedStore in
  result r = Done 2 /\
  List.length (mpuPages (trace r)) = 3%nat /\
  visitedUploads (trace r) = uploadsOf (mpuPages (trace r)) /\
  truncatedButLast
    (map ListMultipartUploadsOutput.IsTruncated (mpuPages (trace r))).
Proof.
  cbv zeta. split; [vm_compute; reflexivity|].
  split; [vm_compute; reflexivity|].
  apply (proj1 (proj1 (proj2 (scans_visit_each_item_of_each_page_once
                                Store.t _ (exampleOpts 3 false) 10))
                  "registry" repos pagedStore) 2).
  vm_compute. reflexivity.
Defined.

(** C4, as the code has it.  For every page of the root listing the driver
    runs [cleanMPUs] on each common prefix of the page, in order, and
    then, only if the run is not dry, [cleanUploadFolders] once, on the
    prefix the page itself carries (the registry root the listing was
    asked for), not on the common prefixes. *)
Theorem driver_runs_reapers_per_page :
  forall St (s : S3 St) (opts : Options) (fuel : nat) (st : St),
    result (main opts fuel st) = Done tt ->
    reaperCalls (trace (main opts fuel st)) =
    flat_map (reapersFor opts) (rootPages (trace (main opts fuel st))).
Proof.
  intros St s opts fuel st H.
  destruct (main_loop opts fuel st)
    as (pre & prefix & st0 & post & Hpre & Hpost & Htr & Hd & _).
  cbv zeta in Htr, Hd. rewrite Htr.
  apply bannerEvent_quiet in Hpre, Hpost.
  destruct Hpre as (Hp1 & Hp2 & _), Hpost as (Hq1 & Hq2 & _).
  rewrite !rootPages_app, !reaperCalls_app, Hp1, Hp2, Hq1, Hq2, !app_nil_r.
  cbn [app]. apply Hd in H. destruct H as [v Hv].
  now destruct (proj1 (mainLoop_pages opts fuel fuel prefix "" 0 st0) v Hv)
    as (_ & _ & Hc).
Qed.

Lemma driver_runs_reapers_per_page_witness :
  reaperCalls (trace (main (exampleOpts 3 false) 10 pagedStore)) =
  [ InCleanMPUs "registry" (repos ++ "repoA/");
    InCleanUploadFolders "registry" repos;
    InCleanMPUs "registry" (repos ++ "repoB/");
    InCleanUploadFolders "registry" repos ]%string.
Proof.
  rewrite (driver_runs_reapers_per_page Store.t _ (exampleOpts 3 false) 10
             pagedStore) by (vm_compute; reflexivity).
  vm_compute. reflexivity.
Defined.

(** C4 fails as stated: over [pagedStore] the driver does not run
    [cleanUploadFolders] on the repository prefixes [repoA/] and [repoB/];
    it runs it on the registry root, once per page, and not at all in a
    dry run. *)
Lemma driver_does_not_run_folder_reaper_per_prefix :
  let live := main (exampleOpts 3 false) 10 pagedStore in
  let dry := main (exampleOpts 3 true) 10 pagedStore in
  result live = Done tt /\ result dry = Done tt /\
  reaperCalls (trace live) <>
    flat_map (reapersPerPrefix (exampleOpts 3 false)) (rootPages (trace live)) /\
  reaperCalls (trace dry) <>
    flat_map (reapersPerPrefix (exampleOpts 3 true)) (rootPages (trace dry)) /\
  ~ In (InCleanUploadFolders "registry" (repos ++ "repoA/")%string)
       (reaperCalls (trace live)).
Proof.
  cbv zeta. repeat apply conj; try (vm_compute; reflexivity).
  - vm_compute. discriminate.
  - vm_compute. discriminate.
  - vm_compute. intuition discriminate.
Qed.

(** ** What [removeUploadFolder] deletes (C9) *)

(** The prefix [removeUploadFolder] lists, line 191-192. *)
Definition uploadsFolderOf (key : string) : string :=
  strings.Join (removelast (strings.Split key "/")) "/".

(** The listing calls of a run, each with the store's answer. *)
Definition listings (tr : list Event)
  : list (ListObjectsV2Input.t * ListObjectsV2Output.t * option error) :=
  flat_map (fun e => match e with
                     | ListObjectsV2Call i o err => [(i, o, err)]
                     | _ => []
                     end) tr.

Definition hasSlash (s : string) : bool := strings.Contains s "/".

Lemma Split_nonempty s c : strings.Split s c <> [].
Proof.
  destruct s as [|a s]; simpl; [discriminate|].
  destruct (Ascii.eqb a c); [discriminate|].
  destruct (strings.Split s c); discriminate.
Qed.

Lemma Join_cons e rest sep :
  rest <> [] ->
  strings.Join (e :: rest) sep = (e ++ sep ++ strings.Join rest sep)%string.
Proof. destruct rest; [now intros []|reflexivity]. Qed.

Lemma Join_Split s : strings.Join (strings.Split s "/") "/" = s.
Proof.
  induction s as [|a s IH]; [reflexivity|].
  simpl strings.Split. destruct (Ascii.eqb a "/") eqn:Ea.
  - apply Ascii.eqb_eq in Ea. subst a.
    rewrite Join_cons by apply Split_nonempty. now rewrite IH.
  - pose proof (Split_nonempty s "/") as Hne.
    destruct (strings.Split s "/") as [|p ps]; [now elim Hne|].
    destruct ps as [|q ps].
    + simpl in *. now rewrite IH.
    + rewrite Join_cons in * by discriminate. now rewrite <- IH.
Qed.

Lemma hasSlash_cons a p :
  Ascii.eqb a "/" = false -> hasSlash (String a p) = hasSlash p.
Proof.
  intros Ea. unfold hasSlash. simpl. now rewrite Ea.
Qed.

Lemma Split_noSlash s : Forall (fun p => hasSlash p = false) (strings.Split s "/").
Proof.
  induction s as [|a s IH]; [now repeat constructor|].
  simpl strings.Split. destruct (Ascii.eqb a "/") eqn:Ea.
  - constructor; [reflexivity | exact IH].
  - destruct (strings.Split s "/") as [|p ps].
    + repeat constructor. now rewrite hasSlash_cons.
    + inversion IH as [|? ? Hp Hps]; subst. constructor; [|exact Hps].
      now rewrite hasSlash_cons.
Qed.

Lemma append_assoc (a b c : string) :
  ((a ++ b) ++ c = a ++ (b ++ c))%string.
Proof. induction a as [|x a IH]; simpl; [reflexivity | now rewrite IH]. Qed.

Lemma Join_snoc l x :
  l <> [] ->
  strings.Join (l ++ [x]) "/" = (strings.Join l "/" ++ "/" ++ x)%string.
Proof.
  induction l as [|a l IH]; [now intros []|]. intros _.
  destruct l as [|b l]; [reflexivity|].
  change ((a :: b :: l) ++ [x]) with (a :: ((b :: l) ++ [x])).
  rewrite Join_cons by (destruct l; discriminate).
  rewrite IH by discriminate.
  rewrite (Join_cons a (b :: l)) by discriminate.
  now rewrite !append_assoc.
Qed.

(** [uploadsFolderOf] drops the last [/]-delimited segment of the key:
    the key is that prefix, a [/], and a segment without [/]. *)
Lemma uploadsFolderOf_drops_last_segment key :
  hasSlash key = true ->
  exists segment,
    hasSlash segment = false /\
    key = (uploadsFolderOf key ++ "/" ++ segment)%string.
Proof.
  intros Hs. unfold uploadsFolderOf.
  pose proof (Split_nonempty key "/") as Hne.
  pose proof (Split_noSlash key) as Hno.
  pose proof (Join_Split key) as Hj.
  rewrite (app_removelast_last EmptyString Hne) in Hj, Hno.
  apply Forall_app in Hno. destruct Hno as [_ Hlast].
  inversion Hlast as [|? ? Hseg _]; subst.
  exists (last (strings.Split key "/") EmptyString). split; [exact Hseg|].
  destruct (removelast (strings.Split key "/")) as [|a l] eqn:E.
  - simpl in Hj. rewrite Hj in Hseg. congruence.
  - rewrite Join_snoc in Hj by discriminate. now symmetry.
Qed.

Example uploadsFolderOf_marker :
  uploadsFolderOf "repoA/_uploads/abc123/startedat" = "repoA/_uploads/abc123".
Proof. reflexivity. Qed.

Lemma listings_app tr tr' : listings (tr ++ tr') = listings tr ++ listings tr'.
Proof. apply flat_map_app. Qed.

Lemma deleted_app tr tr' : deleted (tr ++ tr') = deleted tr ++ deleted tr'.
Proof. apply flat_map_app. Qed.

Lemma aborts_app tr tr' : aborts (tr ++ tr') = aborts tr ++ aborts tr'.
Proof. apply flat_map_app. Qed.

Section Removal.

Context {St : Type} {s : S3 St}.

Lemma removeObject_run bucket i o u st :
  let r := removeObject bucket i o u st in
  listings (trace r) = [] /\ fetched (trace r) = [] /\ aborts (trace r) = [] /\
  deleted (trace r) = [Object.Key o] /\
  final r = snd (DeleteObject {| DeleteObjectInput.Bucket := Some bucket;
                                 DeleteObjectInput.Key := Object.Key o |} st).
Proof.
  cbv zeta. unfold removeObject.
  match goal with |- context [callDeleteObject ?x] => set (d := x) end.
  destruct (DeleteObject d st) as [e st1] eqn:E.
  erewrite (bind_Done (callDeleteObject d) _ st e st1)
    by (unfold callDeleteObject; rewrite E; reflexivity).
  destruct e as [e|]; [now repeat split|].
  destruct (Object.Key o); now repeat split.
Qed.

Lemma forRange_removeObject_run bucket os :
  forall i u st,
  let r := forRange (removeObject bucket) i os u st in
  listings (trace r) = [] /\ fetched (trace r) = [] /\ aborts (trace r) = [] /\
  exists rest,
    map Object.Key os = deleted (trace r) ++ rest /\
    (result r = Done tt -> rest = []).
Proof.
  induction os as [|o os IH]; intros i u st.
  - repeat split. now exists [].
  - cbv zeta. cbn [forRange]. rewrite trace_bind, result_bind.
    destruct (removeObject_run bucket i o u st) as (Hl & Hf & Ha & Hd & _).
    rewrite listings_app, fetched_app, aborts_app, deleted_app, Hl, Hf, Ha, Hd.
    destruct (result (removeObject bucket i o u st)) as [u'| |].
    + destruct (IH (i + 1) u' (final (removeObject bucket i o u st)))
        as (Hl' & Hf' & Ha' & rest & Hr & Hdone).
      rewrite Hl', Hf', Ha'. repeat split.
      exists rest. cbn [map app]. now rewrite Hr.
    + repeat split. exists (map Object.Key os). split; [reflexivity|discriminate].
    + repeat split. exists (map Object.Key os). split; [reflexivity|discriminate].
Qed.

Lemma removeUploadFolder_run bucket key st :
  let i := {| ListObjectsV2Input.Bucket := Some bucket;
              ListObjectsV2Input.Prefix := Some (uploadsFolderOf key);
              ListObjectsV2Input.MaxKeys := None;
              ListObjectsV2Input.ContinuationToken := None |} in
  let o := fst (fst (ListObjectsV2 i st)) in
  let e := snd (fst (ListObjectsV2 i st)) in
  let r := removeUploadFolder bucket key st in
  listings (trace r) = [(i, o, e)] /\
  fetched (trace r) = [] /\ aborts (trace r) = [] /\
  (exists rest,
     map Object.Key (ListObjectsV2Output.Contents o) = deleted (trace r) ++ rest /\
     (result r = Done tt -> rest = [])) /\
  (result r = Done tt -> e = None).
Proof.
  cbv zeta. unfold removeUploadFolder. fold (uploadsFolderOf key).
  rewrite (bind_Done _ _ st tt st [Enter (InRemoveUploadFolder bucket key)])
    by reflexivity.
  match goal with |- context [callListObjectsV2 ?x] => set (i := x) end.
  destruct (ListObjectsV2 i st) as [[o e] st1] eqn:E.
  erewrite (bind_Done (callListObjectsV2 i) _ st (o, e) st1)
    by (unfold callListObjectsV2; rewrite E; reflexivity).
  cbn [result final trace fst snd].
  rewrite !listings_app, !fetched_app, !aborts_app, !deleted_app.
  destruct e as [e|].
  - repeat split; try discriminate. eexists. split; [reflexivity|discriminate].
  - destruct (forRange_removeObject_run bucket (ListObjectsV2Output.Contents o)
                0 tt st1) as (Hl & Hf & Ha & Hrest).
    cbv zeta in Hl, Hf, Ha, Hrest. now rewrite Hl, Hf, Ha.
Qed.

End Removal.

(** On the store: a delete touches one key, a listing holds keys under
    its prefix only. *)

Lemma find_filter {A} (f g : A -> bool) l :
  (forall x, f x = true -> g x = true) -> find f (filter g l) = find f l.
Proof.
  intros H. induction l as [|a l IH]; [reflexivity|].
  simpl. destruct (f a) eqn:Ef.
  - rewrite (H a Ef). simpl. now rewrite Ef.
  - destruct (g a); simpl; [now rewrite Ef | exact IH].
Qed.

Lemma lookup_deleteObject bucket k' (st : Store.t) k :
  k <> k' ->
  Store.lookup
    (snd (Store.deleteObject {| DeleteObjectInput.Bucket := bucket;
                                DeleteObjectInput.Key := Some k' |} st)) k =
  Store.lookup st k.
Proof.
  intros Hne. unfold Store.deleteObject, Store.lookup. cbn.
  rewrite find_filter; [reflexivity|].
  intros [k0 v]. cbn. intros Hk. apply String.eqb_eq in Hk. subst k0.
  apply Bool.negb_true_iff. now apply String.eqb_neq.
Qed.

Lemma In_firstn {A} (x : A) n l : In x (firstn n l) -> In x l.
Proof.
  revert l. induction n as [|n IH]; intros [|a l]; simpl; try tauto.
  intros [->|H]; auto.
Qed.

Lemma listObjectsV2_under_prefix i (st : Store.t) k :
  In (Some k)
     (map Object.Key
        (ListObjectsV2Output.Contents (fst (fst (Store.listObjectsV2 i st))))) ->
  strings.HasPrefix k (Store.orEmpty (ListObjectsV2Input.Prefix i)) = true /\
  Store.lookup st k <> None.
Proof.
  unfold Store.listObjectsV2. cbn. rewrite map_map. cbn.
  rewrite in_map_iff. intros (k0 & [= ->] & Hin).
  apply In_firstn in Hin. apply filter_In in Hin. destruct Hin as [Hin _].
  unfold Store.keysUnder in Hin. apply filter_In in Hin.
  destruct Hin as [Hin Hp]. split; [exact Hp|].
  unfold Store.lookup. apply in_map_iff in Hin.
  destruct Hin as ([k1 v] & Hk & Hin). cbn in Hk. subst k1.
  destruct (find _ _) eqn:Ef; [discriminate|].
  apply (find_none _ _ Ef) in Hin. cbn in Hin.
  now rewrite String.eqb_refl in Hin.
Qed.

Lemma removeObject_uploads bucket i o u (st : Store.t) :
  Store.uploads (final (removeObject bucket i o u st)) = Store.uploads st.
Proof.
  destruct (removeObject_run bucket i o u st) as (_ & _ & _ & _ & Hf).
  cbv zeta in Hf. rewrite Hf. cbn. now destruct (Object.Key o).
Qed.

Lemma forRange_removeObject_uploads bucket os :
  forall i u (st : Store.t),
  Store.uploads (final (forRange (removeObject bucket) i os u st)) =
  Store.uploads st.
Proof.
  induction os as [|o os IH]; intros i u st; [reflexivity|].
  cbn [forRange]. rewrite final_bind.
  pose proof (removeObject_uploads bucket i o u st) as H1.
  destruct (result (removeObject bucket i o u st)); auto.
  now rewrite IH.
Qed.

Lemma forRange_removeObject_frame bucket os :
  forall i u (st : Store.t) k,
  ~ In (Some k) (map Object.Key os) ->
  Store.lookup (final (forRange (removeObject bucket) i os u st)) k =
  Store.lookup st k.
Proof.
  induction os as [|o os IH]; intros i u st k Hk; [reflexivity|].
  cbn [forRange]. rewrite final_bind.
  destruct (removeObject_run bucket i o u st) as (_ & _ & _ & _ & Hf).
  cbv zeta in Hf.
  assert (H1 : Store.lookup (final (removeObject bucket i o u st)) k =
               Store.lookup st k).
  { rewrite Hf. cbn [DeleteObject StoreS3].
    destruct (Object.Key o) as [k'|] eqn:Ek; [|reflexivity].
    apply lookup_deleteObject. intros ->. apply Hk. left. exact Ek. }
  destruct (result (removeObject bucket i o u st)); try exact H1.
  rewrite IH; [exact H1|]. intros H. apply Hk. now right.
Qed.

(** On the store, [removeUploadFolder] is the loop over the one page. *)
Lemma removeUploadFolder_final bucket key (st : Store.t) :
  let i := {| ListObjectsV2Input.Bucket := Some bucket;
              ListObjectsV2Input.Prefix := Some (uploadsFolderOf key);
              ListObjectsV2Input.MaxKeys := None;
              ListObjectsV2Input.ContinuationToken := None |} in
  final (removeUploadFolder bucket key st) =
  final (forRange (removeObject bucket) 0
           (ListObjectsV2Output.Contents (fst (fst (Store.listObjectsV2 i st))))
           tt st).
Proof.
  cbv zeta. unfold removeUploadFolder. fold (uploadsFolderOf key).
  rewrite (bind_Done _ _ st tt st [Enter (InRemoveUploadFolder bucket key)])
    by reflexivity.
  match goal with |- context [callListObjectsV2 ?x] => set (i := x) in * end.
  erewrite (bind_Done (callListObjectsV2 i) _ st
              (fst (fst (Store.listObjectsV2 i st)), None) st)
    by reflexivity.
  reflexivity.
Qed.

Lemma removeUploadFolder_frame bucket key (st : Store.t) k :
  let i := {| ListObjectsV2Input.Bucket := Some bucket;
              ListObjectsV2Input.Prefix := Some (uploadsFolderOf key);
              ListObjectsV2Input.MaxKeys := None;
              ListObjectsV2Input.ContinuationToken := None |} in
  ~ In (Some k)
       (map Object.Key
          (ListObjectsV2Output.Contents (fst (fst (Store.listObjectsV2 i st))))) ->
  Store.lookup (final (removeUploadFolder bucket key st)) k = Store.lookup st k.
Proof.
  cbv zeta. intros Hk. rewrite removeUploadFolder_final.
  now apply forRange_removeObject_frame.
Qed.

(** C9.  [removeUploadFolder] makes one listing call, for the marker key
    without its last [/]-delimited segment, naming no page size and no
    continuation token, and then deletes keys of the answer, in order: all
    of them when it returns, the first ones when a delete fails.  It reads
    no object and aborts no upload.  On the store, an object whose key is
    not in that one answer is as it was afterwards: the objects under the
    prefix that the first page did not hold, and every object outside the
    prefix; the uploads are as they were. *)
Theorem removeUploadFolder_deletes_only_the_first_page :
  (forall St (s : S3 St) bucket key (st : St),
     let i := {| ListObjectsV2Input.Bucket := Some bucket;
                 ListObjectsV2Input.Prefix := Some (uploadsFolderOf key);
                 ListObjectsV2Input.MaxKeys := None;
                 ListObjectsV2Input.ContinuationToken := None |} in
     let o := fst (fst (ListObjectsV2 i st)) in
     let e := snd (fst (ListObjectsV2 i st)) in
     let r := removeUploadFolder bucket key st in
     listings (trace r) = [(i, o, e)] /\
     fetched (trace r) = [] /\ aborts (trace r) = [] /\
     (exists rest,
        map Object.Key (ListObjectsV2Output.Contents o) = deleted (trace r) ++ rest /\
        (result r = Done tt -> rest = [])) /\
     (result r = Done tt -> e = None)) /\
  (forall key, hasSlash key = true ->
     exists segment, hasSlash segment = false /\
                     key = (uploadsFolderOf key ++ "/" ++ segment)%string) /\
  (forall bucket key (st : Store.t),
     let i := {| ListObjectsV2Input.Bucket := Some bucket;
                 ListObjectsV2Input.Prefix := Some (uploadsFolderOf key);
                 ListObjectsV2Input.MaxKeys := None;
                 ListObjectsV2Input.ContinuationToken := None |} in
     let page := map Object.Key
                   (ListObjectsV2Output.Contents
                      (fst (fst (Store.listObjectsV2 i st)))) in
     let r := removeUploadFolder bucket key st in
     (forall k, ~ In (Some k) page ->
        Store.lookup (final r) k = Store.lookup st k) /\
     (forall k, strings.HasPrefix k (uploadsFolderOf key) = false ->
        Store.lookup (final r) k = Store.lookup st k) /\
     Store.uploads (final r) = Store.uploads st).
Proof.
  repeat apply conj.
  - intros. apply removeUploadFolder_run.
  - apply uploadsFolderOf_drops_last_segment.
  - intros bucket key st. cbv zeta. repeat apply conj.
    + intros k Hk. now apply removeUploadFolder_frame.
    + intros k Hk. apply removeUploadFolder_frame. intros Hin.
      apply listObjectsV2_under_prefix in Hin. cbn in Hin.
      destruct Hin as [Hin _]. congruence.
    + rewrite removeUploadFolder_final. apply forRange_removeObject_uploads.
Qed.

(** On [pagedStore] the store serves one key per page: the one listing of
    [removeUploadFolder] holds [a1/data] only, and the marker, under the
    same prefix, stays. *)
Lemma removeUploadFolder_deletes_only_the_first_page_witness :
  let key := (repos ++ "repoA/_uploads/a1/startedat")%string in
  strings.HasPrefix key (uploadsFolderOf key) = true /\
  deleted (trace (removeUploadFolder "registry" key pagedStore)) =
    [Some (repos ++ "repoA/_uploads/a1/data")%string] /\
  Store.lookup (final (removeUploadFolder "registry" key pagedStore)) key =
    Some "2024-01-01T00:00:00Z".
Proof.
  cbv zeta. split; [reflexivity|]. split; [vm_compute; reflexivity|].
  rewrite (proj1 (proj2 (proj2 removeUploadFolder_deletes_only_the_first_page)
                    "registry" (repos ++ "repoA/_uploads/a1/startedat")%string
                    pagedStore)).
  - reflexivity.
  - vm_compute. intros [H|[]]. discriminate.
Defined.

(** ** Read before delete (C6) *)

(** Two upload folders whose names share a prefix: [a], started ten hours
    ago, and [ab], started half an hour ago. *)
Definition collisionStore : Store.t :=
  {| Store.objects :=
       [ ((repos ++ "repoA/_uploads/a/startedat")%string, "2024-01-01T00:00:00Z");
         ((repos ++ "repoA/_uploads/ab/data")%string, "blob");
         ((repos ++ "repoA/_uploads/ab/startedat")%string, "2024-01-01T09:30:00Z") ];
     Store.uploads := [];
     Store.clock := exampleNow;
     Store.pageSize := 1000;
     Store.abortDenied := [];
     Store.lastKeyMarker := true |}.

(** The keys a run reads with [GetObject], with the outcome of each call. *)
Definition fetches (tr : list Event) : list (option string * option error) :=
  flat_map (fun e => match e with
                     | GetObjectCall i _ err => [(GetObjectInput.Key i, err)]
                     | _ => []
                     end) tr.

(** The calls to the store that read or delete objects, in order. *)
Inductive Access := Fetch (key : option string) | Delete (key : option string).

Definition accesses (tr : list Event) : list Access :=
  flat_map (fun e => match e with
                     | GetObjectCall i _ _ => [Fetch (GetObjectInput.Key i)]
                     | DeleteObjectCall i _ => [Delete (DeleteObjectInput.Key i)]
                     | _ => []
                     end) tr.

(** C6 on the code: with a threshold of three hours, the marker of [a] is
    fetched and found ten hours old; [removeUploadFolder] then lists the
    prefix [.../_uploads/a], which has no trailing [/] and so holds the
    keys of [ab] as well, and deletes them.  The marker of [ab], half an
    hour old, is deleted before it is ever read; the later attempt to read
    it finds no such key. *)
Lemma removeUploadFolder_deletes_sibling_folder :
  let a := (repos ++ "repoA/_uploads/a/startedat")%string in
  let ab_data := (repos ++ "repoA/_uploads/ab/data")%string in
  let ab := (repos ++ "repoA/_uploads/ab/startedat")%string in
  let r := cleanUploadFolders (exampleOpts 3 false) 5 "registry" repos
             collisionStore in
  result r = Done tt /\
  accesses (trace r) =
    [Fetch (Some a); Delete (Some a); Delete (Some ab_data); Delete (Some ab);
     Fetch (Some ab)] /\
  fetches (trace r) = [(Some a, None); (Some ab, Some "NoSuchKey")] /\
  selectedMarkers (trace r) = [a] /\
  Store.objects (final r) = [] /\
  time.hoursSince exampleNow
    (fst (parseTimeFromStream {| data := "2024-01-01T09:30:00Z"; readErr := None |}))
  = 0.
Proof. vm_compute. repeat split. Qed.

(** ** The timestamp of a marker (C8) *)

(** The text of the spec's format, [YYYY-MM-DDTHH:MM:SSZ]: the fields in
    decimal, zero-padded to four and two digits.  This follows the words of
    the spec; [main.go] only parses. *)
Definition digitChar (n : Z) : ascii := ascii_of_N (Z.to_N (48 + n)).

Definition pad2 (n : Z) (rest : string) : string :=
  String (digitChar (n / 10)) (String (digitChar (n mod 10)) rest).

Definition pad4 (n : Z) (rest : string) : string :=
  String (digitChar (n / 1000))
    (String (digitChar (n / 100 mod 10)) (pad2 (n mod 100) rest)).

Definition formatStartedAt (y mo d h mi s : Z) : string :=
  pad4 y (String "-" (pad2 mo (String "-" (pad2 d (String "T"
    (pad2 h (String ":" (pad2 mi (String ":" (pad2 s "Z")))))))))).

(** The fields of a date and time of day that the format can express. *)
Definition validFields (y mo d h mi s : Z) : Prop :=
  0 <= y <= 9999 /\ 1 <= mo <= 12 /\ 1 <= d <= time.daysIn mo y /\
  0 <= h < 24 /\ 0 <= mi < 60 /\ 0 <= s < 60.

Definition stream (value : string) : Reader :=
  {| data := value; readErr := None |}.

Example formatStartedAt_example :
  formatStartedAt 2024 1 2 3 4 5 = "2024-01-02T03:04:05Z".
Proof. reflexivity. Qed.

Lemma digitChar_digit n :
  0 <= n <= 9 ->
  time.isDigit (digitChar n) = true /\ time.digit (digitChar n) = n.
Proof.
  intros H. rewrite <- (Z2Nat.id n) by lia.
  destruct (Z.to_nat n) as [|[|[|[|[|[|[|[|[|[|k]]]]]]]]]] eqn:E;
    try (now split).
  lia.
Qed.

Ltac div_lia := Z.to_euclidean_division_equations; lia.

Lemma getnum_pad2 n rest fixed :
  0 <= n < 100 -> time.getnum (pad2 n rest) fixed = Some (n, rest).
Proof.
  intros H. unfold pad2, time.getnum.
  destruct (digitChar_digit (n / 10)) as [-> ->]; [div_lia|].
  destruct (digitChar_digit (n mod 10)) as [-> ->]; [div_lia|].
  do 2 f_equal. div_lia.
Qed.

Lemma getyear_pad4 n rest :
  0 <= n <= 9999 -> time.getyear (pad4 n rest) = Some (n, rest).
Proof.
  intros H. unfold pad4, pad2, time.getyear.
  destruct (digitChar_digit (n / 1000)) as [-> ->]; [div_lia|].
  destruct (digitChar_digit (n / 100 mod 10)) as [-> ->]; [div_lia|].
  destruct (digitChar_digit (n mod 100 / 10)) as [-> ->]; [div_lia|].
  destruct (digitChar_digit (n mod 100 mod 10)) as [-> ->]; [div_lia|].
  cbn [andb]. do 2 f_equal. div_lia.
Qed.

Lemma chunks_startedadDateFormat :
  time.chunks startedadDateFormat =
  [time.stdLongYear; time.literal "-"; time.stdZeroMonth; time.literal "-";
   time.stdZeroDay; time.literal "T"; time.stdHour; time.literal ":";
   time.stdZeroMinute; time.literal ":"; time.stdZeroSecond; time.literal "Z"].
Proof. reflexivity. Qed.

Lemma orb_false_lia a b : a = false -> b = false -> a || b = false.
Proof. now intros -> ->. Qed.

Lemma Parse_formatStartedAt y mo d h mi s :
  validFields y mo d h mi s ->
  time.Parse startedadDateFormat (formatStartedAt y mo d h mi s) =
  (time.Date y mo d h mi s 0, None).
Proof.
  intros (Hy & Hmo & Hd & Hh & Hmi & Hs).
  unfold time.Parse. rewrite chunks_startedadDateFormat.
  unfold formatStartedAt. cbn [time.parseChunks].
  rewrite getyear_pad4 by lia. cbn [Ascii.eqb Bool.eqb].
  rewrite getnum_pad2 by lia.
  rewrite (orb_false_lia (mo <=? 0) (12 <? mo)) by lia.
  cbn [Ascii.eqb Bool.eqb]. rewrite getnum_pad2.
  2:{ assert (time.daysIn mo y <= 31); [|lia].
      unfold time.daysIn. destruct ((mo =? 2) && time.isLeap y); [lia|].
      rewrite <- (Z2Nat.id mo) by lia.
      destruct (Z.to_nat mo) as [|[|[|[|[|[|[|[|[|[|[|[|[|k]]]]]]]]]]]]] eqn:E;
        try (vm_compute; discriminate).
      lia. }
  cbn [Ascii.eqb Bool.eqb]. rewrite getnum_pad2 by lia.
  rewrite (orb_false_lia (h <? 0) (24 <=? h)) by lia.
  cbn [Ascii.eqb Bool.eqb]. rewrite getnum_pad2 by lia.
  rewrite (orb_false_lia (mi <? 0) (60 <=? mi)) by lia.
  cbn [Ascii.eqb Bool.eqb]. rewrite getnum_pad2 by lia.
  rewrite (orb_false_lia (s <? 0) (60 <=? s)) by lia.
  cbn [time.fraction Ascii.eqb Bool.eqb String.eqb].
  cbn [time.year time.month time.day time.hour time.min time.sec time.nsec].
  replace (mo <? 0) with false by lia.
  replace (d <? 0) with false by lia.
  rewrite (orb_false_lia (d <? 1) (time.daysIn mo y <? d)) by lia.
  reflexivity.
Qed.

Lemma HasSuffix_cons c s suffix :
  strings.HasSuffix s suffix = true ->
  strings.HasSuffix (String c s) suffix = true.
Proof.
  unfold strings.HasSuffix. intros H. apply andb_true_iff in H.
  destruct H as [Hlen Hsub]. apply Nat.leb_le in Hlen.
  apply andb_true_iff. split.
  - apply Nat.leb_le. simpl. lia.
  - simpl String.length.
    replace (S (String.length s) - String.length suffix)%nat
      with (S (String.length s - String.length suffix)) by lia.
    exact Hsub.
Qed.

Lemma HasSuffix_app pre s suffix :
  strings.HasSuffix s suffix = true ->
  strings.HasSuffix (pre ++ s) suffix = true.
Proof.
  intros H. induction pre as [|c pre IH]; [exact H|].
  simpl. now apply HasSuffix_cons.
Qed.

Lemma leadingDigits_rest n acc s v k rest :
  time.leadingDigits n acc s = (v, k, rest) ->
  exists ds, s = (ds ++ rest)%string.
Proof.
  revert acc s v k rest.
  induction n as [|n IH]; intros acc s v k rest; simpl.
  - destruct s; intros [= <- <- <-]; now exists EmptyString.
  - destruct s as [|c s]; [intros [= <- <- <-]; now exists EmptyString|].
    destruct (time.isDigit c); [|intros [= <- <- <-]; now exists EmptyString].
    destruct (time.leadingDigits n (acc * 10 + time.digit c) s)
      as [[v' k'] rest'] eqn:E.
    intros [= <- <- <-]. apply IH in E. destruct E as [ds ->].
    now exists (String c ds).
Qed.

Lemma fraction_rest s ns rest :
  time.fraction s = Some (ns, rest) ->
  exists pre, s = (pre ++ rest)%string.
Proof.
  unfold time.fraction.
  destruct s as [|c0 [|c1 s2]]; try discriminate.
  destruct (time.commaOrPeriod c0 && time.isDigit c1); [|discriminate].
  destruct (time.leadingDigits _ 0 (String c1 s2)) as [[v k] r] eqn:E.
  destruct (time.leadingDigits 9 0 (String c1 s2)) as [[v9 k9] r9].
  intros [= <- <-]. apply leadingDigits_rest in E. destruct E as [ds E].
  exists (String c0 ds). simpl. now rewrite E.
Qed.

Lemma getyear_inv v y rest :
  time.getyear v = Some (y, rest) ->
  exists c0 c1 c2 c3, v = String c0 (String c1 (String c2 (String c3 rest))).
Proof.
  unfold time.getyear. destruct v as [|c0 [|c1 [|c2 [|c3 r]]]]; try discriminate.
  destruct (_ && _); [|discriminate]. intros [= <- <-]. eauto.
Qed.

Lemma getnum_fixed_inv v n rest :
  time.getnum v true = Some (n, rest) ->
  exists c0 c1, v = String c0 (String c1 rest).
Proof.
  unfold time.getnum. destruct v as [|c0 [|c1 r]]; try discriminate.
  - destruct (time.isDigit c0); discriminate.
  - destruct (time.isDigit c0); [|discriminate].
    destruct (time.isDigit c1); [|discriminate]. intros [= <- <-]. eauto.
Qed.

Lemma getnum_inv v n rest :
  time.getnum v false = Some (n, rest) ->
  (exists c0 c1, v = String c0 (String c1 rest)) \/
  (exists c0, v = String c0 rest).
Proof.
  unfold time.getnum. destruct v as [|c0 [|c1 r]]; try discriminate.
  - destruct (time.isDigit c0); [|discriminate]. intros [= <- <-]. eauto.
  - destruct (time.isDigit c0); [|discriminate].
    destruct (time.isDigit c1); intros [= <- <-]; eauto.
Qed.

(** A value that parses has the separators of the layout where the layout
    has them, the second colon three bytes after the first, and ends in
    [Z]. *)
Lemma Parse_success_shape value t :
  time.Parse startedadDateFormat value = (t, None) ->
  String.get 4 value = Some "-"%char /\
  String.get 7 value = Some "-"%char /\
  String.get 10 value = Some "T"%char /\
  (exists k, (k = 12 \/ k = 13)%nat /\
             String.get k value = Some ":"%char /\
             String.get (k + 3) value = Some ":"%char) /\
  strings.HasSuffix value "Z" = true.
Proof.
  unfold time.Parse. rewrite chunks_startedadDateFormat.
  destruct (time.parseChunks _ value _) as [f|e] eqn:E; [|discriminate].
  intros _. revert E. cbn [time.parseChunks].
  destruct (time.getyear value) as [[y v1]|] eqn:E1; [|discriminate].
  apply getyear_inv in E1. destruct E1 as (c0 & c1 & c2 & c3 & ->).
  destruct v1 as [|s1 v1]; [discriminate|].
  destruct (Ascii.eqb_spec s1 "-"); [subst s1|discriminate].
  destruct (time.getnum v1 true) as [[mo v2]|] eqn:E2; [|discriminate].
  apply getnum_fixed_inv in E2. destruct E2 as (m0 & m1 & ->).
  destruct (_ || _); [discriminate|].
  destruct v2 as [|s2 v2]; [discriminate|].
  destruct (Ascii.eqb_spec s2 "-"); [subst s2|discriminate].
  destruct (time.getnum v2 true) as [[d v3]|] eqn:E3; [|discriminate].
  apply getnum_fixed_inv in E3. destruct E3 as (d0 & d1 & ->).
  destruct v3 as [|s3 v3]; [discriminate|].
  destruct (Ascii.eqb_spec s3 "T"); [subst s3|discriminate].
  destruct (time.getnum v3 false) as [[h v4]|] eqn:E4; [|discriminate].
  destruct (_ || _); [discriminate|].
  destruct v4 as [|s4 v4]; [discriminate|].
  destruct (Ascii.eqb_spec s4 ":"); [subst s4|discriminate].
  destruct (time.getnum v4 true) as [[mi v5]|] eqn:E5; [|discriminate].
  apply getnum_fixed_inv in E5. destruct E5 as (i0 & i1 & ->).
  destruct (_ || _); [discriminate|].
  destruct v5 as [|s5 v5]; [discriminate|].
  destruct (Ascii.eqb_spec s5 ":"); [subst s5|discriminate].
  destruct (time.getnum v5 true) as [[s v6]|] eqn:E6; [|discriminate].
  apply getnum_fixed_inv in E6. destruct E6 as (e0 & e1 & ->).
  destruct (_ || _); [discriminate|].
  intros E.
  assert (Hz : strings.HasSuffix v6 "Z" = true).
  { destruct (time.fraction v6) as [[ns v7]|] eqn:E7.
    - apply fraction_rest in E7. destruct E7 as [pre ->].
      apply HasSuffix_app.
      destruct v7 as [|z v7]; [discriminate|].
      destruct (Ascii.eqb_spec z "Z"); [subst z|discriminate].
      destruct v7; [reflexivity|discriminate].
    - destruct v6 as [|z v6]; [discriminate|].
      destruct (Ascii.eqb_spec z "Z"); [subst z|discriminate].
      destruct v6; [reflexivity|discriminate]. }
  clear E.
  apply getnum_inv in E4. destruct E4 as [(h0 & h1 & ->)|(h0 & ->)].
  - do 3 (split; [reflexivity|]).
    split; [exists 13%nat; split; [now right | split; reflexivity]|].
    now repeat apply HasSuffix_cons.
  - do 3 (split; [reflexivity|]).
    split; [exists 12%nat; split; [now left | split; reflexivity]|].
    now repeat apply HasSuffix_cons.
Qed.

(** A string that is not the text of any fields in the format. *)
Definition malformed (value : string) : Prop :=
  forall y mo d h mi s, value <> formatStartedAt y mo d h mi s.

Lemma length_formatStartedAt y mo d h mi s :
  String.length (formatStartedAt y mo d h mi s) = 20%nat.
Proof. reflexivity. Qed.

Lemma malformed_length value : String.length value <> 20%nat -> malformed value.
Proof.
  intros H y mo d h mi s ->. now rewrite length_formatStartedAt in H.
Qed.

(** C8, as the code has it.  The text of valid fields in the format
    [YYYY-MM-DDTHH:MM:SSZ] parses back to the instant of those fields.  A
    value that parses has [-] after the year and the month, [T] after the
    day, [:] before and after the minutes, and ends in [Z]: a value without
    the [Z] or with another separator is a parse error.  (But not every
    string outside the format is: [time.Parse] takes an hour of one digit
    and a fractional second.) *)
Theorem parseTimeFromStream_inverts_the_format :
  (forall y mo d h mi s,
     validFields y mo d h mi s ->
     parseTimeFromStream (stream (formatStartedAt y mo d h mi s)) =
     (time.Date y mo d h mi s 0, None)) /\
  (forall value t,
     parseTimeFromStream (stream value) = (t, None) ->
     String.get 4 value = Some "-"%char /\
     String.get 7 value = Some "-"%char /\
     String.get 10 value = Some "T"%char /\
     (exists k, (k = 12 \/ k = 13)%nat /\
                String.get k value = Some ":"%char /\
                String.get (k + 3) value = Some ":"%char) /\
     strings.HasSuffix value "Z" = true).
Proof.
  split.
  - intros. now apply Parse_formatStartedAt.
  - intros value t. apply Parse_success_shape.
Qed.

Lemma parseTimeFromStream_inverts_the_format_witness :
  validFields 2024 1 2 3 4 5 /\
  parseTimeFromStream (stream "2024-01-02T03:04:05Z") =
  (time.Date 2024 1 2 3 4 5 0, None).
Proof.
  assert (H : validFields 2024 1 2 3 4 5) by (vm_compute; intuition discriminate).
  split; [exact H|].
  exact (proj1 parseTimeFromStream_inverts_the_format 2024 1 2 3 4 5 H).
Defined.

(** C8 fails as stated: these two strings are not in the format, one has
    a fractional second and one an hour of one digit, and both parse, the
    first to an instant half a second after the second. *)
Lemma parseTimeFromStream_accepts_malformed :
  malformed "2024-01-02T03:04:05.5Z" /\
  parseTimeFromStream (stream "2024-01-02T03:04:05.5Z") =
    (time.Date 2024 1 2 3 4 5 500000000, None) /\
  malformed "2024-01-02T3:04:05Z" /\
  parseTimeFromStream (stream "2024-01-02T3:04:05Z") =
    (time.Date 2024 1 2 3 4 5 0, None).
Proof.
  repeat apply conj; try (apply malformed_length; discriminate);
    vm_compute; reflexivity.
Qed.

(** * Further properties of the cleaner *)

(** ** Read before delete: what does hold *)

(** A step of the loop of [removeUploadFolder] over a listing of [keys]:
    the delete of one of the keys, or the line printed after it. *)
Definition removalOf (keys : list (option string)) (e : Event) : Prop :=
  match e with
  | DeleteObjectCall d _ => In (DeleteObjectInput.Key d) keys
  | Print (RemovingObject _) => True
  | _ => False
  end.

(** The events before a delete call license it: the marker [key] was
    fetched and parsed, line 175 printed an age of at least the threshold
    in a live run, [removeUploadFolder] was entered for the marker, its
    listing under [uploadsFolderOf key] held the key that is deleted, and
    nothing but deletes of keys of that listing happened since. *)
Definition licensed (opts : Options) (bucket : string) (before : list Event)
  (d : DeleteObjectInput.t) : Prop :=
  exists pre key obj h i o since,
    before = pre ++
      [ GetObjectCall {| GetObjectInput.Bucket := Some bucket;
                         GetObjectInput.Key := Some key |} obj None;
        Print (RemovingFolder key h);
        Enter (InRemoveUploadFolder bucket key);
        ListObjectsV2Call i o None ] ++ since /\
    isMarker key = true /\
    snd (parseTimeFromStream (GetObjectOutput.Body obj)) = None /\
    CleanupHours opts <= h /\ DryRun opts = false /\
    ListObjectsV2Input.Prefix i = Some (uploadsFolderOf key) /\
    In (DeleteObjectInput.Key d)
       (map Object.Key (ListObjectsV2Output.Contents o)) /\
    Forall (removalOf (map Object.Key (ListObjectsV2Output.Contents o))) since.

(** Every delete call of a trace is licensed by the events before it. *)
Definition deletesLicensed (opts : Options) (bucket : string)
  (tr : list Event) (_ : Outcome) : Prop :=
  forall tr1 d e tr2,
    tr = tr1 ++ DeleteObjectCall d e :: tr2 -> licensed opts bucket tr1 d.

Definition notDelete (e : Event) : Prop :=
  match e with DeleteObjectCall _ _ => False | _ => True end.

Lemma licensed_later opts bucket pre before d :
  licensed opts bucket before d -> licensed opts bucket (pre ++ before) d.
Proof.
  intros (p & key & obj & h & i & o & since & -> & H).
  exists (pre ++ p), key, obj, h, i, o, since.
  split; [now rewrite <- app_assoc | exact H].
Qed.

Lemma deletesLicensed_sequential opts bucket :
  sequential (deletesLicensed opts bucket).
Proof.
  split.
  - intros [|] ? ? ? H; discriminate.
  - intros t1 t2 o H1 H2 tr1 d e tr2 Htr.
    apply app_eq_app in Htr. destruct Htr as [l [[Ht1 Hl]|[Ht1 Hl]]].
    + destruct l as [|x l].
      * rewrite app_nil_r in Ht1. subst t1. simpl in Hl. symmetry in Hl.
        rewrite <- (app_nil_r tr1). apply licensed_later.
        now apply (H2 [] d e tr2).
      * injection Hl as <- ->. now apply (H1 tr1 d e l).
    + subst tr1. apply licensed_later. now apply (H2 l d e tr2).
Qed.

Lemma deletesLicensed_quiet opts bucket tr o :
  Forall notDelete tr -> deletesLicensed opts bucket tr o.
Proof.
  intros H tr1 d e tr2 ->. apply Forall_app in H. destruct H as [_ H].
  inversion H as [|? ? Hd _]. destruct Hd.
Qed.

Ltac licensed_step :=
  match goal with
  | |- ensures _ (bind _ _) =>
      apply (ensures_bind _ (deletesLicensed_sequential _ _)); [ | intros ]
  | |- ensures _ (forRange _ _ _ _) =>
      apply (ensures_forRange _ (deletesLicensed_sequential _ _)); intros
  | |- ensures _ (match ?x with _ => _ end) => destruct x
  | |- ensures _ (let '(_, _) := ?x in _) => destruct x
  | |- ensures _ _ =>
      solve [ apply (always_ensures _ notDelete);
              [ intros; now apply deletesLicensed_quiet
              | repeat always_step ] ]
  end.

Section ReadBeforeDelete.

Context {St : Type} {s : S3 St}.
Variable opts : Options.

Lemma hoursSinceUploadStarted_Done bucket key st h :
  result (hoursSinceUploadStarted bucket key st) = Done (h, None) ->
  let g := {| GetObjectInput.Bucket := Some bucket;
              GetObjectInput.Key := Some key |} in
  snd (fst (GetObject g st)) = None /\
  snd (parseTimeFromStream
         (GetObjectOutput.Body (fst (fst (GetObject g st))))) = None.
Proof.
  cbv zeta. unfold hoursSinceUploadStarted.
  rewrite (bind_Done _ _ st tt st [Enter (InHoursSinceUploadStarted bucket key)])
    by reflexivity.
  match goal with |- context [callGetObject ?x] => set (g := x) end.
  destruct (GetObject g st) as [[obj e] st1] eqn:E.
  erewrite (bind_Done (callGetObject g) _ st (obj, e) st1)
    by (unfold callGetObject; rewrite E; reflexivity).
  cbn [result final trace fst snd].
  destruct e; [discriminate|].
  destruct (parseTimeFromStream _) as [t [e|]]; [discriminate|].
  now split.
Qed.

Lemma removeUploadFolder_steps bucket key st :
  exists i o e since,
    trace (removeUploadFolder bucket key st) =
      Enter (InRemoveUploadFolder bucket key) ::
      ListObjectsV2Call i o e :: since /\
    ListObjectsV2Input.Prefix i = Some (uploadsFolderOf key) /\
    Forall (removalOf (map Object.Key (ListObjectsV2Output.Contents o))) since /\
    (e = None \/ since = []).
Proof.
  unfold removeUploadFolder. fold (uploadsFolderOf key).
  rewrite (bind_Done _ _ st tt st [Enter (InRemoveUploadFolder bucket key)])
    by reflexivity.
  match goal with |- context [callListObjectsV2 ?x] => set (i := x) end.
  destruct (ListObjectsV2 i st) as [[o e] st1] eqn:E.
  erewrite (bind_Done (callListObjectsV2 i) _ st (o, e) st1)
    by (unfold callListObjectsV2; rewrite E; reflexivity).
  cbn [result final trace app].
  exists i, o, e. eexists. split; [reflexivity|]. split; [reflexivity|].
  destruct e as [e|]; [split; [constructor | now right]|].
  split; [|now left].
  assert (H : always
                (removalOf (map Object.Key (ListObjectsV2Output.Contents o)))
                (forRange (removeObject bucket) 0
                   (ListObjectsV2Output.Contents o) tt)).
  { unfold removeObject. repeat always_step.
    cbn [removalOf DeleteObjectInput.Key]. now apply in_map. }
  apply H.
Qed.

Lemma cleanObject_licensed bucket i o u :
  ensures (deletesLicensed opts bucket) (cleanObject opts bucket i o u).
Proof.
  intro st. unfold cleanObject.
  destruct (Object.Key o) as [key|];
    [|apply deletesLicensed_quiet; constructor].
  rewrite (bind_Done _ _ st key st []) by reflexivity.
  cbn [result trace app]. fold (isMarker key).
  destruct (isMarker key) eqn:Hm;
    [|apply deletesLicensed_quiet; constructor].
  rewrite trace_bind, hoursSinceUploadStarted_trace.
  destruct (result (hoursSinceUploadStarted bucket key st))
    as [[h [err|]]| |] eqn:Hr;
    try solve [apply deletesLicensed_quiet; repeat constructor].
  apply hoursSinceUploadStarted_Done in Hr. cbv zeta in Hr.
  destruct Hr as [-> Hparse].
  destruct (CleanupHours opts <=? h) eqn:Hh;
    [|apply deletesLicensed_quiet; repeat constructor].
  rewrite (bind_Done _ _ _ tt _ [Print (RemovingFolder key h)]) by reflexivity.
  cbn [trace].
  destruct (DryRun opts) eqn:Hd;
    [apply deletesLicensed_quiet; repeat constructor|].
  cbn [negb].
  destruct (removeUploadFolder_steps bucket key
              (final (hoursSinceUploadStarted bucket key st)))
    as (li & lo & le & since & -> & Hp & Hs & He).
  intros tr1 d e tr2 Htr. cbn [app] in Htr.
  destruct tr1 as [|x1 [|x2 [|x3 [|x4 [|x5 tr1]]]]]; try discriminate.
  injection Htr as <- <- <- <- <- Htr. subst since.
  destruct He as [->|He]; [|now destruct tr1].
  apply Forall_app in Hs. destruct Hs as [Hs1 Hs2].
  exists [Enter (InHoursSinceUploadStarted bucket key)], key.
  do 2 eexists. exists li, lo, tr1.
  split; [reflexivity|]. repeat split; auto.
  - now apply Z.leb_le.
  - now inversion Hs2.
Qed.

Lemma cleanUploadFoldersLoop_licensed fuel bucket prefix token :
  ensures (deletesLicensed opts bucket)
    (cleanUploadFoldersLoop opts fuel bucket prefix token).
Proof.
  revert token. induction fuel as [|fuel IH]; intros; simpl;
    repeat licensed_step; auto using cleanObject_licensed.
Qed.

Lemma cleanUploadFolders_licensed fuel bucket prefix :
  ensures (deletesLicensed opts bucket)
    (cleanUploadFolders opts fuel bucket prefix).
Proof.
  unfold cleanUploadFolders. repeat licensed_step.
  apply cleanUploadFoldersLoop_licensed.
Qed.

Lemma cleanMPUs_licensed fuel bucket prefix :
  ensures (deletesLicensed opts (Bucket opts)) (cleanMPUs opts fuel bucket prefix).
Proof.
  apply (always_ensures _ notDelete);
    [intros; now apply deletesLicensed_quiet|].
  unfold cleanMPUs. repeat always_step.
  generalize EmptyString, 0.
  induction fuel as [|fuel IH]; intros; simpl; repeat always_step.
  - unfold cleanUpload. repeat always_step.
  - apply IH.
Qed.

Lemma mainLoop_licensed fuel n prefix marker total :
  ensures (deletesLicensed opts (Bucket opts))
    (mainLoop opts fuel n prefix marker total).
Proof.
  revert marker total. induction n as [|n IH]; intros; simpl;
    repeat licensed_step; auto using cleanUploadFolders_licensed.
  all: unfold cleanPrefix; repeat licensed_step; apply cleanMPUs_licensed.
Qed.

End ReadBeforeDelete.

(** Read before delete, for the marker that triggers the removal: in a
    run of [main], whatever the store answers, every [DeleteObject] call
    comes after the fetch of a marker key that parsed, the printed age of
    that marker at or above the threshold in a live run, and the listing of
    [removeUploadFolder] for that marker, which held the deleted key. *)
Theorem deletes_follow_a_fetched_marker {St} {s : S3 St} opts fuel st
  tr1 d e tr2 :
  trace (main opts fuel st) = tr1 ++ DeleteObjectCall d e :: tr2 ->
  licensed opts (Bucket opts) tr1 d.
Proof.
  revert tr1 d e tr2.
  change (deletesLicensed opts (Bucket opts) (trace (main opts fuel st))
            (outcome (result (main opts fuel st)))).
  revert st. change (ensures (deletesLicensed opts (Bucket opts)) (main opts fuel)).
  unfold main. repeat licensed_step. apply mainLoop_licensed.
Qed.

(** Over [collisionStore] the delete of the marker of folder [ab] is
    licensed by the marker of folder [a], which was fetched, parsed and
    found ten hours old. *)
Lemma deletes_follow_a_fetched_marker_witness :
  let tr := trace (main (exampleOpts 3 false) 5 collisionStore) in
  licensed (exampleOpts 3 false) "registry" (firstn 23 tr)
    {| DeleteObjectInput.Bucket := Some "registry";
       DeleteObjectInput.Key :=
         Some (repos ++ "repoA/_uploads/ab/startedat")%string |}.
Proof.
  cbv zeta.
  apply (deletes_follow_a_fetched_marker (exampleOpts 3 false) 5 collisionStore
           _ _ None
           (skipn 24 (trace (main (exampleOpts 3 false) 5 collisionStore)))).
  vm_compute. reflexivity.
Defined.

(** ** The answers that end a run *)

(** A run that panics with an error does so right after the event that
    made it fatal. *)
Definition errorAfterFatal (tr : list Event) (o : Outcome) : Prop :=
  forall e, o = Panic (PanicErr e) ->
    exists tr1 ev, tr = tr1 ++ [ev] /\ fatal ev = Some (PanicErr e).

Lemma errorAfterFatal_sequential : sequential errorAfterFatal.
Proof.
  split; [discriminate|].
  intros t1 t2 o _ H2 e He. destruct (H2 e He) as (tr1 & ev & -> & Hev).
  exists (t1 ++ tr1), ev. now rewrite app_assoc.
Qed.

Section ErrorPanics.

Context {St : Type} {s : S3 St}.
Variable opts : Options.

Abbreviation traced := (ensures errorAfterFatal).

Lemma traced_bind {A B} (m : M St A) (k : A -> M St B) :
  traced m -> (forall a, traced (k a)) -> traced (bind m k).
Proof. apply ensures_bind, errorAfterFatal_sequential. Qed.

(** A step that does not panic with an error. *)
Lemma traced_quiet {A} (m : M St A) :
  (forall st e, result (m st) <> Panic (PanicErr e)) -> traced m.
Proof.
  intros H st e He. exfalso. apply (H st e).
  destruct (result (m st)); simpl in He; congruence.
Qed.

(** A call: one event, after which the run goes on, or panics at once
    with the cause the event gives. *)
Lemma traced_call {A B} (m : M St A) (k : A -> M St B) :
  (forall st, exists ev a,
      trace (m st) = [ev] /\ result (m st) = Done a /\
      match fatal ev with
      | None => traced (k a)
      | Some c => forall st', trace (k a st') = [] /\ result (k a st') = Panic c
      end) ->
  traced (bind m k).
Proof.
  intros H st. rewrite trace_bind, result_bind.
  destruct (H st) as (ev & a & -> & -> & Hk). simpl.
  destruct (fatal ev) as [c|] eqn:E.
  - destruct (Hk (final (m st))) as [-> ->]. intros e [= ->].
    now exists [], ev.
  - intros e He. destruct (Hk (final (m st)) e He) as (tr1 & ev' & -> & Hev).
    now exists (ev :: tr1), ev'.
Qed.

End ErrorPanics.

Ltac traced_call_tac :=
  apply traced_call; intro;
  match goal with
  | |- context [callListObjects ?i ?st] =>
      unfold callListObjects; destruct (ListObjects i st) as [[? ?] ?]
  | |- context [callListMultipartUploads ?i ?st] =>
      unfold callListMultipartUploads;
      destruct (ListMultipartUploads i st) as [[? ?] ?]
  | |- context [callAbortMultipartUpload ?i ?st] =>
      unfold callAbortMultipartUpload;
      destruct (AbortMultipartUpload i st) as [? ?]
  | |- context [callListObjectsV2 ?i ?st] =>
      unfold callListObjectsV2; destruct (ListObjectsV2 i st) as [[? ?] ?]
  | |- context [callGetObject ?i ?st] =>
      unfold callGetObject; destruct (GetObject i st) as [[? ?] ?]
  | |- context [callDeleteObject ?i ?st] =>
      unfold callDeleteObject; destruct (DeleteObject i st) as [? ?]
  end;
  do 2 eexists; split; [reflexivity|]; split; [reflexivity|]; simpl.

Ltac traced_step :=
  match goal with
  | |- ensures _ (bind (callListObjects _) _) => traced_call_tac
  | |- ensures _ (bind (callListMultipartUploads _) _) => traced_call_tac
  | |- ensures _ (bind (callAbortMultipartUpload _) _) => traced_call_tac
  | |- ensures _ (bind (callListObjectsV2 _) _) => traced_call_tac
  | |- ensures _ (bind (callGetObject _) _) => traced_call_tac
  | |- ensures _ (bind (callDeleteObject _) _) => traced_call_tac
  | |- ensures _ (bind _ _) => apply traced_bind; [ | intros ]
  | |- ensures _ (forRange _ _ _ _) =>
      apply (ensures_forRange _ errorAfterFatal_sequential); intros
  | |- ensures _ (ret _) => apply traced_quiet; discriminate
  | |- ensures _ (deref ?p) => apply traced_quiet; destruct p; discriminate
  | |- ensures _ outOfFuel => apply traced_quiet; discriminate
  | |- ensures _ (print _) => apply traced_quiet; discriminate
  | |- ensures _ (enter _) => apply traced_quiet; discriminate
  | |- ensures _ (hoursSinceNow _) =>
      apply traced_quiet; intros ? ?; unfold hoursSinceNow;
      destruct (Now _); discriminate
  | |- ensures _ (match ?x with _ => _ end) => destruct x eqn:?
  | |- ensures _ (let '(_, _) := ?x in _) => destruct x eqn:?
  | |- match match ?x with _ => _ end with _ => _ end => destruct x eqn:?
  | |- match (if ?x then _ else _) with _ => _ end => destruct x eqn:?
  | |- forall _, _ = [] /\ _ = Panic _ => intro; split; reflexivity
  end.

Section ErrorPanicsProgram.

Context {St : Type} {s : S3 St}.
Variable opts : Options.

Lemma hoursSinceUploadStarted_traced bucket key :
  ensures errorAfterFatal (hoursSinceUploadStarted bucket key).
Proof.
  unfold hoursSinceUploadStarted. repeat traced_step.
  all: simpl in *; try congruence.
  all: destruct (parseTimeFromStream _) as [t0 [e0|]]; simpl in *;
    try discriminate.
  intro. split; congruence.
Qed.

Lemma removeUploadFolder_traced bucket prefix :
  ensures errorAfterFatal (removeUploadFolder bucket prefix).
Proof.
  unfold removeUploadFolder, removeObject. repeat traced_step.
Qed.

Lemma cleanObject_traced bucket i o u :
  ensures errorAfterFatal (cleanObject opts bucket i o u).
Proof.
  unfold cleanObject. repeat traced_step.
  all: auto using hoursSinceUploadStarted_traced, removeUploadFolder_traced.
Qed.

Lemma cleanUploadFoldersLoop_traced fuel bucket prefix token :
  ensures errorAfterFatal (cleanUploadFoldersLoop opts fuel bucket prefix token).
Proof.
  revert token. induction fuel as [|fuel IH]; intros; simpl;
    repeat traced_step; auto using cleanObject_traced.
Qed.

Lemma cleanUploadFolders_traced fuel bucket prefix :
  ensures errorAfterFatal (cleanUploadFolders opts fuel bucket prefix).
Proof.
  unfold cleanUploadFolders. repeat traced_step.
  apply cleanUploadFoldersLoop_traced.
Qed.

Lemma cleanUpload_traced bucket i multi total :
  ensures errorAfterFatal (cleanUpload opts bucket i multi total).
Proof.
  unfold cleanUpload. repeat traced_step.
Qed.

Lemma cleanMPUsLoop_traced fuel bucket prefix keyMarker total :
  ensures errorAfterFatal (cleanMPUsLoop opts fuel bucket prefix keyMarker total).
Proof.
  revert keyMarker total. induction fuel as [|fuel IH]; intros; simpl;
    repeat traced_step; auto using cleanUpload_traced.
Qed.

Lemma cleanMPUs_traced fuel bucket prefix :
  ensures errorAfterFatal (cleanMPUs opts fuel bucket prefix).
Proof.
  unfold cleanMPUs. repeat traced_step. apply cleanMPUsLoop_traced.
Qed.

Lemma mainLoop_traced fuel n prefix marker total :
  ensures errorAfterFatal (mainLoop opts fuel n prefix marker total).
Proof.
  revert marker total. induction n as [|n IH]; intros; simpl;
    repeat traced_step; auto using cleanUploadFolders_traced.
  all: unfold cleanPrefix; repeat traced_step; apply cleanMPUs_traced.
Qed.

Lemma main_traced fuel : ensures errorAfterFatal (main opts fuel).
Proof.
  unfold main. repeat traced_step. apply mainLoop_traced.
Qed.

End ErrorPanicsProgram.

(** Which answers of the store end a run of [main], and how.  An answer on
    which [fatal] names a cause (a failed listing of the driver, of
    [cleanMPUs] or of [removeUploadFolder], a failed delete, a marker that
    does not parse, a listing without the fields read next) is the last
    event of the run, and the run panics with that cause. *)
Theorem fatal_answer_ends_the_run {St} {s : S3 St} opts fuel (st : St)
  tr1 ev tr2 c :
  trace (main opts fuel st) = tr1 ++ ev :: tr2 ->
  fatal ev = Some c ->
  tr2 = [] /\ result (main opts fuel st) = Panic c.
Proof.
  intros Htr Hev.
  destruct (stopsAt_split _ _ _ tr1 ev tr2 c (main_stops opts fuel st) Htr Hev)
    as [H2 Ho].
  split; [exact H2|].
  destruct (result (main opts fuel st)); simpl in Ho; congruence.
Qed.

(** The other way round: a run of [main] that panics with an error [e]
    made a call to the store last, and that call is one of the fatal
    answers with [e] as its cause.  A failed abort, a failed fetch of a
    marker and a failed listing of [cleanUploadFolders] never end the run
    with their error. *)
Theorem error_panic_follows_fatal_answer {St} {s : S3 St} opts fuel (st : St) e :
  result (main opts fuel st) = Panic (PanicErr e) ->
  exists tr1 ev,
    trace (main opts fuel st) = tr1 ++ [ev] /\ fatal ev = Some (PanicErr e).
Proof.
  intros H. apply (main_traced opts fuel st). now rewrite H.
Qed.

(** A store that is out of service: every call fails, and hands back the
    empty output structure beside the error. *)
Module Outage.

Definition unavailable : error := "ServiceUnavailable".

Definition s3 : S3 unit :=
  {| ListObjects := fun _ st =>
       ({| ListObjectsOutput.IsTruncated := None;
           ListObjectsOutput.NextMarker := None;
           ListObjectsOutput.CommonPrefixes := [];
           ListObjectsOutput.Contents := [];
           ListObjectsOutput.Prefix := None |}, Some unavailable, st);
     ListMultipartUploads := fun _ st =>
       ({| ListMultipartUploadsOutput.IsTruncated := None;
           ListMultipartUploadsOutput.NextKeyMarker := None;
           ListMultipartUploadsOutput.Uploads := [] |}, Some unavailable, st);
     AbortMultipartUpload := fun _ st => (Some unavailable, st);
     ListObjectsV2 := fun _ st =>
       ({| ListObjectsV2Output.Contents := [];
           ListObjectsV2Output.NextContinuationToken := None;
           ListObjectsV2Output.IsTruncated := None |}, Some unavailable, st);
     GetObject := fun _ st =>
       ({| GetObjectOutput.Body := {| data := EmptyString; readErr := None |} |},
        Some unavailable, st);
     DeleteObject := fun _ st => (Some unavailable, st);
     Now := fun st => (exampleNow, st) |}.

End Outage.

(** Against a store out of service the first listing of the driver fails,
    and the run panics with its error. *)
Lemma fatal_answer_ends_the_run_witness :
  result (@main unit Outage.s3 (exampleOpts 3 false) 5 tt) =
  Panic (PanicErr Outage.unavailable).
Proof.
  pose (tr := trace (@main unit Outage.s3 (exampleOpts 3 false) 5 tt)).
  apply (@fatal_answer_ends_the_run unit Outage.s3 (exampleOpts 3 false) 5 tt
           (firstn 5 tr) (nth 5 tr (Print RemovedBang)) []
           (PanicErr Outage.unavailable)).
  - vm_compute. reflexivity.
  - vm_compute. reflexivity.
Defined.

(** The run over [garbledStore] panics with the parse error; its last
    event is the fetch of the marker that does not parse. *)
Lemma error_panic_follows_fatal_answer_witness :
  exists tr1 ev,
    trace (main (exampleOpts 3 false) 5 garbledStore) = tr1 ++ [ev] /\
    fatal ev = Some (PanicErr time.errBad).
Proof.
  apply (error_panic_follows_fatal_answer (exampleOpts 3 false) 5 garbledStore).
  vm_compute. reflexivity.
Defined.

(** ** Properties of every event of a trace *)

(** [P] holds of every event of the trace, given the events before it and
    the events after it. *)
Definition atEach (P : list Event -> Event -> list Event -> Prop)
  (tr : list Event) (_ : Outcome) : Prop :=
  forall tr1 ev tr2, tr = tr1 ++ ev :: tr2 -> P tr1 ev tr2.

(** [P] still holds with more events before and after. *)
Definition extends (P : list Event -> Event -> list Event -> Prop) : Prop :=
  forall pre tr1 ev tr2 post, P tr1 ev tr2 -> P (pre ++ tr1) ev (tr2 ++ post).

Lemma atEach_sequential P : extends P -> sequential (atEach P).
Proof.
  intros HP. split.
  - intros [|] ? ? H; discriminate.
  - intros t1 t2 o H1 H2 tr1 ev tr2 Htr.
    apply app_eq_app in Htr. destruct Htr as [l [[Ht1 Hl]|[Ht1 Hl]]].
    + destruct l as [|x l].
      * rewrite app_nil_r in Ht1. subst t1. simpl in Hl. symmetry in Hl.
        rewrite <- (app_nil_r tr1), <- (app_nil_r tr2).
        apply HP. now apply H2.
      * injection Hl as <- ->. apply (HP [] tr1 ev l t2). now apply H1.
    + subst tr1. rewrite <- (app_nil_r tr2). apply HP. now apply H2.
Qed.

Lemma atEach_quiet P tr o :
  Forall (fun ev => forall tr1 tr2, P tr1 ev tr2) tr -> atEach P tr o.
Proof.
  intros H tr1 ev tr2 ->. apply Forall_app in H. destruct H as [_ H].
  inversion H as [|? ? Hev _]. apply Hev.
Qed.

Lemma atEach_cons P ev tr o :
  extends P -> P [] ev tr -> atEach P tr o -> atEach P (ev :: tr) o.
Proof.
  intros HP Hev Htr tr1 ev' tr2 E. destruct tr1 as [|x tr1].
  - injection E as <- <-. exact Hev.
  - injection E as <- ->. rewrite <- (app_nil_r tr2).
    apply (HP [ev] tr1 ev' tr2 []). now apply Htr.
Qed.

(** ** Answers that are reported and passed over *)

(** The line that reports the answer to a call, where [main.go] prints one
    and goes on: the outcome of an abort (lines 136-140), a marker that
    cannot be fetched (line 170), a failed listing of [cleanUploadFolders]
    (line 163), an object that was deleted (line 213). *)
Definition reported (ev : Event) : option Msg :=
  match ev with
  | AbortMultipartUploadCall _ (Some e) => Some (ErrorLine e)
  | AbortMultipartUploadCall _ None => Some RemovedBang
  | GetObjectCall _ _ (Some e) => Some (ErrorLine e)
  | ListObjectsV2Call i _ (Some e) =>
      if isScan i then Some (ListError e) else None
  | DeleteObjectCall d None =>
      match DeleteObjectInput.Key d with
      | Some key => Some (RemovingObject key)
      | None => None
      end
  | _ => None
  end.

(** The next event is the line that reports [ev]. *)
Definition reportedNext (_ : list Event) (ev : Event) (after : list Event)
  : Prop :=
  match reported ev with
  | Some m => exists rest, after = Print m :: rest
  | None => True
  end.

Lemma reportedNext_extends : extends reportedNext.
Proof.
  intros pre tr1 ev tr2 post. unfold reportedNext.
  destruct (reported ev); [|trivial].
  intros [rest ->]. now exists (rest ++ post).
Qed.

Section Reported.

Context {St : Type} {s : S3 St}.
Variable opts : Options.

Abbreviation reports := (ensures (atEach reportedNext)).

Lemma reports_bind {A B} (m : M St A) (k : A -> M St B) :
  reports m -> (forall a, reports (k a)) -> reports (bind m k).
Proof. apply ensures_bind, atEach_sequential, reportedNext_extends. Qed.

Lemma reports_quiet {A} (m : M St A) :
  always (fun ev => reported ev = None) m -> reports m.
Proof.
  intros H st. apply atEach_quiet. eapply Forall_impl; [|apply H].
  intros ev Hev ? ?. unfold reportedNext. now rewrite Hev.
Qed.

(** A call: one event, and what follows starts with the line that
    reports it. *)
Lemma reports_call {A B} (m : M St A) (k : A -> M St B) :
  (forall st, exists ev a,
      trace (m st) = [ev] /\ result (m st) = Done a /\ reports (k a) /\
      forall st', reportedNext [] ev (trace (k a st'))) ->
  reports (bind m k).
Proof.
  intros H st. rewrite trace_bind, result_bind.
  destruct (H st) as (ev & a & -> & -> & Hk & Hev). simpl.
  apply atEach_cons; [apply reportedNext_extends | apply Hev | apply Hk].
Qed.

End Reported.

Ltac reports_call_tac :=
  apply reports_call; intro;
  match goal with
  | |- context [callListObjects ?i ?st] =>
      unfold callListObjects; destruct (ListObjects i st) as [[? ?] ?]
  | |- context [callListMultipartUploads ?i ?st] =>
      unfold callListMultipartUploads;
      destruct (ListMultipartUploads i st) as [[? ?] ?]
  | |- context [callAbortMultipartUpload ?i ?st] =>
      unfold callAbortMultipartUpload;
      destruct (AbortMultipartUpload i st) as [? ?]
  | |- context [callListObjectsV2 ?i ?st] =>
      unfold callListObjectsV2; destruct (ListObjectsV2 i st) as [[? ?] ?]
  | |- context [callDeleteObject ?i ?st] =>
      unfold callDeleteObject; destruct (DeleteObject i st) as [? ?]
  end;
  do 2 eexists; split; [reflexivity|]; split; [reflexivity|].

Ltac reports_step :=
  match goal with
  | |- ensures _ (bind (callListObjects _) _) => reports_call_tac
  | |- ensures _ (bind (callListMultipartUploads _) _) => reports_call_tac
  | |- ensures _ (bind (callAbortMultipartUpload _) _) => reports_call_tac
  | |- ensures _ (bind (callListObjectsV2 _) _) => reports_call_tac
  | |- ensures _ (bind (callDeleteObject _) _) => reports_call_tac
  | |- ensures _ (bind _ _) => apply reports_bind; [ | intros ]
  | |- ensures _ (forRange _ _ _ _) =>
      apply (ensures_forRange _
               (atEach_sequential _ reportedNext_extends)); intros
  | |- ensures _ (match ?x with _ => _ end) => destruct x eqn:?
  | |- ensures _ (let '(_, _) := ?x in _) => destruct x eqn:?
  | |- ensures _ _ /\ _ => split
  | |- forall _, reportedNext _ _ _ =>
      intro; unfold reportedNext; simpl;
      repeat (match goal with
              | |- context [match ?x with _ => _ end] => is_var x; destruct x
              | |- context [match Object.Key ?o with _ => _ end] =>
                  destruct (Object.Key o)
              end; simpl);
      try exact I; try (eexists; reflexivity)
  | |- ensures _ _ =>
      solve [ apply reports_quiet; repeat always_step; reflexivity ]
  end.

Section ReportedProgram.

Context {St : Type} {s : S3 St}.
Variable opts : Options.

Lemma removeUploadFolder_reports bucket prefix :
  ensures (atEach reportedNext) (removeUploadFolder bucket prefix).
Proof.
  unfold removeUploadFolder, removeObject. repeat reports_step.
Qed.

Lemma hoursSinceUploadStarted_failed bucket key st e :
  snd (fst (GetObject {| GetObjectInput.Bucket := Some bucket;
                         GetObjectInput.Key := Some key |} st)) = Some e ->
  result (hoursSinceUploadStarted bucket key st) = Done (0, Some e).
Proof.
  intros H. unfold hoursSinceUploadStarted.
  rewrite (bind_Done _ _ st tt st [Enter (InHoursSinceUploadStarted bucket key)])
    by reflexivity.
  match goal with |- context [callGetObject ?x] => set (g := x) in * end.
  destruct (GetObject g st) as [[obj e'] st1] eqn:E.
  erewrite (bind_Done (callGetObject g) _ st (obj, e') st1)
    by (unfold callGetObject; rewrite E; reflexivity).
  simpl in H. subst e'. reflexivity.
Qed.

Lemma cleanObject_reports bucket i o u :
  ensures (atEach reportedNext) (cleanObject opts bucket i o u).
Proof.
  intro st. unfold cleanObject.
  destruct (Object.Key o) as [key|]; [|apply atEach_quiet; constructor].
  rewrite (bind_Done _ _ st key st []) by reflexivity.
  cbn [result trace app].
  destruct (_ && _); [|apply atEach_quiet; constructor].
  rewrite trace_bind, result_bind, hoursSinceUploadStarted_trace.
  pose proof (hoursSinceUploadStarted_failed bucket key st) as Hfail.
  cbn [app].
  apply atEach_cons; [apply reportedNext_extends | exact I |].
  destruct (snd (fst (GetObject _ st))) as [e|] eqn:He.
  - rewrite (Hfail e eq_refl). cbn.
    apply atEach_cons; [apply reportedNext_extends | now eexists |].
    apply atEach_quiet. repeat constructor.
  - apply atEach_cons; [apply reportedNext_extends | exact I |].
    destruct (result (hoursSinceUploadStarted bucket key st))
      as [[h [err|]]| |]; try (apply atEach_quiet; now repeat constructor).
    match goal with
    | |- atEach _ (trace (?m ?x)) (outcome (result (?m ?x))) =>
        assert (H : ensures (atEach reportedNext) m); [|apply H]
    end.
    repeat reports_step. apply removeUploadFolder_reports.
Qed.

Lemma cleanUploadFoldersLoop_reports fuel bucket prefix token :
  ensures (atEach reportedNext)
    (cleanUploadFoldersLoop opts fuel bucket prefix token).
Proof.
  revert token. induction fuel as [|fuel IH]; intros; simpl;
    repeat reports_step; auto using cleanObject_reports.
Qed.

Lemma cleanUploadFolders_reports fuel bucket prefix :
  ensures (atEach reportedNext) (cleanUploadFolders opts fuel bucket prefix).
Proof.
  unfold cleanUploadFolders. repeat reports_step.
  apply cleanUploadFoldersLoop_reports.
Qed.

Lemma cleanUpload_reports bucket i multi total :
  ensures (atEach reportedNext) (cleanUpload opts bucket i multi total).
Proof.
  unfold cleanUpload. repeat reports_step.
Qed.

Lemma cleanMPUsLoop_reports fuel bucket prefix keyMarker total :
  ensures (atEach reportedNext)
    (cleanMPUsLoop opts fuel bucket prefix keyMarker total).
Proof.
  revert keyMarker total. induction fuel as [|fuel IH]; intros; simpl;
    repeat reports_step; auto using cleanUpload_reports.
Qed.

Lemma cleanMPUs_reports fuel bucket prefix :
  ensures (atEach reportedNext) (cleanMPUs opts fuel bucket prefix).
Proof.
  unfold cleanMPUs. repeat reports_step. apply cleanMPUsLoop_reports.
Qed.

Lemma mainLoop_reports fuel n prefix marker total :
  ensures (atEach reportedNext) (mainLoop opts fuel n prefix marker total).
Proof.
  revert marker total. induction n as [|n IH]; intros; simpl;
    repeat reports_step; auto using cleanUploadFolders_reports.
  all: unfold cleanPrefix; repeat reports_step; apply cleanMPUs_reports.
Qed.

Lemma main_reports fuel : ensures (atEach reportedNext) (main opts fuel).
Proof.
  unfold main. repeat reports_step. apply mainLoop_reports.
Qed.

End ReportedProgram.

(** The answers that [main.go] reports and passes over.  In a run of
    [main], the answer to an abort call, a marker that cannot be fetched,
    a failed listing of [cleanUploadFolders] and a delete that succeeded
    are each followed at once by the line that reports them: the run does
    not end there. *)
Theorem reported_answers_do_not_end_the_run {St} {s : S3 St} opts fuel (st : St)
  tr1 ev tr2 m :
  trace (main opts fuel st) = tr1 ++ ev :: tr2 ->
  reported ev = Some m ->
  exists rest, tr2 = Print m :: rest.
Proof.
  intros Htr Hev. pose proof (main_reports opts fuel st tr1 ev tr2 Htr) as H.
  unfold reportedNext in H. now rewrite Hev in H.
Qed.

(** Over [deniedStore] the abort of upload [u1] is refused; the next
    event is the line that prints the error. *)
Lemma reported_answers_do_not_end_the_run_witness :
  let tr := trace (main (exampleOpts 3 false) 5 deniedStore) in
  exists rest, skipn 14 tr = Print (ErrorLine "AccessDenied") :: rest.
Proof.
  cbv zeta.
  pose (tr := trace (main (exampleOpts 3 false) 5 deniedStore)).
  apply (reported_answers_do_not_end_the_run (exampleOpts 3 false) 5 deniedStore
           (firstn 13 tr) (nth 13 tr (Print RemovedBang)) (skipn 14 tr)).
  - vm_compute. reflexivity.
  - vm_compute. reflexivity.
Defined.

(** ** What an abort call comes after *)

(** An event of [cleanMPUs] between two listing calls. *)
Definition pageStep (ev : Event) : Prop :=
  match ev with
  | Print _ | AbortMultipartUploadCall _ _ => True
  | _ => False
  end.

(** The three lines of lines 122-129 that come before the abort of
    [multi]: its index and key, its age, and the line that selects it. *)
Definition selects (opts : Options) (bucket : string)
  (multi : MultipartUpload.t) (a : AbortMultipartUploadInput.t)
  (lines : list Event) : Prop :=
  exists i key id h,
    lines = [Print (UploadLine i key); Print (StartedHoursAgo h);
             Print (Candidate bucket key id)] /\
    MultipartUpload.Key multi = Some key /\
    MultipartUpload.UploadId multi = Some id /\
    a = {| AbortMultipartUploadInput.Bucket := Some bucket;
           AbortMultipartUploadInput.Key := Some key;
           AbortMultipartUploadInput.UploadId := Some id |} /\
    CleanupHours opts <= h /\ DryRun opts = false.

(** The events before an abort call license it: the last listing call
    before it succeeded and its page holds the upload, nothing but lines
    and aborts of that page came since, and the lines just before the call
    print the upload and an age that reaches the threshold, in a live
    run. *)
Definition abortLicensed (opts : Options) (bucket : string)
  (before : list Event) (a : AbortMultipartUploadInput.t) : Prop :=
  exists pre li lo mid multi lines,
    before = pre ++ ListMultipartUploadsCall li lo None :: mid ++ lines /\
    ListMultipartUploadsInput.Bucket li = Some bucket /\
    In multi (ListMultipartUploadsOutput.Uploads lo) /\
    Forall pageStep mid /\
    selects opts bucket multi a lines.

Definition abortsLicensed (opts : Options) (bucket : string)
  (before : list Event) (ev : Event) (_ : list Event) : Prop :=
  match ev with
  | AbortMultipartUploadCall a _ => abortLicensed opts bucket before a
  | _ => True
  end.

(** The part of a trace that works through one page [ups] of uploads. *)
Definition pagePart (opts : Options) (bucket : string)
  (ups : list MultipartUpload.t) (tr : list Event) (_ : Outcome) : Prop :=
  Forall pageStep tr /\
  forall tr1 a e tr2, tr = tr1 ++ AbortMultipartUploadCall a e :: tr2 ->
    exists mid multi lines,
      tr1 = mid ++ lines /\ In multi ups /\ selects opts bucket multi a lines.

(** The rest of an iteration of [cleanMPUs] after the listing call: the
    page, then the iterations that follow. *)
Definition pageThenRest (opts : Options) (bucket : string)
  (ups : list MultipartUpload.t) (tr : list Event) (o : Outcome) : Prop :=
  exists t1 t2,
    tr = t1 ++ t2 /\ pagePart opts bucket ups t1 (Done tt) /\
    atEach (abortsLicensed opts bucket) t2 o.

Definition isPrint (ev : Event) : Prop :=
  match ev with Print _ => True | _ => False end.

Definition notAbort (ev : Event) : Prop :=
  match ev with AbortMultipartUploadCall _ _ => False | _ => True end.

Lemma split_app {A} (t1 t2 tr1 tr2 : list A) x :
  t1 ++ t2 = tr1 ++ x :: tr2 ->
  (exists l, t1 = tr1 ++ x :: l /\ tr2 = l ++ t2) \/
  (exists l, tr1 = t1 ++ l /\ t2 = l ++ x :: tr2).
Proof.
  intros H. apply app_eq_app in H. destruct H as [l [[Ht1 Hl]|[Ht1 Hl]]].
  - destruct l as [|y l].
    + right. exists []. rewrite app_nil_r in *. simpl in Hl. now subst.
    + injection Hl as <- ->. left. now exists l.
  - right. now exists l.
Qed.

Lemma abortsLicensed_extends opts bucket : extends (abortsLicensed opts bucket).
Proof.
  intros pre tr1 ev tr2 post. destruct ev; simpl; trivial.
  intros (p & li & lo & mid & multi & lines & -> & H).
  exists (pre ++ p), li, lo, mid, multi, lines.
  split; [now rewrite <- app_assoc | exact H].
Qed.

Lemma pagePart_sequential opts bucket ups :
  sequential (pagePart opts bucket ups).
Proof.
  split.
  - split; [constructor|]. intros [|] ? ? ? H; discriminate.
  - intros t1 t2 o [F1 H1] [F2 H2]. split; [now apply Forall_app|].
    intros tr1 a e tr2 Htr. apply split_app in Htr.
    destruct Htr as [(l & -> & ->)|(l & -> & ->)].
    + eapply H1. reflexivity.
    + destruct (H2 l a e tr2 eq_refl) as (mid & multi & lines & -> & H).
      exists (t1 ++ mid), multi, lines. now rewrite app_assoc.
Qed.

Lemma pagePart_quiet opts bucket ups tr o :
  Forall isPrint tr -> pagePart opts bucket ups tr o.
Proof.
  intros H. split.
  - eapply Forall_impl; [|exact H]. now intros [].
  - intros tr1 a e tr2 ->. apply Forall_app in H. destruct H as [_ H].
    inversion H as [|? ? Hev _]. destruct Hev.
Qed.

Lemma pagePart_incl opts bucket ups ups' tr o :
  incl ups ups' -> pagePart opts bucket ups tr o ->
  pagePart opts bucket ups' tr o.
Proof.
  intros Hi [F H]. split; [exact F|].
  intros tr1 a e tr2 Htr.
  destruct (H tr1 a e tr2 Htr) as (mid & multi & lines & ? & ? & ?).
  exists mid, multi, lines. auto.
Qed.

Section Aborts.

Context {St : Type} {s : S3 St}.
Variable opts : Options.

Lemma cleanUpload_page bucket i multi total :
  ensures (pagePart opts bucket [multi]) (cleanUpload opts bucket i multi total).
Proof.
  intro st. unfold cleanUpload.
  destruct (MultipartUpload.Key multi) as [key|] eqn:Hk;
    [|apply pagePart_quiet; constructor].
  rewrite (bind_Done _ _ st key st []) by reflexivity.
  rewrite (bind_Done _ _ st tt st [Print (UploadLine i key)]) by reflexivity.
  cbn [result final trace app].
  destruct (MultipartUpload.Initiated multi) as [t|];
    [|apply pagePart_quiet; repeat constructor].
  rewrite (bind_Done _ _ st t st []) by reflexivity.
  destruct (Now st) as [now st1] eqn:Hnow.
  erewrite (bind_Done (hoursSinceNow t) _ st _ st1 [])
    by (unfold hoursSinceNow; rewrite Hnow; reflexivity).
  rewrite (bind_Done _ _ st1 tt st1
             [Print (StartedHoursAgo (time.hoursSince now t))])
    by reflexivity.
  cbn [result final trace app].
  destruct (CleanupHours opts <=? time.hoursSince now t) eqn:E;
    [|apply pagePart_quiet; repeat constructor].
  rewrite (bind_Done _ _ st1 key st1 []) by reflexivity.
  cbn [result final trace app].
  destruct (MultipartUpload.UploadId multi) as [id|] eqn:Hi;
    [|apply pagePart_quiet; repeat constructor].
  rewrite (bind_Done _ _ st1 id st1 []) by reflexivity.
  rewrite (bind_Done _ _ st1 tt st1 [Print (Candidate bucket key id)])
    by reflexivity.
  cbn [result final trace app].
  destruct (DryRun opts) eqn:Hd;
    [apply pagePart_quiet; repeat constructor|].
  cbn [negb].
  match goal with |- context [callAbortMultipartUpload ?x] => set (a := x) end.
  destruct (AbortMultipartUpload a st1) as [e st2] eqn:Ea.
  assert (H : exists m,
             (err <- callAbortMultipartUpload a ;;
              match err with
              | Some e => print (ErrorLine e)
              | None => print RemovedBang
              end) st1 =
             mkRun (Done tt) st2 [AbortMultipartUploadCall a e; Print m]).
  { unfold bind, callAbortMultipartUpload. rewrite Ea.
    destruct e; eexists; reflexivity. }
  destruct H as [m H]. rewrite (bind_Done _ _ st1 tt st2 _ H).
  cbn [result final trace app ret].
  split; [repeat constructor|].
  intros tr1 a' e' tr2 Htr.
  destruct tr1 as [|x1 [|x2 [|x3 [|x4 [|x5 tr1]]]]]; try discriminate.
  - injection Htr as <- <- <- <- <-.
    exists [], multi. eexists. split; [reflexivity|]. split; [now left|].
    exists i, key, id, (time.hoursSince now t).
    repeat split; auto. now apply Z.leb_le.
  - now destruct tr1.
Qed.

Lemma forRange_cleanUpload_page bucket ups i total :
  ensures (pagePart opts bucket ups)
    (forRange (cleanUpload opts bucket) i ups total).
Proof.
  apply (ensures_forRange _ (pagePart_sequential opts bucket ups)).
  intros j multi total' Hin st.
  apply (pagePart_incl opts bucket [multi]).
  - intros x [<-|[]]. exact Hin.
  - apply cleanUpload_page.
Qed.

Lemma pageThenRest_bind bucket ups {A B} (m : M St A) (k : A -> M St B) :
  ensures (pagePart opts bucket ups) m ->
  (forall a, ensures (pageThenRest opts bucket ups) (k a)) ->
  ensures (pageThenRest opts bucket ups) (bind m k).
Proof.
  intros Hm Hk st. rewrite trace_bind, result_bind.
  specialize (Hm st). destruct (result (m st)) as [a| |]; simpl in *.
  - destruct (Hk a (final (m st))) as (t1 & t2 & -> & H1 & H2).
    exists (trace (m st) ++ t1), t2. split; [now rewrite app_assoc|].
    split; [|exact H2].
    now apply (proj2 (pagePart_sequential opts bucket ups)).
  - exists (trace (m st)), []. rewrite app_nil_r. repeat split; try apply Hm.
    intros [|] ? ? H; discriminate.
  - exists (trace (m st)), []. rewrite app_nil_r. repeat split; try apply Hm.
    intros [|] ? ? H; discriminate.
Qed.

Lemma pageThenRest_rest bucket ups {A} (m : M St A) :
  ensures (atEach (abortsLicensed opts bucket)) m ->
  ensures (pageThenRest opts bucket ups) m.
Proof.
  intros H st. exists [], (trace (m st)). split; [reflexivity|].
  split; [|apply H]. apply pagePart_quiet. constructor.
Qed.

Lemma pagePart_prints bucket ups {A} (m : M St A) :
  always isPrint m -> ensures (pagePart opts bucket ups) m.
Proof. intros H st. apply pagePart_quiet, H. Qed.

Lemma cleanMPUsLoop_aborts fuel bucket prefix :
  forall keyMarker total,
  ensures (atEach (abortsLicensed opts bucket))
    (cleanMPUsLoop opts fuel bucket prefix keyMarker total).
Proof.
  induction fuel as [|fuel IH]; intros keyMarker total st;
    [apply atEach_quiet; constructor|].
  cbn [cleanMPUsLoop].
  match goal with |- context [callListMultipartUploads ?x] => set (li := x) end.
  destruct (ListMultipartUploads li st) as [[lo e] st1] eqn:E.
  erewrite (bind_Done (callListMultipartUploads li) _ st (lo, e) st1)
    by (unfold callListMultipartUploads; rewrite E; reflexivity).
  cbn [result trace app].
  destruct e as [e|]; [apply atEach_quiet; repeat constructor|].
  match goal with
  | |- atEach _ (_ :: trace (?m ?x)) (outcome (result (?m ?x))) =>
      assert (H : ensures (pageThenRest opts bucket
                             (ListMultipartUploadsOutput.Uploads lo)) m)
  end.
  { repeat (apply pageThenRest_bind;
            [ first [ apply forRange_cleanUpload_page
                    | apply pagePart_prints; repeat always_step ]
            | intros ]).
    apply pageThenRest_rest.
    match goal with |- ensures _ (if ?b then _ else _) => destruct b end;
      [apply IH | intro; apply atEach_quiet; constructor]. }
  destruct (H st1) as (t1 & t2 & -> & [F1 H1] & H2).
  intros tr1 ev tr2 Htr. destruct tr1 as [|x tr1].
  - injection Htr as <- _. exact I.
  - injection Htr as <- Htr. apply split_app in Htr.
    destruct Htr as [(l & -> & ->)|(l & -> & ->)].
    + destruct ev; try exact I. simpl.
      destruct (H1 tr1 i _ l eq_refl) as (mid & multi & lines & -> & Hin & Hs).
      exists [], li, lo, mid, multi, lines. repeat split; auto.
      apply Forall_app in F1. destruct F1 as [F1 _].
      apply Forall_app in F1. apply F1.
    + apply (abortsLicensed_extends opts bucket
               (ListMultipartUploadsCall li lo None :: t1) l ev tr2 []).
      now apply H2.
Qed.

End Aborts.

Lemma abortsLicensed_quiet opts bucket tr o :
  Forall notAbort tr -> atEach (abortsLicensed opts bucket) tr o.
Proof.
  intros H. apply atEach_quiet. eapply Forall_impl; [|exact H].
  intros ev Hev ? ?. destruct ev; try exact I. destruct Hev.
Qed.

Ltac aborts_step :=
  match goal with
  | |- ensures _ (bind _ _) =>
      apply (ensures_bind _
               (atEach_sequential _ (abortsLicensed_extends _ _)));
      [ | intros ]
  | |- ensures _ (forRange _ _ _ _) =>
      apply (ensures_forRange _
               (atEach_sequential _ (abortsLicensed_extends _ _))); intros
  | |- ensures _ (match ?x with _ => _ end) => destruct x
  | |- ensures _ (let '(_, _) := ?x in _) => destruct x
  | |- ensures _ _ =>
      solve [ apply (always_ensures _ notAbort);
              [ intros; now apply abortsLicensed_quiet
              | repeat always_step ] ]
  end.

Section AbortsProgram.

Context {St : Type} {s : S3 St}.
Variable opts : Options.

Lemma cleanMPUs_aborts fuel bucket prefix :
  ensures (atEach (abortsLicensed opts bucket))
    (cleanMPUs opts fuel bucket prefix).
Proof.
  unfold cleanMPUs. repeat aborts_step. apply cleanMPUsLoop_aborts.
Qed.

Lemma cleanUploadFolders_aborts fuel bucket prefix :
  ensures (atEach (abortsLicensed opts (Bucket opts)))
    (cleanUploadFolders opts fuel bucket prefix).
Proof.
  apply (always_ensures _ notAbort);
    [intros; now apply abortsLicensed_quiet|].
  unfold cleanUploadFolders. repeat always_step.
  generalize (@None string).
  induction fuel as [|fuel IH]; intros; simpl; repeat always_step.
  - unfold cleanObject, hoursSinceUploadStarted, removeUploadFolder,
      removeObject.
    repeat always_step.
  - apply IH.
Qed.

Lemma mainLoop_aborts fuel n prefix marker total :
  ensures (atEach (abortsLicensed opts (Bucket opts)))
    (mainLoop opts fuel n prefix marker total).
Proof.
  revert marker total. induction n as [|n IH]; intros; simpl;
    repeat aborts_step; auto using cleanUploadFolders_aborts.
  all: unfold cleanPrefix; repeat aborts_step; apply cleanMPUs_aborts.
Qed.

End AbortsProgram.

(** What an abort call comes after.  In a run of [main], whatever the
    store answers, every [AbortMultipartUpload] call names the bucket of
    the options and the key and upload id of an upload on the page of the
    last [ListMultipartUploads] call before it, which succeeded; the lines
    just before the call print that upload and an age that reaches the
    threshold; and the run is live. *)
Theorem aborts_follow_a_listed_stale_upload {St} {s : S3 St} opts fuel (st : St)
  tr1 a e tr2 :
  trace (main opts fuel st) = tr1 ++ AbortMultipartUploadCall a e :: tr2 ->
  abortLicensed opts (Bucket opts) tr1 a.
Proof.
  revert tr1 a e tr2.
  assert (H : ensures (atEach (abortsLicensed opts (Bucket opts)))
                (main opts fuel)).
  { unfold main. repeat aborts_step. apply mainLoop_aborts. }
  intros tr1 a e tr2 Htr. exact (H st tr1 _ tr2 Htr).
Qed.

(** Over [deniedStore] the abort of upload [u1], five hours old against a
    threshold of three, comes after the listing that holds it. *)
Lemma aborts_follow_a_listed_stale_upload_witness :
  let tr := trace (main (exampleOpts 3 false) 5 deniedStore) in
  abortLicensed (exampleOpts 3 false) "registry" (firstn 13 tr)
    {| AbortMultipartUploadInput.Bucket := Some "registry";
       AbortMultipartUploadInput.Key :=
         Some (repos ++ "repoA/_uploads/abc123/data")%string;
       AbortMultipartUploadInput.UploadId := Some "u1" |}.
Proof.
  cbv zeta.
  apply (aborts_follow_a_listed_stale_upload (exampleOpts 3 false) 5 deniedStore
           _ _ (Some "AccessDenied")
           (skipn 14 (trace (main (exampleOpts 3 false) 5 deniedStore)))).
  vm_compute. reflexivity.
Defined.

(** ** What the counter counts *)

(** The number of uploads a trace selects: the lines of line 129. *)
Definition selectedCount (tr : list Event) : Z :=
  Z.of_nat (List.length (selectedUploads tr)).

(** A run that starts with the counter at [total] and returns [v] has
    added the number of uploads it selected. *)
Definition tallies {St} (total : Z) (m : M St Z) : Prop :=
  forall st v, result (m st) = Done v ->
    v = total + selectedCount (trace (m st)).

Definition unselecting (ev : Event) : Prop :=
  match ev with Print (Candidate _ _ _) => False | _ => True end.

Lemma selectedCount_app t1 t2 :
  selectedCount (t1 ++ t2) = selectedCount t1 + selectedCount t2.
Proof.
  unfold selectedCount. rewrite selectedUploads_app, length_app. lia.
Qed.

Lemma unselecting_count tr : Forall unselecting tr -> selectedCount tr = 0.
Proof.
  unfold selectedCount. induction 1 as [|ev tr Hev _ IH]; [reflexivity|].
  destruct ev as [[]| | | | | | |]; try exact IH. destruct Hev.
Qed.

Section Tally.

Context {St : Type} {s : S3 St}.
Variable opts : Options.

Lemma tallies_bind total (m : M St Z) (k : Z -> M St Z) :
  tallies total m -> (forall v, tallies v (k v)) -> tallies total (bind m k).
Proof.
  intros Hm Hk st v H. apply bind_Done_inv in H.
  destruct H as (a & Ha & Hv & ->).
  rewrite selectedCount_app, (Hk a _ v Hv), (Hm st a Ha). lia.
Qed.

Lemma tallies_bind_quiet {A} total (m : M St A) (k : A -> M St Z) :
  always unselecting m -> (forall a, tallies total (k a)) ->
  tallies total (bind m k).
Proof.
  intros Hm Hk st v H. apply bind_Done_inv in H.
  destruct H as (a & Ha & Hv & ->).
  rewrite selectedCount_app, (unselecting_count _ (Hm st)), (Hk a _ v Hv). lia.
Qed.

Lemma tallies_candidate total bucket key id (k : unit -> M St Z) :
  tallies (total + 1) (k tt) ->
  tallies total (bind (print (Candidate bucket key id)) k).
Proof.
  intros Hk st v H. apply bind_Done_inv in H.
  destruct H as ([] & _ & Hv & ->).
  rewrite selectedCount_app, (Hk _ v Hv).
  change (selectedCount (trace (print (Candidate bucket key id) st))) with 1.
  lia.
Qed.

Lemma tallies_ret total : tallies total (@ret St Z total).
Proof.
  intros st v [= <-]. change (selectedCount (trace (ret total st))) with 0. lia.
Qed.

Lemma tallies_forRange {A} (body : Z -> A -> Z -> M St Z) xs :
  (forall i x t, tallies t (body i x t)) ->
  forall i t, tallies t (forRange body i xs t).
Proof.
  intros Hb. induction xs as [|x xs IH]; intros i t; simpl.
  - apply tallies_ret.
  - apply tallies_bind; [apply Hb | intro; apply IH].
Qed.

(** A callee that counts from zero, added to the counter of the caller
    (line 84). *)
Lemma tallies_add total (m : M St Z) :
  tallies 0 m -> tallies total (bind m (fun n => ret (total + n))).
Proof.
  intros Hm st v H. apply bind_Done_inv in H.
  destruct H as (n & Hn & [= <-] & ->).
  pose proof (Hm st n Hn) as Hc. rewrite selectedCount_app.
  change (selectedCount (trace (ret (total + n) (final (m st))))) with 0. lia.
Qed.

(** [cleanUploadFolders] selects no upload. *)
Lemma cleanUploadFolders_unselecting fuel bucket prefix :
  always unselecting (cleanUploadFolders opts fuel bucket prefix).
Proof.
  unfold cleanUploadFolders. repeat always_step.
  generalize (@None string).
  induction fuel as [|fuel IH]; intros; simpl; repeat always_step.
  - unfold cleanObject, hoursSinceUploadStarted, removeUploadFolder,
      removeObject.
    repeat always_step.
  - apply IH.
Qed.

End Tally.

Ltac tally_step :=
  match goal with
  | |- tallies _ (bind (print (Candidate _ _ _)) _) => apply tallies_candidate
  | |- tallies _ (bind (forRange _ _ _ _) _) =>
      apply tallies_bind; [ apply tallies_forRange; intros | intros ]
  | |- tallies _ (bind _ _) =>
      apply tallies_bind_quiet;
      [ solve [repeat always_step; apply cleanUploadFolders_unselecting]
      | intros ]
  | |- tallies _ (ret _) => apply tallies_ret
  | |- tallies _ (panic _) => intros ? ? ?; discriminate
  | |- tallies _ outOfFuel => intros ? ? ?; discriminate
  | |- tallies _ (match ?x with _ => _ end) => destruct x
  | |- tallies _ (let '(_, _) := ?x in _) => destruct x
  end.

Section TallyProgram.

Context {St : Type} {s : S3 St}.
Variable opts : Options.

Lemma cleanUpload_tallies bucket i multi total :
  tallies total (cleanUpload opts bucket i multi total).
Proof. unfold cleanUpload. repeat tally_step. Qed.

Lemma cleanMPUsLoop_tallies fuel bucket prefix :
  forall keyMarker total,
  tallies total (cleanMPUsLoop opts fuel bucket prefix keyMarker total).
Proof.
  induction fuel as [|fuel IH]; intros; simpl; repeat tally_step;
    auto using cleanUpload_tallies.
Qed.

Lemma cleanMPUs_tallies fuel bucket prefix :
  tallies 0 (cleanMPUs opts fuel bucket prefix).
Proof.
  unfold cleanMPUs. apply tallies_bind_quiet; [repeat always_step|intros].
  apply tallies_bind; [apply cleanMPUsLoop_tallies | intros].
  repeat tally_step.
Qed.

Lemma cleanPrefix_tallies fuel i cp total :
  tallies total (cleanPrefix opts fuel i cp total).
Proof.
  unfold cleanPrefix. do 3 tally_step.
  apply tallies_add, cleanMPUs_tallies.
Qed.

Lemma mainLoop_tallies fuel n prefix :
  forall marker total,
  tallies total (mainLoop opts fuel n prefix marker total).
Proof.
  induction n as [|n IH]; intros; simpl; repeat tally_step;
    auto using cleanPrefix_tallies.
Qed.

End TallyProgram.

(** What [cleanMPUs] returns, line 147: the number of uploads it selected
    on line 129, whether the run is dry or live and whatever the abort
    calls answered; the line it prints last carries that number. *)
Theorem cleanMPUs_returns_the_number_selected {St} {s : S3 St} opts fuel
  bucket prefix (st : St) n :
  result (cleanMPUs opts fuel bucket prefix st) = Done n ->
  n = selectedCount (trace (cleanMPUs opts fuel bucket prefix st)) /\
  exists tr0,
    trace (cleanMPUs opts fuel bucket prefix st) =
    tr0 ++ [Print (RemovedCount n)].
Proof.
  intros H. split; [apply (cleanMPUs_tallies opts fuel bucket prefix st n H)|].
  revert H. unfold cleanMPUs.
  rewrite (bind_Done _ _ st tt st [Enter (InCleanMPUs bucket prefix)])
    by reflexivity.
  cbn [result final trace]. intros H. apply bind_Done_inv in H.
  destruct H as (v & Hv & Hn & ->). injection Hn as <-.
  exists ([Enter (InCleanMPUs bucket prefix)] ++
          trace (cleanMPUsLoop opts fuel bucket prefix "" 0 st)).
  rewrite <- app_assoc. reflexivity.
Qed.

(** The total of [main], line 93: when [main] returns, its last line
    prints the number of uploads the run selected, in a dry run as in a
    live one, the aborts that failed included. *)
Theorem main_prints_the_number_selected {St} {s : S3 St} opts fuel (st : St) :
  result (main opts fuel st) = Done tt ->
  exists tr0,
    trace (main opts fuel st) =
    tr0 ++ [Print (TotalMPUsRemoved
                     (selectedCount (trace (main opts fuel st))))].
Proof.
  unfold main.
  assert (H0 : exists tr0,
             (if DryRun opts then print RunInDryRunMode else ret tt) st
             = mkRun (Done tt) st tr0 /\ Forall unselecting tr0)
    by (destruct (DryRun opts); eexists; split; try reflexivity;
        repeat constructor).
  destruct H0 as (tr0 & H0 & Hb0).
  rewrite (bind_Done _ _ st tt st tr0 H0).
  repeat (erewrite (bind_Done (print _) _ st tt st) by reflexivity).
  cbn [result final trace].
  match goal with |- context [mainLoop opts fuel fuel ?p "" 0] =>
    set (prefix := p) end.
  intros H. apply bind_Done_inv in H. destruct H as (v & Hv & _ & ->).
  pose proof (mainLoop_tallies opts fuel fuel prefix "" 0 st v Hv) as Hc.
  cbn [trace print].
  match goal with |- context [selectedCount ?t] => set (c := selectedCount t) end.
  assert (Hcv : c = v).
  { subst c. rewrite !selectedCount_app, (unselecting_count _ Hb0).
    repeat rewrite (unselecting_count [_]) by (repeat constructor). lia. }
  rewrite Hcv. eexists. rewrite !app_assoc. reflexivity.
Qed.

(** A dry run over [pagedStore]: [cleanMPUs] returns two, the number of
    uploads it selected, although it aborted none. *)
Lemma cleanMPUs_returns_the_number_selected_witness :
  let r := cleanMPUs (exampleOpts 3 true) 10 "registry" repos pagedStore in
  aborts (trace r) = [] /\
  2 = selectedCount (trace r) /\
  exists tr0, trace r = tr0 ++ [Print (RemovedCount 2)].
Proof.
  cbv zeta. split; [vm_compute; reflexivity|].
  apply (cleanMPUs_returns_the_number_selected (exampleOpts 3 true) 10
           "registry" repos pagedStore 2).
  vm_compute. reflexivity.
Defined.

(** Over [deniedStore], where the one abort is refused, the run still
    ends with the line that gives the number of selected uploads. *)
Lemma main_prints_the_number_selected_witness :
  let r := main (exampleOpts 3 false) 5 deniedStore in
  exists tr0,
    trace r = tr0 ++ [Print (TotalMPUsRemoved (selectedCount (trace r)))].
Proof.
  cbv zeta.
  apply (main_prints_the_number_selected (exampleOpts 3 false) 5 deniedStore).
  vm_compute. reflexivity.
Defined.

(** ** How the requests of a scan follow one another *)

Section Chain.

(** The requests of a scan, the responses to them, and the cursor that a
    request carries. *)
Context {Req Resp Cursor : Type}.

(** The calls of the scan among the events. *)
Variable project : Event -> list (Req * Resp).
(** The request the scan makes with a cursor. *)
Variable req : Cursor -> Req.
(** The cursor of the request after a response, if the scan goes on. *)
Variable next : Resp -> option Cursor.

Definition calls (tr : list Event) : list (Req * Resp) := flat_map project tr.

(** The first request carries the cursor [c]; every later request comes
    after a response that has a next cursor, and carries it. *)
Fixpoint chain (c : Cursor) (l : list (Req * Resp)) : Prop :=
  match l with
  | [] => True
  | (i, o) :: rest =>
      i = req c /\
      match rest with
      | [] => True
      | _ :: _ =>
          match next o with
          | Some c' => chain c' rest
          | None => False
          end
      end
  end.

(** The calls that come after the response [o]. *)
Definition continues (o : Resp) (l : list (Req * Resp)) : Prop :=
  match l with
  | [] => True
  | _ :: _ =>
      match next o with
      | Some c' => chain c' l
      | None => False
      end
  end.

Definition quiet (ev : Event) : Prop := project ev = [].

Lemma calls_app t1 t2 : calls (t1 ++ t2) = calls t1 ++ calls t2.
Proof. apply flat_map_app. Qed.

Lemma calls_quiet tr : Forall quiet tr -> calls tr = [].
Proof.
  induction 1 as [|ev tr Hev _ IH]; [reflexivity|].
  unfold calls in *. simpl. now rewrite Hev, IH.
Qed.

Context {St : Type}.

Definition follows {A} (c : Cursor) (m : M St A) : Prop :=
  forall st, chain c (calls (trace (m st))).

Definition resumes {A} (o : Resp) (m : M St A) : Prop :=
  forall st, continues o (calls (trace (m st))).

Lemma follows_quiet {A} c (m : M St A) : always quiet m -> follows c m.
Proof. intros H st. now rewrite (calls_quiet _ (H st)). Qed.

Lemma resumes_quiet {A} o (m : M St A) : always quiet m -> resumes o m.
Proof. intros H st. now rewrite (calls_quiet _ (H st)). Qed.

Lemma resumes_follows {A} o c (m : M St A) :
  next o = Some c -> follows c m -> resumes o m.
Proof.
  intros Hn H st. specialize (H st). unfold continues. rewrite Hn.
  now destruct (calls (trace (m st))).
Qed.

(** A step that makes no call of the scan, and returns only values that
    satisfy [P]. *)
Lemma resumes_bind {A B} o (m : M St A) (k : A -> M St B) (P : A -> Prop) :
  always quiet m ->
  (forall st v, result (m st) = Done v -> P v) ->
  (forall v, P v -> resumes o (k v)) ->
  resumes o (bind m k).
Proof.
  intros Hq Hv Hk st. rewrite trace_bind, calls_app, (calls_quiet _ (Hq st)).
  cbn [app]. destruct (result (m st)) as [v| |] eqn:E; try exact I.
  apply Hk. eapply Hv, E.
Qed.

Lemma follows_bind {A B} c (m : M St A) (k : A -> M St B) :
  always quiet m -> (forall v, follows c (k v)) -> follows c (bind m k).
Proof.
  intros Hq Hk st. rewrite trace_bind, calls_app, (calls_quiet _ (Hq st)).
  cbn [app]. destruct (result (m st)) as [v| |]; try exact I. apply Hk.
Qed.

(** A scan, then steps that make no call of the scan. *)
Lemma follows_then_quiet {A B} c (m : M St A) (k : A -> M St B) :
  follows c m -> (forall a, always quiet (k a)) -> follows c (bind m k).
Proof.
  intros Hm Hk st. rewrite trace_bind, calls_app.
  destruct (result (m st)) as [a| |]; cbn [calls flat_map];
    rewrite ?(calls_quiet _ (Hk _ _)), app_nil_r; apply Hm.
Qed.

(** The call of the scan with the cursor [c]. *)
Lemma follows_call {A B} c (m : M St A) (k : A -> M St B) :
  (forall st, exists ev o a,
      trace (m st) = [ev] /\ project ev = [(req c, o)] /\
      result (m st) = Done a /\ resumes o (k a)) ->
  follows c (bind m k).
Proof.
  intros H st. destruct (H st) as (ev & o & a & Ht & Hp & Hr & Hk).
  rewrite trace_bind, Ht, Hr, calls_app.
  replace (calls [ev]) with [(req c, o)]
    by (unfold calls; cbn [flat_map]; now rewrite Hp).
  cbn [app chain]. split; [reflexivity|]. apply Hk.
Qed.

End Chain.

Ltac resumes_step :=
  match goal with
  | |- resumes _ _ _ _ (bind (deref (Some ?a)) _) =>
      apply (resumes_bind _ _ _ _ _ _ (fun v => v = a));
      [ apply always_deref | intros ? ? [= <-]; reflexivity | intros ? -> ]
  | |- resumes _ _ _ _ (bind (deref None) _) =>
      apply (resumes_bind _ _ _ _ _ _ (fun _ => False));
      [ apply always_deref | intros ? ? [=] | intros ? [] ]
  | |- resumes _ _ _ _ (bind (ret ?a) _) =>
      apply (resumes_bind _ _ _ _ _ _ (fun v => v = a));
      [ apply always_ret | intros ? ? [= <-]; reflexivity | intros ? -> ]
  | |- resumes _ _ _ _ (ret _) => apply resumes_quiet, always_ret
  | |- resumes _ _ _ _ (panic _) => apply resumes_quiet, always_panic
  | |- resumes _ _ _ _ outOfFuel => apply resumes_quiet, always_outOfFuel
  | |- resumes _ _ _ _ (match ?x with _ => _ end) => destruct x eqn:?
  | |- resumes _ _ _ _ (let '(_, _) := ?x in _) => destruct x eqn:?
  end.

(** *** The requests of [cleanMPUs] *)

Definition mpuCall (ev : Event)
  : list (ListMultipartUploadsInput.t * ListMultipartUploadsOutput.t) :=
  match ev with
  | ListMultipartUploadsCall i o _ => [(i, o)]
  | _ => []
  end.

(** Lines 102-107. *)
Definition mpuRequest (bucket prefix keyMarker : string)
  : ListMultipartUploadsInput.t :=
  {| ListMultipartUploadsInput.Bucket := Some bucket;
     ListMultipartUploadsInput.Prefix := Some prefix;
     ListMultipartUploadsInput.KeyMarker := Some keyMarker;
     ListMultipartUploadsInput.MaxUploads := Some MaxResultCount |}.

(** Lines 113-114 and 101: the loop goes on after a truncated page, with
    the key marker of the page. *)
Definition mpuNext (o : ListMultipartUploadsOutput.t) : option string :=
  match ListMultipartUploadsOutput.IsTruncated o,
        ListMultipartUploadsOutput.NextKeyMarker o with
  | Some true, Some keyMarker => Some keyMarker
  | _, _ => None
  end.

Section ChainMPU.

Context {St : Type} {s : S3 St}.
Variable opts : Options.

Lemma cleanUpload_no_listing bucket i multi total :
  always (quiet mpuCall) (cleanUpload opts bucket i multi total).
Proof. unfold cleanUpload. repeat always_step; reflexivity. Qed.

Lemma cleanMPUsLoop_follows fuel bucket prefix :
  forall keyMarker total,
  follows mpuCall (mpuRequest bucket prefix) mpuNext keyMarker
    (cleanMPUsLoop opts fuel bucket prefix keyMarker total).
Proof.
  induction fuel as [|fuel IH]; intros keyMarker total;
    [apply follows_quiet, always_outOfFuel|].
  cbn [cleanMPUsLoop]. apply follows_call. intro st.
  unfold callListMultipartUploads.
  destruct (ListMultipartUploads _ st) as [[lo e] st1].
  eexists. exists lo. eexists.
  split; [reflexivity|]. split; [reflexivity|]. split; [reflexivity|].
  cbn beta iota. destruct e as [e|]; [apply resumes_quiet, always_panic|].
  destruct (ListMultipartUploadsOutput.IsTruncated lo) as [b|] eqn:Hb,
           (ListMultipartUploadsOutput.NextKeyMarker lo) as [nk|] eqn:Hk;
    repeat resumes_step.
  apply (resumes_bind _ _ _ _ _ _ (fun _ => True));
    [repeat always_step; reflexivity | trivial | intros _ _].
  apply (resumes_bind _ _ _ _ _ _ (fun _ => True));
    [repeat always_step; reflexivity | trivial | intros _ _].
  apply (resumes_bind _ _ _ _ _ _ (fun _ => True));
    [repeat always_step; apply cleanUpload_no_listing | trivial | intros v _].
  destruct b.
  - eapply resumes_follows; [|apply IH]. unfold mpuNext. now rewrite Hb, Hk.
  - apply resumes_quiet, always_ret.
Qed.

End ChainMPU.

(** The requests of [cleanMPUs], lines 101-114.  Every
    [ListMultipartUploads] request of a run of [cleanMPUs] names the bucket
    and the prefix it was called with and asks for [MaxResultCount]
    uploads.  The first request carries the empty key marker; a further
    request is made only after a page that is truncated, and carries the
    [NextKeyMarker] of that page. *)
Theorem cleanMPUs_requests_follow_the_key_marker {St} {s : S3 St} opts fuel
  bucket prefix (st : St) :
  chain (mpuRequest bucket prefix) mpuNext EmptyString
    (calls mpuCall (trace (cleanMPUs opts fuel bucket prefix st))).
Proof.
  revert st.
  change (follows mpuCall (mpuRequest bucket prefix) mpuNext EmptyString
            (cleanMPUs opts fuel bucket prefix)).
  unfold cleanMPUs.
  apply follows_bind; [repeat always_step; reflexivity | intros _].
  apply follows_then_quiet; [apply cleanMPUsLoop_follows | intros].
  repeat always_step; reflexivity.
Qed.

(** *** The requests of the driver *)

Definition rootCall (ev : Event)
  : list (ListObjectsInput.t * ListObjectsOutput.t) :=
  match ev with
  | ListObjectsCall i o _ => [(i, o)]
  | _ => []
  end.

(** Lines 54-57. *)
Definition rootPrefix (opts : Options) : string :=
  if (0 <? String.length (RootDirectory opts))%nat
  then (RootDirectory opts ++ "/docker/registry/v2/repositories/")%string
  else "docker/registry/v2/repositories/".

(** Lines 64-70. *)
Definition rootRequest (opts : Options) (marker : string)
  : ListObjectsInput.t :=
  {| ListObjectsInput.MaxKeys := Some MaxResultCount;
     ListObjectsInput.Bucket := Some (Bucket opts);
     ListObjectsInput.Prefix := Some (rootPrefix opts);
     ListObjectsInput.Delimiter := Some "/";
     ListObjectsInput.Marker := Some marker |}.

(** Lines 75-79 and 63. *)
Definition rootNext (o : ListObjectsOutput.t) : option string :=
  match ListObjectsOutput.IsTruncated o, ListObjectsOutput.NextMarker o with
  | Some true, Some marker => Some marker
  | _, _ => None
  end.

Lemma quiet_notRootListing ev : notRootListing ev -> quiet rootCall ev.
Proof. destruct ev; try reflexivity. intros []. Qed.

Section ChainRoot.

Context {St : Type} {s : S3 St}.
Variable opts : Options.

Lemma cleanPrefix_no_listing fuel i cp total :
  always (quiet rootCall) (cleanPrefix opts fuel i cp total).
Proof.
  unfold cleanPrefix. repeat always_step; try reflexivity.
  intro st. eapply Forall_impl; [apply quiet_notRootListing|].
  apply cleanMPUs_notRootListing.
Qed.

Lemma cleanUploadFolders_no_root_listing fuel bucket prefix :
  always (quiet rootCall) (cleanUploadFolders opts fuel bucket prefix).
Proof.
  intro st. eapply Forall_impl; [apply quiet_notRootListing|].
  apply cleanUploadFolders_notRootListing.
Qed.

Lemma mainLoop_follows fuel n :
  forall marker total,
  follows rootCall (rootRequest opts) rootNext marker
    (mainLoop opts fuel n (rootPrefix opts) marker total).
Proof.
  induction n as [|n IH]; intros marker total;
    [apply follows_quiet, always_outOfFuel|].
  cbn [mainLoop]. apply follows_call. intro st.
  unfold callListObjects.
  destruct (ListObjects _ st) as [[lo e] st1].
  eexists. exists lo. eexists.
  split; [reflexivity|]. split; [reflexivity|]. split; [reflexivity|].
  cbn beta iota. destruct e as [e|]; [apply resumes_quiet, always_panic|].
  destruct (ListObjectsOutput.IsTruncated lo) as [b|] eqn:Hb;
    repeat resumes_step.
  assert (Hrest : forall marker',
    (b = true -> ListObjectsOutput.NextMarker lo = Some marker') ->
    resumes rootCall (rootRequest opts) rootNext lo
      (totalRemoved <- forRange (cleanPrefix opts fuel) 0
                         (ListObjectsOutput.CommonPrefixes lo) total ;;
       p <- deref (ListObjectsOutput.Prefix lo) ;;
       print (RemovingUploadFolders p) ;;
       (if negb (DryRun opts)
        then p <- deref (ListObjectsOutput.Prefix lo) ;;
             cleanUploadFolders opts fuel (Bucket opts) p
        else ret tt) ;;
       if b
       then mainLoop opts fuel n (rootPrefix opts) marker' totalRemoved
       else ret totalRemoved)).
  { intros marker' Hm.
    apply (resumes_bind _ _ _ _ _ _ (fun _ => True));
      [repeat always_step; apply cleanPrefix_no_listing | trivial
      | intros v _].
    apply (resumes_bind _ _ _ _ _ _ (fun _ => True));
      [repeat always_step | trivial | intros p _].
    apply (resumes_bind _ _ _ _ _ _ (fun _ => True));
      [repeat always_step; reflexivity | trivial | intros _ _].
    apply (resumes_bind _ _ _ _ _ _ (fun _ => True));
      [repeat always_step; apply cleanUploadFolders_no_root_listing | trivial
      | intros _ _].
    destruct b.
    - eapply resumes_follows; [|apply IH]. unfold rootNext.
      now rewrite Hb, (Hm eq_refl).
    - apply resumes_quiet, always_ret. }
  destruct b.
  - destruct (ListObjectsOutput.NextMarker lo) as [nm|] eqn:Hn.
    + apply (resumes_bind _ _ _ _ _ _ (fun v => v = nm));
        [repeat always_step; reflexivity
        | intros ? ? H; cbn in H; congruence
        | intros ? ->].
      now apply (Hrest nm).
    + apply (resumes_bind _ _ _ _ _ _ (fun _ => False));
        [repeat always_step; reflexivity
        | intros ? ? H; cbn in H; discriminate
        | intros ? []].
  - resumes_step. apply (Hrest marker). discriminate.
Qed.

End ChainRoot.

(** The requests of the driver, lines 54-79.  Every [ListObjects] request
    of a run of [main] names the bucket of the options, the repositories
    prefix under the root directory of the options, the delimiter [/] and
    [MaxResultCount] keys.  The first request carries the empty marker; a
    further request is made only after a page that is truncated, and
    carries the [NextMarker] of that page. *)
Theorem main_requests_follow_the_marker {St} {s : S3 St} opts fuel (st : St) :
  chain (rootRequest opts) rootNext EmptyString
    (calls rootCall (trace (main opts fuel st))).
Proof.
  revert st.
  change (follows rootCall (rootRequest opts) rootNext EmptyString
            (main opts fuel)).
  unfold main. fold (rootPrefix opts).
  repeat (apply follows_bind; [repeat always_step; reflexivity | intros _]).
  apply follows_then_quiet; [apply mainLoop_follows | intros].
  repeat always_step; reflexivity.
Qed.

(** *** The requests of [cleanUploadFolders] *)

Definition scanCall (ev : Event)
  : list (ListObjectsV2Input.t * ListObjectsV2Output.t) :=
  match ev with
  | ListObjectsV2Call i o _ => if isScan i then [(i, o)] else []
  | _ => []
  end.

(** Lines 155-160. *)
Definition scanRequest (bucket prefix : string) (token : option string)
  : ListObjectsV2Input.t :=
  {| ListObjectsV2Input.Bucket := Some bucket;
     ListObjectsV2Input.Prefix := Some prefix;
     ListObjectsV2Input.MaxKeys := Some MaxResultCount;
     ListObjectsV2Input.ContinuationToken := token |}.

(** Lines 185-186 and 153: the token is copied as a pointer, nil
    included. *)
Definition scanNext (o : ListObjectsV2Output.t) : option (option string) :=
  match ListObjectsV2Output.IsTruncated o with
  | Some true => Some (ListObjectsV2Output.NextContinuationToken o)
  | _ => None
  end.

Section ChainScan.

Context {St : Type} {s : S3 St}.
Variable opts : Options.

Lemma cleanObject_no_scan bucket i o u :
  always (quiet scanCall) (cleanObject opts bucket i o u).
Proof.
  unfold cleanObject, hoursSinceUploadStarted, removeUploadFolder,
    removeObject.
  repeat always_step; reflexivity.
Qed.

Lemma cleanUploadFoldersLoop_follows fuel bucket prefix :
  forall token,
  follows scanCall (scanRequest bucket prefix) scanNext token
    (cleanUploadFoldersLoop opts fuel bucket prefix token).
Proof.
  induction fuel as [|fuel IH]; intros token;
    [apply follows_quiet, always_outOfFuel|].
  cbn [cleanUploadFoldersLoop]. apply follows_call. intro st.
  unfold callListObjectsV2.
  destruct (ListObjectsV2 _ st) as [[lo e] st1].
  eexists. exists lo. eexists.
  split; [reflexivity|]. split; [reflexivity|]. split; [reflexivity|].
  cbn beta iota zeta.
  apply (resumes_bind _ _ _ _ _ _ (fun _ => True));
    [repeat always_step; reflexivity | trivial | intros _ _].
  apply (resumes_bind _ _ _ _ _ _ (fun _ => True));
    [repeat always_step; apply cleanObject_no_scan | trivial | intros _ _].
  destruct (ListObjectsV2Output.IsTruncated lo) as [b|] eqn:Hb;
    resumes_step.
  destruct b.
  - eapply resumes_follows; [|apply IH]. unfold scanNext. now rewrite Hb.
  - apply resumes_quiet, always_ret.
Qed.

End ChainScan.

(** The requests of [cleanUploadFolders], lines 153-186.  Every flat
    listing request of a run of [cleanUploadFolders] names the bucket and
    the prefix it was called with and asks for [MaxResultCount] keys.  The
    first request carries no continuation token; a further request is made
    only after a page that is truncated, and carries the
    [NextContinuationToken] of that page, whether or not the listing
    returned an error. *)
Theorem cleanUploadFolders_requests_follow_the_token {St} {s : S3 St} opts fuel
  bucket prefix (st : St) :
  chain (scanRequest bucket prefix) scanNext None
    (calls scanCall (trace (cleanUploadFolders opts fuel bucket prefix st))).
Proof.
  revert st.
  change (follows scanCall (scanRequest bucket prefix) scanNext None
            (cleanUploadFolders opts fuel bucket prefix)).
  unfold cleanUploadFolders.
  apply follows_bind; [repeat always_step; reflexivity | intros _].
  apply cleanUploadFoldersLoop_follows.
Qed.

(** ** The folder of a marker *)

Lemma substring_all s : String.substring 0 (String.length s) s = s.
Proof. induction s as [|c s IH]; simpl; [reflexivity | now rewrite IH]. Qed.

(** A string that has a suffix is some string followed by the suffix. *)
Lemma HasSuffix_inv s suffix :
  strings.HasSuffix s suffix = true -> exists pre, s = (pre ++ suffix)%string.
Proof.
  unfold strings.HasSuffix. intros H. apply andb_true_iff in H.
  destruct H as [Hlen Heq]. apply Nat.leb_le in Hlen.
  apply String.eqb_eq in Heq. revert Hlen Heq.
  generalize (String.length suffix) as n. intros n.
  induction s as [|c s IH]; intros Hlen Heq.
  - simpl in Hlen. assert (n = 0%nat) by lia. subst n.
    exists EmptyString. simpl in Heq. now rewrite <- Heq.
  - simpl in Hlen. destruct (Nat.eq_dec n (S (String.length s))) as [->|Hn].
    + exists EmptyString. rewrite Nat.sub_diag in Heq.
      change (String.substring 0 (S (String.length s)) (String c s))
        with (String c (String.substring 0 (String.length s) s)) in Heq.
      now rewrite substring_all in Heq.
    + replace (String.length (String c s) - n)%nat
        with (S (String.length s - n)) in Heq
        by (cbn [String.length]; lia).
      simpl in Heq. destruct (IH ltac:(lia) Heq) as [pre ->].
      now exists (String c pre).
Qed.

Lemma Split_app_slash folder segment :
  strings.Split (folder ++ String "/" segment) "/" =
  strings.Split folder "/" ++ strings.Split segment "/".
Proof.
  induction folder as [|c folder IH]; [reflexivity|].
  cbn [append strings.Split]. rewrite IH.
  destruct (Ascii.eqb c "/"); [reflexivity|].
  pose proof (Split_nonempty folder "/") as Hne.
  destruct (strings.Split folder "/"); [now elim Hne | reflexivity].
Qed.

(** Lines 191-192 on a key that ends in [/startedat]. *)
Lemma uploadsFolderOf_startedat folder :
  uploadsFolderOf (folder ++ "/startedat") = folder.
Proof.
  unfold uploadsFolderOf.
  change ("/startedat") with (String "/" "startedat").
  rewrite Split_app_slash.
  change (strings.Split "startedat" "/") with ["startedat"].
  rewrite removelast_last. apply Join_Split.
Qed.

Lemma HasPrefix_Contains s p :
  strings.HasPrefix s p = true -> strings.Contains s p = true.
Proof. intros H. destruct s; simpl in *; now rewrite H. Qed.

Lemma Contains_cons c s p :
  strings.Contains s p = true -> strings.Contains (String c s) p = true.
Proof. intros H. simpl. rewrite H. apply orb_true_r. Qed.

Ltac prefix_char H :=
  apply andb_true_iff in H;
  let Hc := fresh "Hc" in
  destruct H as [Hc H];
  apply Ascii.eqb_eq in Hc; try discriminate Hc; try subst.

(** A match of [/_uploads/] that starts in [folder] and may run into the
    [/startedat] after it leaves [/_uploads] in [folder]. *)
Lemma HasPrefix_uploads folder :
  strings.HasPrefix (folder ++ "/startedat") "/_uploads/" = true ->
  strings.HasPrefix folder "/_uploads" = true.
Proof.
  intros H.
  do 9 (destruct folder as [|? folder];
        [ cbn [append strings.HasPrefix] in H; repeat prefix_char H;
          try discriminate H; reflexivity
        | ]).
  cbn [append strings.HasPrefix] in H. repeat prefix_char H.
  simpl. now destruct folder.
Qed.

(** A key that contains [/_uploads/] and ends in [/startedat] has
    [/_uploads] in the part before [/startedat]. *)
Lemma Contains_uploads folder :
  strings.Contains (folder ++ "/startedat") "/_uploads/" = true ->
  strings.Contains folder "/_uploads" = true.
Proof.
  induction folder as [|c folder IH]; [discriminate|].
  intros H. change (String c folder ++ "/startedat")%string
    with (String c (folder ++ "/startedat")) in H.
  cbn [strings.Contains] in H. apply orb_true_iff in H.
  destruct H as [H|H].
  - apply HasPrefix_Contains, HasPrefix_uploads, H.
  - apply Contains_cons, IH, H.
Qed.

(** A marker key is a folder followed by [/startedat]; lines 191-192 give
    back the folder, and the folder has [/_uploads] in it. *)
Lemma marker_folder key :
  isMarker key = true ->
  exists folder,
    key = (folder ++ "/startedat")%string /\
    uploadsFolderOf key = folder /\
    strings.Contains folder "/_uploads" = true.
Proof.
  unfold isMarker. intros H. apply andb_true_iff in H. destruct H as [Hc Hs].
  apply HasSuffix_inv in Hs. destruct Hs as [folder ->].
  exists folder. split; [reflexivity|].
  split; [apply uploadsFolderOf_startedat | now apply Contains_uploads].
Qed.

(** A listing that [removeUploadFolder] makes in [bucket] (the listing
    that names no page size) is for a folder that has [/_uploads] in it
    and whose [startedat] key is a marker key. *)
Definition removalListing (bucket : string) (ev : Event) : Prop :=
  match ev with
  | ListObjectsV2Call i _ _ =>
      if isScan i then True
      else exists folder,
          i = {| ListObjectsV2Input.Bucket := Some bucket;
                 ListObjectsV2Input.Prefix := Some folder;
                 ListObjectsV2Input.MaxKeys := None;
                 ListObjectsV2Input.ContinuationToken := None |} /\
          isMarker (folder ++ "/startedat") = true /\
          strings.Contains folder "/_uploads" = true
  | _ => True
  end.

Section RemovalListings.

Context {St : Type} {s : S3 St}.
Variable opts : Options.

Lemma removeUploadFolder_lists_the_folder bucket key :
  isMarker key = true ->
  always (removalListing bucket) (removeUploadFolder bucket key).
Proof.
  intros Hm. destruct (marker_folder key Hm) as (folder & Hk & Hf & Hc).
  unfold removeUploadFolder. fold (uploadsFolderOf key). rewrite Hf.
  unfold removeObject. repeat always_step.
  exists folder. rewrite <- Hk. auto.
Qed.

Lemma cleanObject_lists_folders bucket i o u :
  always (removalListing bucket) (cleanObject opts bucket i o u).
Proof.
  unfold cleanObject. apply always_bind; [apply always_deref | intros key].
  fold (isMarker key). destruct (isMarker key) eqn:Hm; [|apply always_ret].
  apply always_bind;
    [unfold hoursSinceUploadStarted; repeat always_step | intros [h err]].
  repeat always_step. now apply removeUploadFolder_lists_the_folder.
Qed.

Lemma cleanUploadFolders_lists_folders fuel bucket prefix :
  always (removalListing bucket) (cleanUploadFolders opts fuel bucket prefix).
Proof.
  unfold cleanUploadFolders. repeat always_step.
  generalize (@None string).
  induction fuel as [|fuel IH]; intros; simpl; repeat always_step.
  - apply cleanObject_lists_folders.
  - apply IH.
Qed.

Lemma cleanMPUs_lists_nothing fuel bucket prefix :
  always (removalListing (Bucket opts)) (cleanMPUs opts fuel bucket prefix).
Proof.
  unfold cleanMPUs. repeat always_step.
  generalize EmptyString, 0.
  induction fuel as [|fuel IH]; intros; simpl; repeat always_step.
  - unfold cleanUpload. repeat always_step.
  - apply IH.
Qed.

Lemma mainLoop_lists_folders fuel n prefix :
  forall marker total,
  always (removalListing (Bucket opts))
    (mainLoop opts fuel n prefix marker total).
Proof.
  induction n as [|n IH]; intros; simpl; repeat always_step.
  - unfold cleanPrefix. repeat always_step. apply cleanMPUs_lists_nothing.
  - apply cleanUploadFolders_lists_folders.
  - apply IH.
Qed.

End RemovalListings.

(** Where the cleaner lists for deletion, lines 167-177 and 191-197.  In
    a run of [main], whatever the store answers, every listing that
    [removeUploadFolder] makes names the bucket of the options and, as its
    prefix, the key of a marker without the final [/startedat]; that
    prefix has [/_uploads] in it.  The cleaner never lists the whole
    bucket, or a repository, for deletion. *)
Theorem removal_listings_stay_under_uploads {St} {s : S3 St} opts fuel
  (st : St) :
  Forall (removalListing (Bucket opts)) (trace (main opts fuel st)).
Proof.
  revert st.
  change (always (removalListing (Bucket opts)) (main opts fuel)).
  unfold main. repeat always_step. apply mainLoop_lists_folders.
Qed.

(** The edge of lines 191-192: for a key with no [/] in it the prefix
    that [removeUploadFolder] lists is empty, so its one listing is of the
    whole bucket. *)
Theorem removeUploadFolder_without_slash_lists_the_bucket {St} {s : S3 St}
  bucket key (st : St) :
  hasSlash key = false ->
  exists o e,
    listings (trace (removeUploadFolder bucket key st)) =
    [({| ListObjectsV2Input.Bucket := Some bucket;
         ListObjectsV2Input.Prefix := Some EmptyString;
         ListObjectsV2Input.MaxKeys := None;
         ListObjectsV2Input.ContinuationToken := None |}, o, e)].
Proof.
  intros H.
  assert (Hf : uploadsFolderOf key = EmptyString).
  { unfold uploadsFolderOf.
    assert (Hs : strings.Split key "/" = [key] \/ key = EmptyString).
    { clear st. induction key as [|c key IH]; [now right|]. left.
      unfold hasSlash in *. cbn [strings.Contains strings.HasPrefix] in H.
      apply orb_false_iff in H. destruct H as [Hc H].
      assert (Ec : Ascii.eqb c "/" = false)
        by (destruct (Ascii.eqb c "/"); [destruct key|]; auto).
      cbn [strings.Split]. rewrite Ec.
      destruct (IH H) as [->| ->]; reflexivity. }
    destruct Hs as [->| ->]; reflexivity. }
  destruct (removeUploadFolder_run bucket key st) as [Hl _].
  cbv zeta in Hl. rewrite Hf in Hl. eauto.
Qed.

(** On the example store a key without [/] has every object deleted. *)
Lemma removeUploadFolder_without_slash_lists_the_bucket_witness :
  (exists o e,
     listings (trace (removeUploadFolder "registry" "startedat" exampleStore)) =
     [({| ListObjectsV2Input.Bucket := Some "registry";
          ListObjectsV2Input.Prefix := Some EmptyString;
          ListObjectsV2Input.MaxKeys := None;
          ListObjectsV2Input.ContinuationToken := None |}, o, e)]) /\
  Store.objects (final (removeUploadFolder "registry" "startedat" exampleStore))
  = [].
Proof.
  split; [|vm_compute; reflexivity].
  apply (removeUploadFolder_without_slash_lists_the_bucket
           "registry" "startedat" exampleStore).
  reflexivity.
Defined.

(** ** Dates that do not exist *)

(** The numbers that [formatStartedAt] can write in its fields. *)
Definition writable (y mo d h mi s : Z) : Prop :=
  0 <= y <= 9999 /\ 0 <= mo < 100 /\ 0 <= d < 100 /\
  0 <= h < 100 /\ 0 <= mi < 100 /\ 0 <= s < 100.

Lemma Parse_formatStartedAt_invalid y mo d h mi s :
  writable y mo d h mi s -> ~ validFields y mo d h mi s ->
  exists e,
    time.Parse startedadDateFormat (formatStartedAt y mo d h mi s) =
    (time.zeroTime, Some e).
Proof.
  intros (Hy & Hmo & Hd & Hh & Hmi & Hs) Hbad.
  unfold time.Parse. rewrite chunks_startedadDateFormat.
  unfold formatStartedAt. cbn [time.parseChunks].
  rewrite getyear_pad4 by lia. cbn [Ascii.eqb Bool.eqb].
  rewrite getnum_pad2 by lia.
  destruct ((mo <=? 0) || (12 <? mo)) eqn:Emo; [eexists; reflexivity|].
  cbn [Ascii.eqb Bool.eqb]. rewrite getnum_pad2 by lia.
  cbn [Ascii.eqb Bool.eqb]. rewrite getnum_pad2 by lia.
  destruct ((h <? 0) || (24 <=? h)) eqn:Eh; [eexists; reflexivity|].
  cbn [Ascii.eqb Bool.eqb]. rewrite getnum_pad2 by lia.
  destruct ((mi <? 0) || (60 <=? mi)) eqn:Emi; [eexists; reflexivity|].
  cbn [Ascii.eqb Bool.eqb]. rewrite getnum_pad2 by lia.
  destruct ((s <? 0) || (60 <=? s)) eqn:Es; [eexists; reflexivity|].
  cbn [time.fraction Ascii.eqb Bool.eqb String.eqb].
  cbn [time.year time.month time.day time.hour time.min time.sec time.nsec].
  replace (mo <? 0) with false by lia.
  replace (d <? 0) with false by lia.
  destruct ((d <? 1) || (time.daysIn mo y <? d)) eqn:Ed;
    [eexists; reflexivity|].
  exfalso. apply Hbad. unfold validFields. lia.
Qed.

(** What [parseTimeFromStream] makes of a timestamp written in the format
    of the spec with two-digit fields of any value: it returns an instant
    exactly when the fields are a date and a time of day that exist; a
    month 13, a day past the end of the month, an hour 24, a minute or a
    second 60 give an error and the zero time. *)
Theorem parseTimeFromStream_rejects_impossible_dates y mo d h mi s :
  writable y mo d h mi s ->
  (snd (parseTimeFromStream (stream (formatStartedAt y mo d h mi s))) = None
   <-> validFields y mo d h mi s) /\
  (~ validFields y mo d h mi s ->
   fst (parseTimeFromStream (stream (formatStartedAt y mo d h mi s)))
   = time.zeroTime).
Proof.
  intros Hw.
  change (parseTimeFromStream (stream (formatStartedAt y mo d h mi s)))
    with (time.Parse startedadDateFormat (formatStartedAt y mo d h mi s)).
  split; [split|].
  - intros Hp.
    destruct (Z_le_dec 1 mo), (Z_le_dec mo 12), (Z_le_dec 1 d),
      (Z_le_dec d (time.daysIn mo y)), (Z_lt_dec h 24), (Z_lt_dec mi 60),
      (Z_lt_dec s 60);
      try (unfold validFields, writable in *; lia);
      (destruct (Parse_formatStartedAt_invalid y mo d h mi s Hw) as [e He];
       [unfold validFields; lia | rewrite He in Hp; discriminate]).
  - intros Hv. now rewrite Parse_formatStartedAt.
  - intros Hbad.
    destruct (Parse_formatStartedAt_invalid y mo d h mi s Hw Hbad) as [e ->].
    reflexivity.
Qed.

(** 2023 is not a leap year: 29 February 2023 is rejected. *)
Lemma parseTimeFromStream_rejects_impossible_dates_witness :
  snd (parseTimeFromStream (stream "2023-02-29T00:00:00Z")) <> None /\
  fst (parseTimeFromStream (stream "2023-02-29T00:00:00Z")) = time.zeroTime.
Proof.
  assert (Hw : writable 2023 2 29 0 0 0) by (unfold writable; lia).
  assert (Hbad : ~ validFields 2023 2 29 0 0 0)
    by (unfold validFields; vm_compute; intuition congruence).
  destruct (parseTimeFromStream_rejects_impossible_dates 2023 2 29 0 0 0 Hw)
    as [Hiff Hzero].
  split; [intros Hp; apply Hbad, Hiff, Hp | exact (Hzero Hbad)].
Defined.

(** ** A flat listing without [IsTruncated] *)

(** After a page of the flat listing that carries no [IsTruncated] the
    run ends in a panic; when the page is empty as well, the panic is the
    nil dereference of line 186. *)
Definition panicsAfterBarePage (tr : list Event) (out : Outcome) : Prop :=
  forall tr1 i o e tr2,
    tr = tr1 ++ ListObjectsV2Call i o e :: tr2 ->
    isScan i = true -> ListObjectsV2Output.IsTruncated o = None ->
    exists c, out = Panic c /\
              (ListObjectsV2Output.Contents o = [] -> c = NilDereference).

Lemma panicsAfterBarePage_sequential : sequential panicsAfterBarePage.
Proof.
  split.
  - intros [|] ? ? ? ? H; discriminate.
  - intros t1 t2 out H1 H2 tr1 i o e tr2 Htr Hi Ho.
    apply split_app in Htr. destruct Htr as [(l & -> & ->)|(l & -> & ->)].
    + destruct (H1 tr1 i o e l eq_refl Hi Ho) as (c & Hc & _). discriminate.
    + apply (H2 l i o e tr2 eq_refl Hi Ho).
Qed.

Lemma panicsAfterBarePage_quiet tr out :
  Forall (quiet scanCall) tr -> panicsAfterBarePage tr out.
Proof.
  intros H tr1 i o e tr2 -> Hi _. apply Forall_app in H. destruct H as [_ H].
  inversion H as [|? ? Hev _]. unfold quiet in Hev. simpl in Hev.
  rewrite Hi in Hev. discriminate.
Qed.

Section BarePage.

Context {St : Type} {s : S3 St}.
Variable opts : Options.

Lemma cleanUploadFoldersLoop_bare fuel bucket prefix :
  forall token,
  ensures panicsAfterBarePage
    (cleanUploadFoldersLoop opts fuel bucket prefix token).
Proof.
  induction fuel as [|fuel IH]; intros token st;
    [apply panicsAfterBarePage_quiet; constructor|].
  cbn [cleanUploadFoldersLoop].
  match goal with |- context [callListObjectsV2 ?x] => set (li := x) end.
  destruct (ListObjectsV2 li st) as [[lo e] st1] eqn:E.
  erewrite (bind_Done (callListObjectsV2 li) _ st (lo, e) st1)
    by (unfold callListObjectsV2; rewrite E; reflexivity).
  cbn [result final trace]. cbv zeta.
  assert (H1 : exists tr0,
             (match e with Some e0 => print (ListError e0) | None => ret tt end)
               st1 = mkRun (Done tt) st1 tr0 /\ Forall (quiet scanCall) tr0)
    by (destruct e; eexists; split; try reflexivity; repeat constructor).
  destruct H1 as (tr0 & H1 & Hq0).
  rewrite (bind_Done _ _ st1 tt st1 tr0 H1). cbn [result final trace].
  set (body := forRange (cleanObject opts bucket) 0
                 (ListObjectsV2Output.Contents lo) tt).
  assert (Hqb : Forall (quiet scanCall) (trace (body st1))).
  { assert (Ha : always (quiet scanCall) body); [|apply Ha].
    subst body. repeat always_step. apply cleanObject_no_scan. }
  pose proof (terminates_result body st1) as Hterm.
  destruct (ListObjectsV2Output.IsTruncated lo) as [b|] eqn:Hb.
  - (* the loop reads the flag and goes on *)
    assert (Hk : ensures panicsAfterBarePage
                   (body ;;
                    shouldContinue <- deref (Some b) ;;
                    if shouldContinue
                    then cleanUploadFoldersLoop opts fuel bucket prefix
                           (ListObjectsV2Output.NextContinuationToken lo)
                    else ret tt)).
    { apply (ensures_bind _ panicsAfterBarePage_sequential).
      - intro st'. apply panicsAfterBarePage_quiet.
        assert (Ha : always (quiet scanCall) body); [|apply Ha].
        subst body. repeat always_step. apply cleanObject_no_scan.
      - intros _. apply (ensures_bind _ panicsAfterBarePage_sequential).
        + intro st'. apply panicsAfterBarePage_quiet. constructor.
        + intros [|]; [apply IH|].
          intro st'. apply panicsAfterBarePage_quiet. constructor. }
    specialize (Hk st1).
    intros tr1 i o e' tr2 Htr Hi Ho. destruct tr1 as [|x tr1].
    + injection Htr as <- <- <- _. congruence.
    + injection Htr as <- Htr.
      apply (proj2 panicsAfterBarePage_sequential tr0 _ _
               (panicsAfterBarePage_quiet tr0 (Done tt) Hq0) Hk
               tr1 i o e' tr2 Htr Hi Ho).
  - (* nil dereference once the contents are worked through *)
    rewrite result_bind, trace_bind.
    assert (Hout : exists c,
               match result (body st1) with
               | Done a =>
                   result ((shouldContinue <- deref (@None bool) ;;
                            if shouldContinue
                            then cleanUploadFoldersLoop opts fuel bucket prefix
                                   (ListObjectsV2Output.NextContinuationToken lo)
                            else ret tt) (final (body st1)))
               | Panic c => Panic c
               | OutOfFuel => OutOfFuel
               end = Panic c /\
               (ListObjectsV2Output.Contents lo = [] -> c = NilDereference)).
    { destruct (result (body st1)) as [u|c|] eqn:Er.
      - exists NilDereference. now split.
      - exists c. split; [reflexivity|]. intros Hc. subst body.
        rewrite Hc in Er. discriminate.
      - exfalso. apply Hterm; [|reflexivity].
        subst body. apply (ensures_forRange _ terminates_sequential).
        intros. apply cleanObject_terminates. }
    destruct Hout as (c & -> & Hc).
    intros tr1 i o e' tr2 Htr Hi Ho. destruct tr1 as [|x tr1].
    + injection Htr as <- <- <- _. exists c. now split.
    + exfalso. injection Htr as <- Htr.
      assert (Hq : Forall (quiet scanCall)
                     (tr1 ++ ListObjectsV2Call i o e' :: tr2)).
      { rewrite <- Htr. apply Forall_app. split; [exact Hq0|].
        apply Forall_app. split; [exact Hqb|].
        destruct (result (body st1)); constructor. }
      apply Forall_app in Hq. destruct Hq as [_ Hq].
      inversion Hq as [|? ? Hev _]. unfold quiet in Hev. simpl in Hev.
      rewrite Hi in Hev. discriminate.
Qed.

End BarePage.

(** A flat listing without [IsTruncated], lines 155-186.  A failed
    listing of [cleanUploadFolders] is only printed, and the response is
    used all the same.  When a response of the flat listing carries no
    [IsTruncated] (the empty output that comes with an error has none),
    the run of [cleanUploadFolders] does not return: it works through the
    contents of the response and then panics; on an empty response the
    panic is the nil dereference of line 186. *)
Theorem scan_page_without_IsTruncated_panics {St} {s : S3 St} opts fuel
  bucket prefix (st : St) tr1 i o e tr2 :
  trace (cleanUploadFolders opts fuel bucket prefix st) =
    tr1 ++ ListObjectsV2Call i o e :: tr2 ->
  isScan i = true ->
  ListObjectsV2Output.IsTruncated o = None ->
  exists c,
    result (cleanUploadFolders opts fuel bucket prefix st) = Panic c /\
    (ListObjectsV2Output.Contents o = [] -> c = NilDereference).
Proof.
  intros Htr Hi Ho.
  assert (H : ensures panicsAfterBarePage
                (cleanUploadFolders opts fuel bucket prefix)).
  { unfold cleanUploadFolders.
    apply (ensures_bind _ panicsAfterBarePage_sequential).
    - intro st'. apply panicsAfterBarePage_quiet. repeat constructor.
    - intros _. apply cleanUploadFoldersLoop_bare. }
  destruct (H st tr1 i o e tr2 Htr Hi Ho) as (c & Hc & Hnil).
  exists c. split; [|exact Hnil].
  destruct (result (cleanUploadFolders opts fuel bucket prefix st));
    simpl in Hc; congruence.
Qed.

(** Against the store that is out of service the listing fails; the run
    prints the error and panics on the nil dereference. *)
Lemma scan_page_without_IsTruncated_panics_witness :
  let r := @cleanUploadFolders unit Outage.s3 (exampleOpts 3 false) 5
             "registry" repos tt in
  printed (trace r) = [ListError Outage.unavailable] /\
  exists c, result r = Panic c /\ c = NilDereference.
Proof.
  cbv zeta. split; [vm_compute; reflexivity|].
  pose (tr := trace (@cleanUploadFolders unit Outage.s3 (exampleOpts 3 false) 5
                       "registry" repos tt)).
  destruct (@scan_page_without_IsTruncated_panics unit Outage.s3
              (exampleOpts 3 false) 5 "registry" repos tt
              (firstn 1 tr)
              (scanRequest "registry" repos None)
              (fst (fst (@ListObjectsV2 unit Outage.s3
                           (scanRequest "registry" repos None) tt)))
              (Some Outage.unavailable)
              (skipn 2 tr))
    as (c & Hc & Hnil).
  - vm_compute. reflexivity.
  - reflexivity.
  - reflexivity.
  - exists c. split; [exact Hc | apply Hnil; reflexivity].
Defined.

(** ** The calls each reaper makes *)

(** [cleanMPUs] makes no call but [ListMultipartUploads] and
    [AbortMultipartUpload]: it reads and deletes no object.
    [cleanUploadFolders], with what it calls, makes no call but
    [ListObjectsV2], [GetObject] and [DeleteObject]: it lists and aborts
    no multipart upload.  Neither makes the grouped listing of the
    driver. *)
Theorem reapers_keep_to_their_calls {St} {s : S3 St} opts fuel bucket prefix
  (st : St) :
  Forall mpuEvent (trace (cleanMPUs opts fuel bucket prefix st)) /\
  Forall folderEvent (trace (cleanUploadFolders opts fuel bucket prefix st)).
Proof.
  split; [apply cleanMPUs_events | apply cleanUploadFolders_events].
Qed.

(** ** [cleanUploadFolders] in a dry run *)

(** An event that changes nothing in the store: no abort, no delete, and
    no listing of [removeUploadFolder]. *)
Definition readsOnly (ev : Event) : Prop :=
  match ev with
  | AbortMultipartUploadCall _ _ | DeleteObjectCall _ _ => False
  | ListObjectsV2Call i _ _ => isScan i = true
  | _ => True
  end.

Section DryFolders.

Context {St : Type} {s : S3 St}.
Variable opts : Options.
Hypothesis dry : DryRun opts = true.

Lemma cleanObject_dry bucket i o u :
  always readsOnly (cleanObject opts bucket i o u).
Proof.
  unfold cleanObject, hoursSinceUploadStarted. rewrite dry. cbn [negb].
  repeat always_step.
Qed.

Lemma cleanUploadFolders_dry fuel bucket prefix :
  always readsOnly (cleanUploadFolders opts fuel bucket prefix).
Proof.
  unfold cleanUploadFolders. repeat always_step.
  generalize (@None string).
  induction fuel as [|fuel IH]; intros; simpl; repeat always_step;
    try reflexivity.
  - apply cleanObject_dry.
  - apply IH.
Qed.

End DryFolders.

(** [cleanUploadFolders] in a dry run, lines 176-178.  [main] does not
    call [cleanUploadFolders] in a dry run, but the function has its own
    guard: called with the dry-run flag on, it lists and fetches the
    markers and prints the folders it selects, and it makes no delete
    call and never enters the listing of [removeUploadFolder]. *)
Theorem cleanUploadFolders_dry_run_deletes_nothing {St} {s : S3 St} opts fuel
  bucket prefix (st : St) :
  DryRun opts = true ->
  Forall readsOnly (trace (cleanUploadFolders opts fuel bucket prefix st)).
Proof.
  intros Hd. now apply cleanUploadFolders_dry.
Qed.

(** Over the example store a dry run of [cleanUploadFolders] selects the
    ten-hour-old marker and leaves the store as it was. *)
Lemma cleanUploadFolders_dry_run_deletes_nothing_witness :
  let r := cleanUploadFolders (exampleOpts 3 true) 5 "registry" repos
             exampleStore in
  Forall readsOnly (trace r) /\
  selectedMarkers (trace r) =
    [(repos ++ "repoA/_uploads/abc123/startedat")%string] /\
  final r = exampleStore.
Proof.
  cbv zeta. split; [|split; vm_compute; reflexivity].
  apply (cleanUploadFolders_dry_run_deletes_nothing (exampleOpts 3 true) 5
           "registry" repos exampleStore).
  reflexivity.
Defined.
